(** * ProofSight protocol: SDK primitives, Merkle accumulator and circuits

    A shallow embedding of the TypeScript SDK ([sdk/src/crypto.ts],
    [sdk/src/merkle.ts], [sdk/src/sdk.ts], [sdk/src/circuits/proof-generator.ts])
    and of the circom circuits ([withdrawal.circom], [position_update.circom],
    [deposit.circom]), together with the properties the protocol
    specification states about them and further properties of the code.

    Conventions.
    - A JavaScript string is a [string]: a sequence of code units below 256.
    - A JavaScript [bigint] is a [Z]; a [number] is a [JsNumber].
    - A call that may throw returns a [Completion]; [async]/[await] is
      sequential composition.
    - The hash instance of circomlibjs is a parameter
      [poseidon : list Z -> list Byte.byte] of the sections that use it: it
      returns a field element in the library's representation, a
      [Uint8Array] of 32 bytes. The circomlib template is a parameter
      [Poseidon : list Z -> Z] on field elements. *)

From Stdlib Require Import ZArith NArith Ascii String HexString DecimalString.
From Stdlib Require Import DecimalZ DecimalNat DecimalPos Lia.
From stdpp Require Import base tactics option list gmap strings.

Local Open Scope Z_scope.

(** ** JavaScript values and the builtins the SDK calls *)

Module Js.

Inductive JsError : Type :=
| SyntaxError (message : string)
| RangeError (message : string)
| Error (message : string).

Definition error_name (e : JsError) : string :=
  match e with
  | SyntaxError _ => "SyntaxError"
  | RangeError _ => "RangeError"
  | Error _ => "Error"
  end.

Definition error_message (e : JsError) : string :=
  match e with
  | SyntaxError m | RangeError m | Error m => m
  end.

(** [Error.prototype.toString]: the name alone when the message is empty. *)
Definition error_toString (e : JsError) : string :=
  match error_message e with
  | EmptyString => error_name e
  | m => error_name e +:+ ": " +:+ m
  end.

(** The outcome of evaluating an expression: a value, or a thrown error. *)
Inductive Completion (A : Type) : Type :=
| Return (a : A)
| Throw (e : JsError).
Arguments Return {A} a.
Arguments Throw {A} e.

Definition bind {A B} (c : Completion A) (k : A -> Completion B) : Completion B :=
  match c with
  | Return a => k a
  | Throw e => Throw e
  end.

(** [array.map(f)] for a callback that may throw: left to right, the first
    throw aborts the whole map. *)
Fixpoint mapM {A B} (f : A -> Completion B) (l : list A) : Completion (list B) :=
  match l with
  | [] => Return []
  | x :: l' => bind (f x) (fun y => bind (mapM f l') (fun ys => Return (y :: ys)))
  end.

(** A [number]: an integral value, a finite value with a fractional part
    (given by its text, as [String] prints it), [NaN] or an infinity. *)
Inductive JsNumber : Type :=
| NumInt (z : Z)
| NumFrac (text : string)
| NumNaN
| NumInf (negative : bool).

(** *** Strings *)

Definition startsWith (s p : string) : bool := String.prefix p s.

(** WhiteSpace and LineTerminator code units below 256. *)
Definition is_whitespace (c : ascii) : bool :=
  let n := N_of_ascii c in
  ((9 <=? n) && (n <=? 13) || (n =? 32) || (n =? 160))%N.

Fixpoint trimStart (s : string) : string :=
  match s with
  | EmptyString => EmptyString
  | String c s' => if is_whitespace c then trimStart s' else s
  end.

Fixpoint trimEnd (s : string) : string :=
  match s with
  | EmptyString => EmptyString
  | String c s' =>
      match trimEnd s' with
      | EmptyString => if is_whitespace c then EmptyString else String c EmptyString
      | r => String c r
      end
  end.

Definition trim (s : string) : string := trimEnd (trimStart s).

Definition lower_char (c : ascii) : ascii :=
  let n := N_of_ascii c in
  if ((65 <=? n) && (n <=? 90))%N then ascii_of_N (n + 32)
  else if ((192 <=? n) && (n <=? 222) && negb (n =? 215))%N then ascii_of_N (n + 32)
  else c.

Fixpoint toLowerCase (s : string) : string :=
  match s with
  | EmptyString => EmptyString
  | String c s' => String (lower_char c) (toLowerCase s')
  end.

Fixpoint repeat_char (c : ascii) (n : nat) : string :=
  match n with
  | O => EmptyString
  | S n' => String c (repeat_char c n')
  end.

(** [s.padStart(n, c)] for a one-character filler. *)
Definition padStart (n : nat) (c : ascii) (s : string) : string :=
  repeat_char c (n - String.length s) +:+ s.

(** *** Digits *)

Definition dec_digit (c : ascii) : option N :=
  let n := N_of_ascii c in
  if ((48 <=? n) && (n <=? 57))%N then Some (n - 48)%N else None.

Definition oct_digit (c : ascii) : option N :=
  let n := N_of_ascii c in
  if ((48 <=? n) && (n <=? 55))%N then Some (n - 48)%N else None.

Definition bin_digit (c : ascii) : option N :=
  let n := N_of_ascii c in
  if ((48 <=? n) && (n <=? 49))%N then Some (n - 48)%N else None.

Definition hex_digit (c : ascii) : option N := HexString.ascii_to_digit c.

(** The value of a string made only of digits of the radix; [None] when some
    character is not such a digit. *)
Fixpoint digits_value (radix : N) (digit : ascii -> option N) (s : string) (acc : N)
  : option N :=
  match s with
  | EmptyString => Some acc
  | String c s' =>
      match digit c with
      | Some d => digits_value radix digit s' (d + radix * acc)%N
      | None => None
      end
  end.

Definition nonempty_digits (radix : N) (digit : ascii -> option N) (s : string)
  : option Z :=
  match s with
  | EmptyString => None
  | _ => Z.of_N <$> digits_value radix digit s 0%N
  end.

(** StringToBigInt: the trimmed text is empty (zero), a decimal literal with an
    optional sign, or an unsigned literal with a [0x], [0o] or [0b] prefix. *)
Definition StringToBigInt (s : string) : option Z :=
  match trim s with
  | EmptyString => Some 0
  | String "0" (String ("x" | "X") ds) => nonempty_digits 16 hex_digit ds
  | String "0" (String ("o" | "O") ds) => nonempty_digits 8 oct_digit ds
  | String "0" (String ("b" | "B") ds) => nonempty_digits 2 bin_digit ds
  | String "-" ds => Z.opp <$> nonempty_digits 10 dec_digit ds
  | String "+" ds => nonempty_digits 10 dec_digit ds
  | ds => nonempty_digits 10 dec_digit ds
  end%char.

(** [BigInt(string)] *)
Definition BigInt_of_string (s : string) : Completion Z :=
  match StringToBigInt s with
  | Some z => Return z
  | None => Throw (SyntaxError ("Cannot convert " +:+ s +:+ " to a BigInt"))
  end.

(** [String(n)] for an integral number below 10^21 in magnitude. *)
Definition Number_toString (z : Z) : string :=
  NilZero.string_of_int (Z.to_int z).

Definition nat_toString (n : nat) : string :=
  NilZero.string_of_uint (Nat.to_uint n).

(** [String(n)] *)
Definition Number_text (n : JsNumber) : string :=
  match n with
  | NumInt z => Number_toString z
  | NumFrac text => text
  | NumNaN => "NaN"
  | NumInf false => "Infinity"
  | NumInf true => "-Infinity"
  end.

(** [BigInt(number)]: a [RangeError] unless the number is integral. *)
Definition BigInt_of_number (n : JsNumber) : Completion Z :=
  match n with
  | NumInt z => Return z
  | _ => Throw (RangeError ("The number " +:+ Number_text n
                            +:+ " cannot be converted to a BigInt because it is not an integer"))
  end.

(** The Number value of a non-negative integer: round to nearest, ties to
    even, on a 53-bit significand; overflow gives [Infinity]. *)
Definition round_to_double (n : Z) : JsNumber :=
  if n <? 2 ^ 53 then NumInt n
  else
    let e := Z.log2 n - 52 in
    let q := n / 2 ^ e in
    let r := n mod 2 ^ e in
    let half := 2 ^ (e - 1) in
    let q' := if (half <? r) || ((r =? half) && Z.odd q) then q + 1 else q in
    let v := q' * 2 ^ e in
    if 2 ^ 1024 <=? v then NumInf false else NumInt v.

(** The integral Number an arithmetic operation returns when its exact
    result is the integer [z]: [z] rounded as above. Results of magnitude
    2^1024 and more, which are infinities, are left as they are; no index of a
    tree of less than 1024 levels is that large. *)
Definition Number_of (z : Z) : Z :=
  match round_to_double (Z.abs z) with
  | NumInt v => Z.sgn z * v
  | _ => z
  end.

(** The longest prefix of hexadecimal digits of a string and its value. *)
Fixpoint hex_prefix_value (s : string) (acc : N) (seen : bool) : option N :=
  match s with
  | EmptyString => if seen then Some acc else None
  | String c s' =>
      match hex_digit c with
      | Some d => hex_prefix_value s' (d + 16 * acc)%N true
      | None => if seen then Some acc else None
      end
  end.

Definition negate (n : JsNumber) : JsNumber :=
  match n with
  | NumInt z => NumInt (- z)
  | NumInf b => NumInf (negb b)
  | other => other
  end.

(** [parseInt(s, 16)] *)
Definition parseInt16 (s : string) : JsNumber :=
  let s1 := trimStart s in
  let '(neg, s2) :=
    match s1 with
    | String "-" r => (true, r)
    | String "+" r => (false, r)
    | _ => (false, s1)
    end%char in
  let s3 :=
    match s2 with
    | String "0" (String ("x" | "X") r) => r
    | _ => s2
    end%char in
  match hex_prefix_value s3 0%N false with
  | None => NumNaN
  | Some v => let x := round_to_double (Z.of_N v) in if neg then negate x else x
  end.

(** [x || 0] on a number: [NaN] and zero are falsy. *)
Definition or_zero (n : JsNumber) : JsNumber :=
  match n with
  | NumNaN => NumInt 0
  | other => other
  end.

(** *** Predicates on strings used in the statements *)

Fixpoint all_hex (s : string) : bool :=
  match s with
  | EmptyString => true
  | String c s' => match hex_digit c with Some _ => all_hex s' | None => false end
  end.

Fixpoint no_whitespace (s : string) : bool :=
  match s with
  | EmptyString => true
  | String c s' => negb (is_whitespace c) && no_whitespace s'
  end.

Fixpoint has_char (c : ascii) (s : string) : bool :=
  match s with
  | EmptyString => false
  | String c' s' => Ascii.eqb c c' || has_char c s'
  end.

End Js.

Import Js.

(** ** A state monad with exceptions

    [Stateful S A] is a method of an object with fields [S]: it returns or
    throws, and leaves the object in a new state either way. *)

Definition Stateful (S A : Type) : Type := S -> Completion A * S.

Definition st_ret {S A} (a : A) : Stateful S A := fun s => (Return a, s).

Definition st_bind {S A B} (m : Stateful S A) (k : A -> Stateful S B) : Stateful S B :=
  fun s =>
    match m s with
    | (Return a, s') => k a s'
    | (Throw e, s') => (Throw e, s')
    end.

Definition st_get {S} : Stateful S S := fun s => (Return s, s).
Definition st_put {S} (s : S) : Stateful S unit := fun _ => (Return tt, s).
Definition st_lift {S A} (c : Completion A) : Stateful S A := fun s => (c, s).
Definition st_throw {S A} (e : JsError) : Stateful S A := fun s => (Throw e, s).

Declare Scope js_scope.
Delimit Scope js_scope with js.
Notation "'let*' x := c 'in' k" := (st_bind c (fun x => k))
  (at level 10, x pattern, c at level 100, k at level 200) : js_scope.
Notation "c ;;; k" := (st_bind c (fun _ => k))
  (at level 100, k at level 200, right associativity) : js_scope.
Notation "'try*' x := c 'in' k" := (Js.bind c (fun x => k))
  (at level 10, x pattern, c at level 100, k at level 200) : js_scope.
Local Open Scope js_scope.

(** Equality of bytes is decidable. *)
#[global] Instance byte_eq_dec : EqDecision Byte.byte := Byte.byte_eq_dec.

(** ** [sdk/src/crypto.ts]: CryptoUtils *)

Module CryptoUtils.

(** Baby JubJub field modulus (the BN254 scalar field). *)
Definition FIELD_MODULUS : Z :=
  21888242871839275222246405745257275088548364400416034343698204186575808495617.

(** An element of the [inputs] array of [poseidonHash]:
    [number | BN | string]. *)
Inductive HashInput : Type :=
| InNumber (n : JsNumber)
| InBN (z : Z)
| InString (s : string).

Definition hex_char (n : N) : ascii :=
  if (n <? 10)%N then ascii_of_N (48 + n) else ascii_of_N (87 + n).

Definition hex_of_byte (b : Byte.byte) : string :=
  let n := Byte.to_N b in
  String (hex_char (n / 16)) (String (hex_char (n mod 16)) EmptyString).

(** [Buffer.from(randomBytes).toString('hex')] *)
Fixpoint hex_of_bytes (bs : list Byte.byte) : string :=
  match bs with
  | [] => EmptyString
  | b :: bs' => hex_of_byte b +:+ hex_of_bytes bs'
  end.

(** [generateSecret]: the 32 bytes drawn from the platform's random source are
    an argument. *)
Definition generateSecret (randomBytes : list Byte.byte) : string :=
  hex_of_bytes randomBytes.

(** The callback of [inputs.map] in [poseidonHash]: one input to a BigInt. *)
Definition toBigInt (input : HashInput) : Completion Z :=
  match input with
  | InString s =>
      if startsWith s "0x" then
        match BigInt_of_string s with
        | Return z => Return z
        | Throw _ => BigInt_of_number (or_zero (parseInt16 s))
        end
      else
        match BigInt_of_string ("0x" +:+ s) with
        | Return z => Return z
        | Throw _ => BigInt_of_string s
        end
  | InBN z => BigInt_of_string (Number_toString z)
  | InNumber n => BigInt_of_number n
  end.

(** [String(b)] for an element of a [Uint8Array]. *)
Definition byte_text (b : Byte.byte) : string :=
  Number_toString (Z.of_N (Byte.to_N b)).

(** [hash.toString(16)] on a [Uint8Array]: a typed array has the [toString]
    of [Array], which takes no radix and joins the elements, each in decimal,
    with commas. *)
Fixpoint Uint8Array_toString (hash : list Byte.byte) : string :=
  match hash with
  | [] => EmptyString
  | [b] => byte_text b
  | b :: rest => byte_text b +:+ "," +:+ Uint8Array_toString rest
  end.

(** ['0x' + hash.toString(16).padStart(64, '0')] *)
Definition hashToHex (hash : list Byte.byte) : string :=
  "0x" +:+ padStart 64 "0" (Uint8Array_toString hash).

Section Poseidon.

(** The hash instance built by [circomlib.buildPoseidon()], on the array of
    BigInt inputs: its result is the field element as the library holds it,
    a [Uint8Array]. *)
Variable poseidon : list Z -> list Byte.byte.

Definition poseidonHash (inputs : list HashInput) : Completion string :=
  try* bigIntInputs := mapM toBigInt inputs in
  Return (hashToHex (poseidon bigIntInputs)).

Definition computeNullifier (secret commitment : string) : Completion string :=
  poseidonHash [InString secret; InString commitment].

Definition computeCommitment (amount : JsNumber) (secret : string) (index : JsNumber)
  : Completion string :=
  poseidonHash [InNumber amount; InString secret; InNumber index].

End Poseidon.

End CryptoUtils.

(** ** [sdk/src/merkle.ts]: MerkleTree *)

Module MerkleTree.

Import CryptoUtils.

Record MerkleTree : Type := mkTree {
  levels : nat;
  leaves : gmap Z string;
  nodes : gmap string string;
  zeroValue : string
}.

(** [new MerkleTree(levels)] *)
Definition new (levels : nat) : MerkleTree :=
  {| levels := levels; leaves := ∅; nodes := ∅; zeroValue := "0x0" |}.

Definition set_zeroValue (z : string) (t : MerkleTree) : MerkleTree :=
  {| levels := levels t; leaves := leaves t; nodes := nodes t; zeroValue := z |}.

Definition set_node (key value : string) : Stateful MerkleTree unit :=
  fun t => (Return tt,
            {| levels := levels t; leaves := leaves t;
               nodes := <[key := value]> (nodes t); zeroValue := zeroValue t |}).

(** The cache key [`${level}-${index}`]. *)
Definition node_key (level : nat) (index : Z) : string :=
  nat_toString level +:+ "-" +:+ Number_toString index.

Section Poseidon.

Variable poseidon : list Z -> list Byte.byte.

Definition initializeZeroValue : Stateful MerkleTree unit :=
  fun t =>
    if String.eqb (zeroValue t) "0x0" then
      match poseidonHash poseidon [InNumber (NumInt 0); InNumber (NumInt 0)] with
      | Return z => (Return tt, set_zeroValue z t)
      | Throw e => (Throw e, t)
      end
    else (Return tt, t).

Definition hashNodes (left right : string) : Completion string :=
  let leftHex := if startsWith left "0x" then left else "0x" +:+ left in
  let rightHex := if startsWith right "0x" then right else "0x" +:+ right in
  poseidonHash poseidon [InString leftHex; InString rightHex].

Definition insert (index : Z) (commitment : string) : Stateful MerkleTree unit :=
  initializeZeroValue ;;;
  fun t => (Return tt,
            {| levels := levels t; leaves := <[index := commitment]> (leaves t);
               nodes := ∅; zeroValue := zeroValue t |}).

(** [this.leaves.get(index) || this.zeroValue]: a missing leaf and the empty
    string are both falsy. *)
Definition leaf_or_zero (t : MerkleTree) (index : Z) : string :=
  match leaves t !! index with
  | Some EmptyString | None => zeroValue t
  | Some leaf => leaf
  end.

(** [index] and the indices computed from it are Numbers: [index * 2 + 1] is
    rounded where it exceeds 2^53. *)
Fixpoint getNode (level : nat) (index : Z) : Stateful MerkleTree string :=
  initializeZeroValue ;;;
  let key := node_key level index in
  let* t := st_get in
  match nodes t !! key with
  | Some cached => st_ret cached
  | None =>
      match level with
      | O =>
          let leaf := leaf_or_zero t index in
          set_node key leaf ;;;
          st_ret leaf
      | S below =>
          let leftIndex := Number_of (index * 2) in
          let rightIndex := Number_of (Number_of (index * 2) + 1) in
          let* left_ := getNode below leftIndex in
          let* right_ := getNode below rightIndex in
          let* hash := st_lift (hashNodes left_ right_) in
          set_node key hash ;;;
          st_ret hash
      end
  end.

Definition getRoot : Stateful MerkleTree string :=
  initializeZeroValue ;;;
  let* t := st_get in
  getNode (levels t) 0.

Record MerklePath : Type := mkPath {
  pathElements : list string;
  pathIndices : list Z
}.

(** The [for] loop of [generatePath]: [remaining] iterations are left, the
    next one is for [level]. [%] is the truncating remainder, [Math.floor(x / 2)]
    the flooring quotient, both exact on Numbers; the sum and the difference are
    rounded. *)
Fixpoint generatePath_loop (remaining level : nat) (currentIndex : Z) (acc : MerklePath)
  : Stateful MerkleTree MerklePath :=
  match remaining with
  | O => st_ret acc
  | S remaining' =>
      let siblingIndex :=
        if Z.rem currentIndex 2 =? 0 then Number_of (currentIndex + 1)
        else Number_of (currentIndex - 1) in
      let* sibling := getNode level siblingIndex in
      generatePath_loop remaining' (S level) (currentIndex / 2)
        {| pathElements := pathElements acc ++ [sibling];
           pathIndices := pathIndices acc ++ [Z.rem currentIndex 2] |}
  end.

Definition generatePath (index : Z) : Stateful MerkleTree MerklePath :=
  initializeZeroValue ;;;
  let* t := st_get in
  generatePath_loop (levels t) 0 index {| pathElements := []; pathIndices := [] |}.

(** The [for] loop of [verifyPath] from position [i] on; [rest] is
    [pathElements.slice(i)]. A missing direction is [undefined], not [1]. *)
Fixpoint verifyPath_loop (rest : list string) (i : nat) (pathIndices : list Z)
  (currentHash : string) : Completion string :=
  match rest with
  | [] => Return currentHash
  | sibling :: rest' =>
      let isRight := match pathIndices !! i with Some 1 => true | _ => false end in
      try* next := (if isRight then hashNodes sibling currentHash
                    else hashNodes currentHash sibling) in
      verifyPath_loop rest' (S i) pathIndices next
  end.

Definition verifyPath (leaf : string) (pathElements : list string) (pathIndices : list Z)
  (root : string) : Stateful MerkleTree bool :=
  initializeZeroValue ;;;
  let* currentHash := st_lift (verifyPath_loop pathElements 0 pathIndices leaf) in
  st_ret (String.eqb (toLowerCase currentHash) (toLowerCase root)).

End Poseidon.

End MerkleTree.

(** ** [sdk/src/sdk.ts]: ProofSightSDK *)

Module ProofSightSDK.

Import CryptoUtils.

(** The fields of the SDK object that its methods read or write. The
    connection and the wallet are opaque handles no method inspects. *)
Record ProofSightSDK : Type := mkSDK {
  network : string;
  merkleTree : MerkleTree.MerkleTree;
  initialized : bool
}.

Record DepositResult : Type := mkDepositResult {
  deposit_amount : JsNumber;
  deposit_commitment : string;
  deposit_signature : string
}.

Record CreateMarketOptions : Type := mkCreateMarketOptions {
  opt_question : string;
  opt_outcomes : list string;
  opt_resolutionDate : Z;
  opt_initialLiquidity : JsNumber
}.

Inductive MarketStatus : Type := active | resolved | cancelled.

Record Market : Type := mkMarket {
  market_id : string;
  question : string;
  outcomes : list string;
  currentOdds : list (string * JsNumber);
  totalLiquidity : JsNumber;
  volume24h : JsNumber;
  resolutionDate : Z;
  status : MarketStatus
}.

Record CreatePositionOptions : Type := mkCreatePositionOptions {
  opt_marketId : string;
  opt_outcome : string;
  opt_amount : JsNumber
}.

Record Position : Type := mkPosition {
  position_id : string;
  marketId : string;
  outcome : string;
  commitment : string;
  amount : JsNumber
}.

(** [recipient] is a [PublicKey]; its base58 text stands for it. *)
Record WithdrawOptions : Type := mkWithdrawOptions {
  withdraw_amount : JsNumber;
  recipient : string
}.

Record WithdrawResult : Type := mkWithdrawResult {
  result_amount : JsNumber;
  result_signature : string;
  nullifier : string
}.

(** [new ProofSightSDK(options)] *)
Definition new (network : string) : ProofSightSDK :=
  {| network := network; merkleTree := MerkleTree.new 32; initialized := false |}.

Definition initialize : Stateful ProofSightSDK unit :=
  fun sdk =>
    if initialized sdk then (Return tt, sdk)
    else (Return tt, {| network := network sdk; merkleTree := merkleTree sdk;
                        initialized := true |}).

Definition disconnect : Stateful ProofSightSDK unit :=
  fun sdk => (Return tt, {| network := network sdk; merkleTree := merkleTree sdk;
                            initialized := false |}).

Definition checkInit : Stateful ProofSightSDK unit :=
  fun sdk =>
    if initialized sdk then (Return tt, sdk)
    else (Throw (Error "ProofSight SDK not initialized"), sdk).

(** A method call on [this.merkleTree]. *)
Definition on_tree {A} (m : Stateful MerkleTree.MerkleTree A) : Stateful ProofSightSDK A :=
  fun sdk =>
    let '(r, t) := m (merkleTree sdk) in
    (r, {| network := network sdk; merkleTree := t; initialized := initialized sdk |}).

Section Poseidon.

Variable poseidon : list Z -> list Byte.byte.

(** [deposit(amount)]; [randomBytes] is what [generateSecret] draws and [now]
    what [Date.now()] returns during the call. *)
Definition deposit (amount : JsNumber) (randomBytes : list Byte.byte) (now : Z)
  : Stateful ProofSightSDK DepositResult :=
  checkInit ;;;
  let secret := generateSecret randomBytes in
  let nextIndex := 0 in
  let* commitment := st_lift (computeCommitment poseidon amount secret (NumInt nextIndex)) in
  let* nullifier := st_lift (computeNullifier poseidon secret commitment) in
  let* path := on_tree (MerkleTree.generatePath poseidon nextIndex) in
  let signature := "mock_tx_signature_" +:+ Number_toString now in
  on_tree (MerkleTree.insert poseidon nextIndex commitment) ;;;
  st_ret {| deposit_amount := amount; deposit_commitment := commitment;
            deposit_signature := signature |}.

Definition createMarket (options : CreateMarketOptions) (now : Z)
  : Stateful ProofSightSDK Market :=
  checkInit ;;;
  st_ret {| market_id := "market_" +:+ Number_toString now;
            question := opt_question options;
            outcomes := opt_outcomes options;
            currentOdds := [("Yes", NumFrac "0.5"); ("No", NumFrac "0.5")];
            totalLiquidity := opt_initialLiquidity options;
            volume24h := NumInt 0;
            resolutionDate := opt_resolutionDate options;
            status := active |}.

Definition createPosition (options : CreatePositionOptions) (randomBytes : list Byte.byte)
  (now : Z) : Stateful ProofSightSDK Position :=
  checkInit ;;;
  let secret := generateSecret randomBytes in
  let* commitment := st_lift (poseidonHash poseidon
      [InNumber (opt_amount options); InString secret; InString (opt_marketId options)]) in
  st_ret {| position_id := "pos_" +:+ Number_toString now;
            marketId := opt_marketId options;
            outcome := opt_outcome options;
            commitment := commitment;
            amount := opt_amount options |}.

Definition withdraw (options : WithdrawOptions) (randomBytes : list Byte.byte)
  : Stateful ProofSightSDK WithdrawResult :=
  checkInit ;;;
  let mockSecret := generateSecret randomBytes in
  let* mockCommitment :=
    st_lift (computeCommitment poseidon (withdraw_amount options) mockSecret (NumInt 0)) in
  let* nullifier := st_lift (computeNullifier poseidon mockSecret mockCommitment) in
  st_ret {| result_amount := withdraw_amount options;
            result_signature := "mock_withdraw_sig";
            nullifier := nullifier |}.

End Poseidon.

End ProofSightSDK.

(** ** [sdk/src/circuits/proof-generator.ts]: ProofGenerator *)

Module ProofGenerator.

(** A value of [ProofInputs]: [string | number | string[] | number[]]. *)
Inductive InputValue : Type :=
| VString (s : string)
| VNumber (n : JsNumber)
| VStrings (l : list string)
| VNumbers (l : list JsNumber).

Definition ProofInputs : Type := list (string * InputValue).

Record Proof : Type := mkProof {
  pi_a : list string;
  pi_b : list (list string);
  pi_c : list string
}.

(** A public signal as snarkjs hands it over ([any]): a bigint or a string. *)
Inductive Signal : Type :=
| SigBigInt (z : Z)
| SigString (s : string).

Definition Signal_toString (s : Signal) : string :=
  match s with
  | SigBigInt z => Number_toString z
  | SigString s => s
  end.

Record FullProveResult : Type := mkFullProveResult {
  full_proof : Proof;
  full_publicSignals : list Signal
}.

Record ProofResult : Type := mkProofResult {
  proof : Proof;
  publicSignals : list string
}.

(** One call of [snarkjs.groth16.fullProve] as the prover sees it. *)
Record ProverCall : Type := mkProverCall {
  call_input : ProofInputs;
  call_wasmPath : string;
  call_zkeyPath : string
}.

Inductive BigIntValue : Type :=
| FScalar (z : Z)
| FArray (l : list Z).

(** [formatInputs]: both arms of its conditionals are [BigInt(v)]. *)
Definition formatValue (v : InputValue) : Completion BigIntValue :=
  match v with
  | VString s => try* z := BigInt_of_string s in Return (FScalar z)
  | VNumber n => try* z := BigInt_of_number n in Return (FScalar z)
  | VStrings l => try* zs := mapM BigInt_of_string l in Return (FArray zs)
  | VNumbers l => try* zs := mapM BigInt_of_number l in Return (FArray zs)
  end.

Definition formatInputs (inputs : ProofInputs) : Completion (list (string * BigIntValue)) :=
  mapM (fun kv => try* v := formatValue (snd kv) in Return (fst kv, v)) inputs.

Section Prover.

(** The external prover, [snarkjs.groth16.fullProve]. The state threaded
    through [generateProof] is the list of calls the prover has received. *)
Variable fullProve : ProofInputs -> string -> string -> Completion FullProveResult.

Definition call_fullProve (inputs : ProofInputs) (wasmPath zkeyPath : string)
  : Stateful (list ProverCall) FullProveResult :=
  fun calls =>
    (fullProve inputs wasmPath zkeyPath,
     calls ++ [{| call_input := inputs; call_wasmPath := wasmPath;
                  call_zkeyPath := zkeyPath |}]).

Definition generateProof (wasmPath zkeyPath : string) (inputs : ProofInputs)
  : Stateful (list ProverCall) ProofResult :=
  fun calls =>
    match call_fullProve inputs wasmPath zkeyPath calls with
    | (Return r, calls') =>
        (Return {| proof := {| pi_a := pi_a (full_proof r);
                               pi_b := pi_b (full_proof r);
                               pi_c := pi_c (full_proof r) |};
                   publicSignals := map Signal_toString (full_publicSignals r) |},
         calls')
    | (Throw error, calls') =>
        (Throw (Error ("Proof generation failed: " +:+ error_toString error)), calls')
    end.

End Prover.

End ProofGenerator.

(** ** The circom circuits: [withdrawal.circom], [position_update.circom]

    A template is read as the constraint system its text states: a function
    from its input signals to [Some] of its output signals when the witness
    its assignments compute satisfies every constraint, and to [None]
    otherwise. Signals are residues modulo the field prime.

    Two readings go beyond what the compiler takes. [hashers[i].hash] is read
    as the output of the hasher, which circomlib names [out]; and a [<==]
    whose right-hand side is a sum of two products
    ([buy_a_constraint], [buy_b_constraint], [enforced_constraint],
    [amount_out]) is read as the assignment together with its equality,
    although circom admits quadratic constraints only. The compiler refuses
    the templates as they are, so no witness is accepted by a circuit built
    from them; what is stated of these functions is what the constraints
    require of any witness. *)

Module Circuits.

Definition p : Z := CryptoUtils.FIELD_MODULUS.

(** An input value as the witness calculator stores it. *)
Definition Fr (x : Z) : Z := x mod p.

Definition fadd (a b : Z) : Z := (a + b) mod p.
Definition fsub (a b : Z) : Z := (a - b) mod p.
Definition fmul (a b : Z) : Z := (a * b) mod p.

(** [a === b] *)
Definition constrain (a b : Z) : option unit :=
  if a =? b then Some tt else None.

(** circomlib [Num2Bits(n)]: [out[i] <-- (in >> i) & 1], then [lc1 === in]. *)
Definition Num2Bits (n : nat) (x : Z) : option (list Z) :=
  let out := map (fun i => Z.land (Z.shiftr x (Z.of_nat i)) 1) (seq 0 n) in
  let lc1 := fold_right (fun '(i, b) acc => fadd (fmul b (2 ^ Z.of_nat i)) acc) 0
               (combine (seq 0 n) out) in
  _ ← constrain lc1 x;
  Some out.

(** circomlib [IsZero] *)
Definition IsZero (x : Z) : Z := if x =? 0 then 1 else 0.

(** circomlib [LessThan(n)] *)
Definition LessThan (n : nat) (in0 in1 : Z) : option Z :=
  n2b ← Num2Bits (S n) (fsub (fadd in0 (2 ^ Z.of_nat n)) in1);
  Some (fsub 1 (nth n n2b 0)).

(** circomlib [GreaterEqThan(n)] *)
Definition GreaterEqThan (n : nat) (in0 in1 : Z) : option Z :=
  LessThan n in1 (fadd in0 1).

Definition DualMux (in0 in1 s : Z) : option (Z * Z) :=
  _ ← constrain (fmul s (fsub 1 s)) 0;
  Some (fadd (fmul (fsub in1 in0) s) in0, fadd (fmul (fsub in0 in1) s) in1).

Section Poseidon.

(** The circomlib [Poseidon(n)] template, on its [n] input signals. *)
Variable Poseidon : list Z -> Z.

(** The loop of [MerklePathVerifier]: the hash after the remaining levels. *)
Fixpoint MerklePathVerifier_loop (current : Z) (pathElements pathIndices : list Z)
  : option Z :=
  match pathElements, pathIndices with
  | [], [] => Some current
  | e :: es, s :: ss =>
      '(out0, out1) ← DualMux current e s;
      MerklePathVerifier_loop (Poseidon [out0; out1]) es ss
  | _, _ => None
  end.

Definition MerklePathVerifier (levels : nat) (leaf root : Z)
  (pathElements pathIndices : list Z) : option unit :=
  _ ← guard (length pathElements = levels);
  last ← MerklePathVerifier_loop leaf pathElements pathIndices;
  constrain root last.

Record WithdrawalInputs : Type := mkWithdrawalInputs {
  w_root : Z;
  w_nullifierHash : Z;
  w_recipient : Z;
  w_secret : Z;
  w_amount : Z;
  w_pathElements : list Z;
  w_pathIndices : list Z
}.

(** The intermediate signals of [WithdrawalCircuit] a satisfying witness holds. *)
Record WithdrawalSignals : Type := mkWithdrawalSignals {
  sig_commitment : Z;
  sig_computedNullifier : Z;
  sig_boundNullifier : Z
}.

(** [var indexVal]: the directions packed least significant first. *)
Definition indexVal (pathIndices : list Z) : Z :=
  fold_right (fun '(i, b) acc => fadd (fmul b (2 ^ Z.of_nat i)) acc) 0
    (combine (seq 0 (length pathIndices)) pathIndices).

Definition WithdrawalCircuit (levels : nat) (inputs : WithdrawalInputs)
  : option WithdrawalSignals :=
  let root := Fr (w_root inputs) in
  let nullifierHash := Fr (w_nullifierHash inputs) in
  let recipient := Fr (w_recipient inputs) in
  let secret := Fr (w_secret inputs) in
  let amount := Fr (w_amount inputs) in
  let pathElements := map Fr (w_pathElements inputs) in
  let pathIndices := map Fr (w_pathIndices inputs) in
  let commitment := Poseidon [amount; secret; indexVal pathIndices] in
  let computedNullifier := Poseidon [secret; commitment] in
  _ ← constrain nullifierHash computedNullifier;
  _ ← MerklePathVerifier levels commitment root pathElements pathIndices;
  let boundNullifier := Poseidon [computedNullifier; recipient] in
  _ ← constrain (IsZero recipient) 0;
  _ ← Num2Bits 64 amount;
  Some {| sig_commitment := commitment;
          sig_computedNullifier := computedNullifier;
          sig_boundNullifier := boundNullifier |}.

Record PositionUpdateInputs : Type := mkPositionUpdateInputs {
  market_id : Z;
  pool_token_a : Z;
  pool_token_b : Z;
  new_pool_token_a : Z;
  new_pool_token_b : Z;
  amount_in : Z;
  is_buy_a : Z;
  min_amount_out : Z;
  user_secret : Z;
  position_commitment : Z
}.

(** [PositionUpdateCircuit]: [Some valid] when every constraint holds. *)
Definition PositionUpdateCircuit (inputs : PositionUpdateInputs) : option Z :=
  let market_id := Fr (market_id inputs) in
  let pool_token_a := Fr (pool_token_a inputs) in
  let pool_token_b := Fr (pool_token_b inputs) in
  let new_pool_token_a := Fr (new_pool_token_a inputs) in
  let new_pool_token_b := Fr (new_pool_token_b inputs) in
  let amount_in := Fr (amount_in inputs) in
  let is_buy_a := Fr (is_buy_a inputs) in
  let min_amount_out := Fr (min_amount_out inputs) in
  let user_secret := Fr (user_secret inputs) in
  _ ← Num2Bits 64 amount_in;
  _ ← Num2Bits 64 pool_token_a;
  _ ← Num2Bits 64 pool_token_b;
  _ ← Num2Bits 1 is_buy_a;
  let k_old := fmul pool_token_a pool_token_b in
  let k_new := fmul new_pool_token_a new_pool_token_b in
  kCheck ← GreaterEqThan 128 k_new k_old;
  _ ← constrain kCheck 1;
  let expected_new_pool_b_buy_a := fadd pool_token_b amount_in in
  let k_check_buy_a := fmul new_pool_token_a expected_new_pool_b_buy_a in
  let expected_new_pool_a_buy_b := fadd pool_token_a amount_in in
  let k_check_buy_b := fmul expected_new_pool_a_buy_b new_pool_token_b in
  let buy_a_k_match := fsub k_check_buy_a k_old in
  let buy_a_pool_match := fsub new_pool_token_b expected_new_pool_b_buy_a in
  let buy_b_k_match := fsub k_check_buy_b k_old in
  let buy_b_pool_match := fsub new_pool_token_a expected_new_pool_a_buy_b in
  let buy_a_constraint :=
    fadd (fmul buy_a_k_match buy_a_k_match) (fmul buy_a_pool_match buy_a_pool_match) in
  let buy_b_constraint :=
    fadd (fmul buy_b_k_match buy_b_k_match) (fmul buy_b_pool_match buy_b_pool_match) in
  let enforced_constraint :=
    fadd (fmul is_buy_a buy_a_constraint) (fmul (fsub 1 is_buy_a) buy_b_constraint) in
  _ ← constrain enforced_constraint 0;
  let amount_out_buy_a := fsub pool_token_a new_pool_token_a in
  let amount_out_buy_b := fsub pool_token_b new_pool_token_b in
  let amount_out :=
    fadd (fmul is_buy_a amount_out_buy_a) (fmul (fsub 1 is_buy_a) amount_out_buy_b) in
  slippageCheck ← GreaterEqThan 64 amount_out min_amount_out;
  _ ← constrain slippageCheck 1;
  let authHash := Poseidon [user_secret; market_id] in
  let valid := 1 in
  _ ← constrain (IsZero new_pool_token_a) 0;
  _ ← constrain (IsZero new_pool_token_b) 0;
  Some valid.

End Poseidon.

(** The swap the circuit comments and the README document for buying A:
    [new_pool_b = pool_b + amount_in], [new_pool_a = k_old / new_pool_b], the
    quotient truncated to an integer. *)
Definition swap_buy_a (pool_a pool_b amount_in : Z) : Z * Z :=
  let k_old := pool_a * pool_b in
  let new_pool_b := pool_b + amount_in in
  (k_old ÷ new_pool_b, new_pool_b).

(** The product invariant [new_x * new_y >= old_x * old_y] over the integers. *)
Definition product_invariant (pool_a pool_b new_pool_a new_pool_b : Z) : bool :=
  pool_a * pool_b <=? new_pool_a * new_pool_b.

(** The inputs of the test "should accept valid buy A transaction". *)
Definition buy_a_test_inputs : PositionUpdateInputs :=
  {| market_id := 1;
     pool_token_a := 1000000000;
     pool_token_b := 1000000000;
     new_pool_token_a := 909090909;
     new_pool_token_b := 1100000000;
     amount_in := 100000000;
     is_buy_a := 1;
     min_amount_out := 80000000;
     user_secret := 0x1234567890abcdef1234567890abcdef1234567890abcdef1234567890abcdef;
     position_commitment := 0xabcdef1234567890abcdef1234567890abcdef1234567890abcdef1234567890 |}.

End Circuits.

(** ** Reference functions and test scenarios used in the statements *)

Module Accumulator.

Import CryptoUtils MerkleTree.

(** The operand [hashNodes] converts for one of its arguments. *)
Definition operand_value (s : string) : Completion Z :=
  toBigInt (InString (if startsWith s "0x" then s else "0x" +:+ s)).

(** The operand [poseidonHash] reads from the text of a hash of two bytes
    or more: [BigInt] rejects the text for its commas, and
    [parseInt(text, 16)] reads the decimal digits of the first byte in
    base 16. For a text of one byte [BigInt] itself reads these digits. *)
Definition leading_operand (hash : list Byte.byte) : Z :=
  match hash with
  | [] => 0
  | b :: _ =>
      let n := Z.of_N (Byte.to_N b) in
      256 * (n / 100) + 16 * (n / 10 mod 10) + n mod 10
  end.

(** The numbers between the commas of a text, read in decimal: the bytes a
    hash text holds. *)
Fixpoint parse_bytes (s : string) (acc : N) : list N :=
  match s with
  | EmptyString => [acc]
  | String c s' =>
      match dec_digit c with
      | Some d => parse_bytes s' (d + 10 * acc)%N
      | None => acc :: parse_bytes s' 0%N
      end
  end.

(** The child indices [getNode] computes. *)
Definition left_child (index : Z) : Z := Number_of (index * 2).
Definition right_child (index : Z) : Z := Number_of (Number_of (index * 2) + 1).

Definition sibling_index (index : Z) : Z :=
  if Z.rem index 2 =? 0 then Number_of (index + 1) else Number_of (index - 1).

Fixpoint path_dirs (n : nat) (index : Z) : list Z :=
  match n with
  | O => []
  | S n' => Z.rem index 2 :: path_dirs n' (index / 2)
  end.

Section Poseidon.

Variable poseidon : list Z -> list Byte.byte.

(** The hash of a node of the empty tree, level by level: the zero value
    [H(0, 0)] at the leaves, and above them the hash of what [hashNodes] reads
    from the text of the level below, twice. *)
Fixpoint zero_node (i : nat) : list Byte.byte :=
  match i with
  | O => poseidon [0; 0]
  | S i' => poseidon [leading_operand (zero_node i'); leading_operand (zero_node i')]
  end.

(** The value the tree denotes at a node: what [getNode] computes when
    nothing is cached. [lv] is the leaf map and [zero] the zero value. *)
Fixpoint node_hash (lv : gmap Z string) (zero : string) (level : nat) (index : Z)
  : Completion string :=
  match level with
  | O => Return (match lv !! index with
                 | Some EmptyString | None => zero
                 | Some leaf => leaf
                 end)
  | S below =>
      try* l := node_hash lv zero below (left_child index) in
      try* r := node_hash lv zero below (right_child index) in
      hashNodes poseidon l r
  end.

Definition node_str (lv : gmap Z string) (zero : string) (level : nat) (index : Z) : string :=
  match node_hash lv zero level index with
  | Return v => v
  | Throw _ => EmptyString
  end.

Fixpoint path_elems (lv : gmap Z string) (zero : string) (n level : nat) (index : Z)
  : list string :=
  match n with
  | O => []
  | S n' =>
      node_str lv zero level (sibling_index index)
        :: path_elems lv zero n' (S level) (index / 2)
  end.

(** [for (let i = 0; i < n; i++) await tree.insert(i, commitments[i])], from
    index [start] on. *)
Fixpoint insert_all (commitments : list string) (start : Z) : Stateful MerkleTree unit :=
  match commitments with
  | [] => st_ret tt
  | c :: rest => insert poseidon start c ;;; insert_all rest (start + 1)
  end.

(** Insert the commitments at indices 0, 1, ..., then generate the path of
    index [i] and verify [leaf] with it against the current root. *)
Definition round_trip (commitments : list string) (i : Z) (leaf : string)
  : Stateful MerkleTree bool :=
  insert_all commitments 0 ;;;
  let* path := generatePath poseidon i in
  let* root := getRoot poseidon in
  verifyPath poseidon leaf (pathElements path) (pathIndices path) root.

(** The zero value once [initializeZeroValue] has run. *)
Definition zero_value : string := hashToHex (poseidon [0; 0]).

(** A string that [hashNodes] converts to an operand without throwing. *)
Definition convertible (s : string) : Prop :=
  exists v, operand_value s = Return v.

Definition leaves_wf (lv : gmap Z string) : Prop :=
  forall i c, lv !! i = Some c -> convertible c.

(** Every cached node holds the value the tree denotes there. *)
Definition cache_consistent (t : MerkleTree) : Prop :=
  forall l i v, nodes t !! node_key l i = Some v ->
    node_hash (leaves t) zero_value l i = Return v.

(** The states a tree goes through: the zero value is still the placeholder
    of the constructor or already the hash, the cache is consistent and the
    leaves are convertible. *)
Definition tree_inv (t : MerkleTree) : Prop :=
  (zeroValue t = "0x0" \/ zeroValue t = zero_value)
  /\ cache_consistent t /\ leaves_wf (leaves t).




(** A string is a hash output when [poseidonHash] returns it for some inputs. *)
Definition hash_output (s : string) : Prop :=
  exists inputs, poseidonHash poseidon inputs = Return s.

End Poseidon.

End Accumulator.

(** The five places where the protocol feeds a tuple to Poseidon. *)
Module Derivation.

Import CryptoUtils.

Inductive Context : Type :=
| Commitment | Nullifier | RecipientBinding | ZeroSentinel | MerkleNode.

Inductive Derivation : Type :=
| DeriveCommitment (amount : JsNumber) (secret : string) (index : JsNumber)
| DeriveNullifier (secret commitment : string)
| BindRecipient (computedNullifier recipient : Z)
| DeriveZero
| HashNodes (leftNode rightNode : string).

Definition context (d : Derivation) : Context :=
  match d with
  | DeriveCommitment _ _ _ => Commitment
  | DeriveNullifier _ _ => Nullifier
  | BindRecipient _ _ => RecipientBinding
  | DeriveZero => ZeroSentinel
  | HashNodes _ _ => MerkleNode
  end.

(** The tuple each derivation passes to Poseidon: [computeCommitment],
    [computeNullifier], the [recipientBinding] component of the withdrawal
    circuit, [initializeZeroValue] and [hashNodes]. *)
Definition hash_tuple (d : Derivation) : Completion (list Z) :=
  match d with
  | DeriveCommitment amount secret index =>
      mapM toBigInt [InNumber amount; InString secret; InNumber index]
  | DeriveNullifier secret commitment =>
      mapM toBigInt [InString secret; InString commitment]
  | BindRecipient computedNullifier recipient =>
      Return [computedNullifier; Circuits.Fr recipient]
  | DeriveZero =>
      mapM toBigInt [InNumber (NumInt 0); InNumber (NumInt 0)]
  | HashNodes leftNode rightNode =>
      mapM toBigInt
        [InString (if startsWith leftNode "0x" then leftNode else "0x" +:+ leftNode);
         InString (if startsWith rightNode "0x" then rightNode else "0x" +:+ rightNode)]
  end.

End Derivation.

(** A stand-in for the Poseidon template, used to run the circuits on
    concrete inputs. *)
Module PairingHash.

Definition enc (z : Z) : Z := if 0 <=? z then 2 * z else - 2 * z - 1.

Definition pair (x y : Z) : Z := (x + y) * (x + y) + x.

Definition hash (l : list Z) : Z :=
  1 + fold_right (fun x acc => pair (enc x) acc) 0 l.

End PairingHash.

(** A stand-in for the circomlibjs instance, used to run the SDK on concrete
    inputs: the 32 low bytes of the stand-in above, least significant first. *)
Module ByteHash.

Fixpoint le_bytes (n : nat) (z : Z) : list Byte.byte :=
  match n with
  | O => []
  | S n' => default Byte.x00 (Byte.of_N (Z.to_N (z mod 256))) :: le_bytes n' (z / 256)
  end.

Definition hash (l : list Z) : list Byte.byte := le_bytes 32 (PairingHash.hash l).

End ByteHash.

(** Concrete runs *)
Module Scenario.

Import CryptoUtils ProofGenerator.

(** A prover that answers every call with the same proof. *)
Definition constant_prover (inputs : ProofInputs) (wasmPath zkeyPath : string)
  : Completion FullProveResult :=
  Return {| full_proof := {| pi_a := ["1"; "2"; "1"];
                             pi_b := [["1"; "2"]; ["3"; "4"]; ["1"; "0"]];
                             pi_c := ["5"; "6"; "1"] |};
            full_publicSignals := [SigString "7"] |}.

(** What the specification asks of a witness value: every scalar converts to
    an integer inside the proving field. *)
Definition spec_scalar_in_field (c : Completion Z) : bool :=
  match c with
  | Return z => (0 <=? z) && (z <? FIELD_MODULUS)
  | Throw _ => false
  end.

Definition spec_value_in_field (v : InputValue) : bool :=
  match v with
  | VString s => spec_scalar_in_field (BigInt_of_string s)
  | VNumber n => spec_scalar_in_field (BigInt_of_number n)
  | VStrings l => forallb (fun s => spec_scalar_in_field (BigInt_of_string s)) l
  | VNumbers l => forallb (fun n => spec_scalar_in_field (BigInt_of_number n)) l
  end.

Definition spec_witness_in_field (inputs : ProofInputs) : bool :=
  forallb (fun kv => spec_value_in_field (snd kv)) inputs.

(** A deposit witness whose amount is the field modulus itself and whose
    secret is not a numeral. *)
Definition out_of_range_inputs : ProofInputs :=
  [("deposit_amount",
    VString "21888242871839275222246405745257275088548364400416034343698204186575808495617");
   ("timestamp", VNumber (NumInt (2 ^ 64)));
   ("secret", VString "not-a-number")].

(** Two draws of 32 random bytes. *)
Definition some_bytes : list Byte.byte :=
  [Byte.x01; Byte.x23; Byte.x45; Byte.x67; Byte.x89; Byte.xab; Byte.xcd; Byte.xef;
   Byte.x10; Byte.x32; Byte.x54; Byte.x76; Byte.x98; Byte.xba; Byte.xdc; Byte.xfe;
   Byte.x00; Byte.x11; Byte.x22; Byte.x33; Byte.x44; Byte.x55; Byte.x66; Byte.x77;
   Byte.x88; Byte.x99; Byte.xaa; Byte.xbb; Byte.xcc; Byte.xdd; Byte.xee; Byte.xff].

Definition other_bytes : list Byte.byte :=
  [Byte.xfe; Byte.xdc; Byte.xba; Byte.x98; Byte.x76; Byte.x54; Byte.x32; Byte.x10;
   Byte.xef; Byte.xcd; Byte.xab; Byte.x89; Byte.x67; Byte.x45; Byte.x23; Byte.x01;
   Byte.xff; Byte.xee; Byte.xdd; Byte.xcc; Byte.xbb; Byte.xaa; Byte.x99; Byte.x88;
   Byte.x77; Byte.x66; Byte.x55; Byte.x44; Byte.x33; Byte.x22; Byte.x11; Byte.x00].

Definition ready_sdk : ProofSightSDK.ProofSightSDK :=
  snd (ProofSightSDK.initialize (ProofSightSDK.new "devnet")).

Definition sample_market_options : ProofSightSDK.CreateMarketOptions :=
  {| ProofSightSDK.opt_question := "Will it rain tomorrow?";
     ProofSightSDK.opt_outcomes := ["Yes"; "No"];
     ProofSightSDK.opt_resolutionDate := 1767139200000;
     ProofSightSDK.opt_initialLiquidity := NumInt 10000 |}.

(** The market [createMarket] returns for these options when the clock
    reads 1700000000000. *)
Definition sample_market : ProofSightSDK.Market :=
  {| ProofSightSDK.market_id := "market_1700000000000";
     ProofSightSDK.question := "Will it rain tomorrow?";
     ProofSightSDK.outcomes := ["Yes"; "No"];
     ProofSightSDK.currentOdds := [("Yes", NumFrac "0.5"); ("No", NumFrac "0.5")];
     ProofSightSDK.totalLiquidity := NumInt 10000;
     ProofSightSDK.volume24h := NumInt 0;
     ProofSightSDK.resolutionDate := 1767139200000;
     ProofSightSDK.status := ProofSightSDK.active |}.

Definition withdraw_to_alice : ProofSightSDK.WithdrawOptions :=
  {| ProofSightSDK.withdraw_amount := NumInt 1000;
     ProofSightSDK.recipient := "A1iceQ8mZ7rN5kT3vX9pL2wB6yH4cF1dJ8sG5uE7oR3" |}.

Definition withdraw_to_bob : ProofSightSDK.WithdrawOptions :=
  {| ProofSightSDK.withdraw_amount := NumInt 1000;
     ProofSightSDK.recipient := "B0bK4tY9nW2xV6mC8zP3qL7hD5fJ1gS4aU6eR2oT8i" |}.

(** A satisfying witness of the withdrawal circuit at depth 2, for the note
    of amount 1000 and secret 5 at leaf index 1, and the signals it holds. *)
Definition sample_commitment : Z := PairingHash.hash [1000; 5; 1].

Definition sample_withdrawal : Circuits.WithdrawalInputs :=
  {| Circuits.w_root :=
       PairingHash.hash [PairingHash.hash [7; sample_commitment]; 9];
     Circuits.w_nullifierHash := PairingHash.hash [5; sample_commitment];
     Circuits.w_recipient := 424242;
     Circuits.w_secret := 5;
     Circuits.w_amount := 1000;
     Circuits.w_pathElements := [7; 9];
     Circuits.w_pathIndices := [1; 0] |}.

Definition sample_withdrawal_signals : Circuits.WithdrawalSignals :=
  {| Circuits.sig_commitment := sample_commitment;
     Circuits.sig_computedNullifier := PairingHash.hash [5; sample_commitment];
     Circuits.sig_boundNullifier :=
       PairingHash.hash [PairingHash.hash [5; sample_commitment]; 424242] |}.

(** The commitments of the test "should handle consecutive insertions":
    [poseidonHash([i])] for [i] from 0 to 9. *)
Definition test_commitments : list string :=
  map (fun i => hashToHex (ByteHash.hash [Z.of_nat i])) (seq 0 10).


(** A one-level witness and its root, for a leaf next to ["0x2"], and one
    for a leaf whose sibling has the same value. *)
Definition pair_root : string := hashToHex (ByteHash.hash [1; 2]).

End Scenario.

(** ** Further code of the repository: [getMarkets], [getPositions],
    [deposit.circom], and reference functions for the statements about them *)

(** The integer a sequence of bytes denotes, most significant byte first. *)
Module Bytes.

Fixpoint bytes_value (bs : list Byte.byte) (acc : N) : N :=
  match bs with
  | [] => acc
  | b :: bs' => bytes_value bs' (Byte.to_N b + 256 * acc)%N
  end.

End Bytes.

(** [sdk/src/sdk.ts]: the two query methods, and a client's series of
    deposits. *)
Module Client.

Import ProofSightSDK.

(** [GetMarketsOptions] and [GetPositionsOptions]: every field is optional. *)
Record GetMarketsOptions : Type := mkGetMarketsOptions {
  opt_status : option MarketStatus;
  opt_category : option string;
  opt_limit : option JsNumber;
  opt_offset : option JsNumber
}.

Record GetPositionsOptions : Type := mkGetPositionsOptions {
  opt_positions_marketId : option string;
  opt_positions_outcome : option string
}.

Definition getMarkets (options : GetMarketsOptions) : Stateful ProofSightSDK (list Market) :=
  checkInit ;;;
  st_ret [].

Definition getPositions (options : GetPositionsOptions)
  : Stateful ProofSightSDK (list Position) :=
  checkInit ;;;
  st_ret [].

Section Poseidon.

Variable poseidon : list Z -> list Byte.byte.

(** A series of deposits of integral amounts: for each, the amount, the
    random bytes and the clock reading. *)
Fixpoint deposits (earlier : list (Z * list Byte.byte * Z))
  : Stateful ProofSightSDK unit :=
  match earlier with
  | [] => st_ret tt
  | (amount, randomBytes, now) :: rest =>
      deposit poseidon (NumInt amount) randomBytes now ;;; deposits rest
  end.

End Poseidon.

End Client.

(** [deposit.circom] *)
Module Deposit.

Import Circuits.

Section Poseidon.

Variable Poseidon : list Z -> Z.

(** [MerkleTreeChecker] has the text of [MerklePathVerifier]. *)
Definition MerkleTreeChecker (levels : nat) (leaf root : Z)
  (pathElements pathIndices : list Z) : option unit :=
  _ ← guard (length pathElements = levels);
  last ← MerklePathVerifier_loop Poseidon leaf pathElements pathIndices;
  constrain root last.

Record DepositInputs : Type := mkDepositInputs {
  d_deposit_amount : Z;
  d_new_root : Z;
  d_timestamp : Z;
  d_secret : Z;
  d_nullifier_key : Z;
  d_old_root : Z;
  d_pathElements : list Z;
  d_pathIndices : list Z
}.

(** [DepositCircuit]: [Some commitment_out] when every constraint holds. The
    inputs [nullifier_key] and [old_root] occur in no constraint. *)
Definition DepositCircuit (levels : nat) (inputs : DepositInputs) : option Z :=
  let deposit_amount := Fr (d_deposit_amount inputs) in
  let new_root := Fr (d_new_root inputs) in
  let timestamp := Fr (d_timestamp inputs) in
  let secret := Fr (d_secret inputs) in
  let pathElements := map Fr (d_pathElements inputs) in
  let pathIndices := map Fr (d_pathIndices inputs) in
  _ ← Num2Bits 64 deposit_amount;
  let commitment_pre := Poseidon [deposit_amount; secret; indexVal pathIndices] in
  let nullifier := Poseidon [secret; commitment_pre] in
  let commitment := commitment_pre in
  _ ← MerkleTreeChecker levels commitment new_root pathElements pathIndices;
  _ ← Num2Bits 64 timestamp;
  Some commitment.

End Poseidon.

End Deposit.

(** A satisfying witness of the deposit circuit at depth 2, for the note of
    amount 1000 and secret 5 at leaf index 1. *)
Module Samples.

Definition sample_deposit : Deposit.DepositInputs :=
  {| Deposit.d_deposit_amount := 1000;
     Deposit.d_new_root :=
       PairingHash.hash [PairingHash.hash [7; PairingHash.hash [1000; 5; 1]]; 9];
     Deposit.d_timestamp := 1700000000;
     Deposit.d_secret := 5;
     Deposit.d_nullifier_key := 11;
     Deposit.d_old_root := 13;
     Deposit.d_pathElements := [7; 9];
     Deposit.d_pathIndices := [1; 0] |}.

(** A buy-A update that keeps the product of the reserves exactly:
    1,000,000,000 * 1,000,000,000 = 800,000,000 * 1,250,000,000. *)
Definition exact_buy_a : Circuits.PositionUpdateInputs :=
  {| Circuits.market_id := 1;
     Circuits.pool_token_a := 1000000000;
     Circuits.pool_token_b := 1000000000;
     Circuits.new_pool_token_a := 800000000;
     Circuits.new_pool_token_b := 1250000000;
     Circuits.amount_in := 250000000;
     Circuits.is_buy_a := 1;
     Circuits.min_amount_out := 150000000;
     Circuits.user_secret := 7;
     Circuits.position_commitment := 9 |}.

End Samples.

(** Sequences of calls on one tree. *)
Module Session.

Import CryptoUtils MerkleTree Accumulator.

(** A call of a public method of [MerkleTree] whose result is discarded. *)
Inductive TreeCall : Type :=
| CallInsert (index : Z) (commitment : string)
| CallGetRoot
| CallGeneratePath (index : Z).

(** The leaf map after the [insert] calls of a sequence, the later call
    winning at an index written twice. *)
Fixpoint written (calls : list TreeCall) (lv : gmap Z string) : gmap Z string :=
  match calls with
  | [] => lv
  | CallInsert index commitment :: rest => written rest (<[index := commitment]> lv)
  | _ :: rest => written rest lv
  end.

(** What a leaf position holds for [getNode]: a non-empty string, or nothing. *)
Definition stored (lv : gmap Z string) (index : Z) : option string :=
  match lv !! index with
  | Some EmptyString | None => None
  | Some leaf => Some leaf
  end.

(** Every commitment a sequence inserts is one [hashNodes] can convert. *)
Definition well_formed (calls : list TreeCall) : Prop :=
  forall i c, CallInsert i c ∈ calls -> convertible c.

Section Poseidon.

Variable poseidon : list Z -> list Byte.byte.

Definition call (c : TreeCall) : Stateful MerkleTree unit :=
  match c with
  | CallInsert index commitment => insert poseidon index commitment
  | CallGetRoot => let* _ := getRoot poseidon in st_ret tt
  | CallGeneratePath index => let* _ := generatePath poseidon index in st_ret tt
  end.

Fixpoint run (calls : list TreeCall) : Stateful MerkleTree unit :=
  match calls with
  | [] => st_ret tt
  | c :: rest => call c ;;; run rest
  end.

(** The first steps of [ProofSightSDK.deposit] on the tree, for a leaf
    index: the path is generated before the commitment is inserted; then the
    new root is read. *)
Definition deposit_steps (index : Z) (commitment : string)
  : Stateful MerkleTree (MerklePath * string) :=
  let* path := generatePath poseidon index in
  insert poseidon index commitment ;;;
  let* root := getRoot poseidon in
  st_ret (path, root).

End Poseidon.

End Session.

(** * Part II: properties *)

(** * Facts about the JavaScript builtins *)

Module JsFacts.

Lemma append_cons (c : ascii) (s t : string) : String c s +:+ t = String c (s +:+ t).
Proof. reflexivity. Qed.

Lemma append_empty_l (t : string) : "" +:+ t = t.
Proof. reflexivity. Qed.

Lemma length_append (s t : string) :
  String.length (s +:+ t) = (String.length s + String.length t)%nat.
Proof. induction s as [|c s IH]; [reflexivity|]. rewrite append_cons. simpl. lia. Qed.

Lemma length_repeat_char (c : ascii) (n : nat) : String.length (repeat_char c n) = n.
Proof. induction n; simpl; lia. Qed.

Lemma length_padStart (n : nat) (c : ascii) (s : string) :
  (n <= String.length (padStart n c s))%nat.
Proof. unfold padStart. rewrite length_append, length_repeat_char. lia. Qed.

Lemma hex_digit_not_whitespace (c : ascii) (d : N) :
  hex_digit c = Some d -> is_whitespace c = false.
Proof.
  destruct c as [[] [] [] [] [] [] [] []]; vm_compute; congruence.
Qed.

Lemma all_hex_no_whitespace (s : string) : all_hex s = true -> no_whitespace s = true.
Proof.
  induction s as [|c s IH]; simpl; [done|].
  destruct (hex_digit c) eqn:Hc; [|done].
  intros Hs. rewrite (hex_digit_not_whitespace _ _ Hc). simpl. auto.
Qed.

Lemma trimStart_no_whitespace (s : string) : no_whitespace s = true -> trimStart s = s.
Proof.
  destruct s as [|c s]; simpl; [done|].
  destruct (is_whitespace c); simpl; [discriminate|done].
Qed.

Lemma trimEnd_no_whitespace (s : string) : no_whitespace s = true -> trimEnd s = s.
Proof.
  induction s as [|c s IH]; simpl; [done|].
  destruct (is_whitespace c); simpl; [discriminate|].
  intros Hs. rewrite (IH Hs). by destruct s.
Qed.

Lemma trim_no_whitespace (s : string) : no_whitespace s = true -> trim s = s.
Proof.
  intros Hs. unfold trim. rewrite (trimStart_no_whitespace _ Hs).
  by apply trimEnd_no_whitespace.
Qed.

Lemma all_hex_append (s t : string) : all_hex (s +:+ t) = all_hex s && all_hex t.
Proof.
  induction s as [|c s IH]; [reflexivity|].
  rewrite append_cons. simpl. by destruct (hex_digit c).
Qed.

Lemma all_hex_repeat_zero (n : nat) : all_hex (repeat_char "0" n) = true.
Proof. induction n; [reflexivity|]. simpl. exact IHn. Qed.



Lemma digits_value_to_N (s : string) (acc : N) :
  all_hex s = true ->
  digits_value 16 hex_digit s acc = Some (HexString.Raw.to_N s acc).
Proof.
  revert acc. induction s as [|c s IH]; intros acc; simpl; [done|].
  unfold hex_digit. destruct (ascii_to_digit c); [|discriminate].
  intros Hs. by rewrite IH.
Qed.

Lemma to_N_repeat_zero (n : nat) (s : string) :
  HexString.Raw.to_N (repeat_char "0" n +:+ s) 0 = HexString.Raw.to_N s 0.
Proof. induction n; [reflexivity|]. simpl repeat_char. rewrite append_cons. exact IHn. Qed.


Lemma nonempty_digits_cons (radix : N) (digit : ascii -> option N) (s : string) :
  s <> "" -> nonempty_digits radix digit s = Z.of_N <$> digits_value radix digit s 0.
Proof. by destruct s. Qed.

Lemma append_nonempty_r (s t : string) : t <> "" -> s +:+ t <> "".
Proof. destruct s; [done|]. rewrite append_cons. discriminate. Qed.

(** Integers below 2^53 in magnitude are Numbers. *)
Lemma Number_of_small (z : Z) : Z.abs z < 2 ^ 53 -> Number_of z = z.
Proof.
  intros H. unfold Number_of, round_to_double.
  destruct (Z.ltb_spec (Z.abs z) (2 ^ 53)); [|lia]. lia.
Qed.

End JsFacts.

(** * The cache key of a node determines the node *)

Module KeyFacts.

Import JsFacts MerkleTree.

Lemma has_dash_uint (d : Decimal.uint) :
  has_char "-" (NilEmpty.string_of_uint d) = false.
Proof. induction d; simpl; auto. Qed.

Lemma has_dash_nat_toString (n : nat) : has_char "-" (nat_toString n) = false.
Proof.
  unfold nat_toString, NilZero.string_of_uint.
  destruct (Nat.to_uint n) eqn:E; try reflexivity; rewrite <- E; apply has_dash_uint.
Qed.

Lemma split_at_dash (s1 s2 t1 t2 : string) :
  has_char "-" s1 = false -> has_char "-" s2 = false ->
  s1 +:+ String "-" t1 = s2 +:+ String "-" t2 -> s1 = s2 /\ t1 = t2.
Proof.
  revert s2. induction s1 as [|c s1 IH]; intros [|c2 s2]; simpl;
    rewrite ?append_cons, ?append_empty_l.
  - intros _ _ [= ->]. done.
  - intros _ H [= <- _]. simpl in H. discriminate.
  - intros H _ [= -> _]. simpl in H. discriminate.
  - intros H1 H2 [= -> E].
    apply orb_false_iff in H1 as [_ H1]. apply orb_false_iff in H2 as [_ H2].
    destruct (IH s2 H1 H2 E) as [-> ->]. done.
Qed.

Lemma to_uint_nonnil (n : nat) : Nat.to_uint n <> Decimal.Nil.
Proof.
  rewrite <- (DecimalNat.Unsigned.of_to n) at 1.
  rewrite DecimalNat.Unsigned.to_of. apply DecimalFacts.unorm_nonnil.
Qed.

Lemma nat_toString_inj (n m : nat) : nat_toString n = nat_toString m -> n = m.
Proof.
  unfold nat_toString. intros E.
  apply DecimalNat.Unsigned.to_uint_inj.
  assert (Hn := NilZero.usu _ (to_uint_nonnil n)).
  assert (Hm := NilZero.usu _ (to_uint_nonnil m)).
  rewrite E in Hn. congruence.
Qed.

Lemma norm_proper (d : Decimal.int) :
  Decimal.norm d <> Decimal.Pos Decimal.Nil /\ Decimal.norm d <> Decimal.Neg Decimal.Nil.
Proof.
  destruct d as [d|d]; simpl.
  - split; [|discriminate]. intros [= E]. by apply (DecimalFacts.unorm_nonnil d).
  - destruct (Decimal.nzhead d) eqn:E; split; discriminate.
Qed.

Lemma Number_toString_inj (a b : Z) : Number_toString a = Number_toString b -> a = b.
Proof.
  unfold Number_toString. intros E.
  apply DecimalZ.to_int_inj.
  assert (Ha : Z.to_int a = Decimal.norm (Z.to_int a))
    by (rewrite <- DecimalZ.to_of, DecimalZ.of_to; reflexivity).
  assert (Hb : Z.to_int b = Decimal.norm (Z.to_int b))
    by (rewrite <- DecimalZ.to_of, DecimalZ.of_to; reflexivity).
  destruct (norm_proper (Z.to_int a)) as [Ha1 Ha2].
  destruct (norm_proper (Z.to_int b)) as [Hb1 Hb2].
  rewrite <- Ha in Ha1, Ha2. rewrite <- Hb in Hb1, Hb2.
  assert (Ia := NilZero.isi _ Ha1 Ha2). assert (Ib := NilZero.isi _ Hb1 Hb2).
  rewrite E in Ia. congruence.
Qed.

Lemma node_key_inj (l1 l2 : nat) (i1 i2 : Z) :
  node_key l1 i1 = node_key l2 i2 -> l1 = l2 /\ i1 = i2.
Proof.
  unfold node_key. intros E.
  change ("-" +:+ Number_toString i1) with (String "-" (Number_toString i1)) in E.
  change ("-" +:+ Number_toString i2) with (String "-" (Number_toString i2)) in E.
  apply split_at_dash in E as [E1 E2]; try apply has_dash_nat_toString.
  split; [by apply nat_toString_inj|by apply Number_toString_inj].
Qed.

End KeyFacts.

(** * CryptoUtils: the text of a hash and what is read back from it *)

Module CryptoFacts.

Import JsFacts CryptoUtils Accumulator.

Lemma hashToHex_cons (h : list Byte.byte) :
  hashToHex h = String "0" (String "x" (padStart 64 "0" (Uint8Array_toString h))).
Proof. reflexivity. Qed.

Lemma startsWith_0x (s : string) : startsWith (String "0" (String "x" s)) "0x" = true.
Proof. unfold startsWith. simpl. by destruct s. Qed.

Lemma startsWith_hashToHex (h : list Byte.byte) : startsWith (hashToHex h) "0x" = true.
Proof. rewrite hashToHex_cons. apply startsWith_0x. Qed.

(** *** The decimal text of a byte *)

Lemma byte_text_hex (b : Byte.byte) : all_hex (byte_text b) = true.
Proof. destruct b; reflexivity. Qed.

Lemma byte_text_nonempty (b : Byte.byte) : byte_text b <> "".
Proof. destruct b; discriminate. Qed.

Lemma byte_text_value (b : Byte.byte) :
  Z.of_N (HexString.Raw.to_N (byte_text b) 0) = leading_operand [b].
Proof. destruct b; reflexivity. Qed.


Lemma parse_byte_text (b : Byte.byte) (rest : string) :
  parse_bytes (byte_text b +:+ String "," rest) 0 = Byte.to_N b :: parse_bytes rest 0.
Proof. destruct b; reflexivity. Qed.

Lemma parse_byte_text_end (b : Byte.byte) : parse_bytes (byte_text b) 0 = [Byte.to_N b].
Proof. destruct b; reflexivity. Qed.

Lemma leading_operand_bound (h : list Byte.byte) : 0 <= leading_operand h <= 597.
Proof. destruct h as [|b h]; [simpl; lia|]. destruct b; split; by vm_compute. Qed.

(** *** The text of a [Uint8Array] *)

Lemma Uint8Array_toString_cons (b : Byte.byte) (rest : list Byte.byte) :
  Uint8Array_toString (b :: rest)
  = byte_text b +:+ match rest with
                    | [] => ""
                    | _ => String "," (Uint8Array_toString rest)
                    end.
Proof.
  destruct rest as [|b' rest]; cbn [Uint8Array_toString].
  - induction (byte_text b) as [|c s IH]; [reflexivity|].
    rewrite append_cons. by rewrite <- IH.
  - reflexivity.
Qed.

Lemma append_assoc (s t u : string) : (s +:+ t) +:+ u = s +:+ (t +:+ u).
Proof.
  induction s as [|c s IH]; [reflexivity|]. rewrite !append_cons. by rewrite IH.
Qed.



Lemma hashToHex_not_0x0 (h : list Byte.byte) : hashToHex h <> "0x0".
Proof.
  intros E. apply (f_equal String.length) in E.
  rewrite hashToHex_cons in E. simpl in E.
  pose proof (length_padStart 64 "0" (Uint8Array_toString h)). lia.
Qed.

Lemma hashToHex_nonempty (h : list Byte.byte) : hashToHex h <> "".
Proof. discriminate. Qed.

(** *** Reading the bytes back: the text determines the hash *)

Lemma parse_bytes_zeros (n : nat) (s : string) :
  parse_bytes (repeat_char "0" n +:+ s) 0 = parse_bytes s 0.
Proof. induction n as [|n IH]; [reflexivity|]. simpl repeat_char. rewrite append_cons. exact IH. Qed.

Lemma parse_bytes_Uint8Array (b : Byte.byte) (rest : list Byte.byte) :
  parse_bytes (Uint8Array_toString (b :: rest)) 0 = map Byte.to_N (b :: rest).
Proof.
  revert b. induction rest as [|b' rest IH]; intros b.
  - apply parse_byte_text_end.
  - rewrite Uint8Array_toString_cons, parse_byte_text, IH. reflexivity.
Qed.

Lemma byte_to_N_inj (b b' : Byte.byte) : Byte.to_N b = Byte.to_N b' -> b = b'.
Proof.
  intros H. pose proof (Byte.of_to_N b) as E. rewrite H, Byte.of_to_N in E. by injection E.
Qed.

Lemma map_to_N_inj (h h' : list Byte.byte) : map Byte.to_N h = map Byte.to_N h' -> h = h'.
Proof.
  revert h'. induction h as [|b h IH]; intros [|b' h']; try discriminate; [done|].
  intros [= Hb Hh]. by rewrite (byte_to_N_inj b b' Hb), (IH h' Hh).
Qed.

(** Two hashes of a byte or more with the same text are the same hash. *)
Lemma hashToHex_inj (h h' : list Byte.byte) :
  h <> [] -> h' <> [] -> hashToHex h = hashToHex h' -> h = h'.
Proof.
  intros Hh Hh' E. rewrite !hashToHex_cons in E. injection E as E.
  apply (f_equal (fun s => parse_bytes s 0%N)) in E. unfold padStart in E.
  rewrite !parse_bytes_zeros in E.
  destruct h as [|b h]; [done|]. destruct h' as [|b' h']; [done|].
  rewrite !parse_bytes_Uint8Array in E. by apply map_to_N_inj.
Qed.

(** *** What [BigInt] and [parseInt] make of the text *)

Lemma digits_value_comma (s rest : string) (acc : N) :
  all_hex s = true ->
  digits_value 16 hex_digit (s +:+ String "," rest) acc = None.
Proof.
  revert acc. induction s as [|c s IH]; intros acc; [reflexivity|].
  rewrite append_cons. cbn [all_hex digits_value].
  destruct (hex_digit c); [apply IH|discriminate].
Qed.

Lemma hex_prefix_value_stop (s tail : string) (acc : N) :
  all_hex s = true -> s <> "" ->
  tail = "" \/ (exists rest, tail = String "," rest) ->
  hex_prefix_value (s +:+ tail) acc false = Some (HexString.Raw.to_N s acc).
Proof.
  intros Hs Hne Htail.
  assert (Hgen : forall seen acc,
             all_hex s = true -> (seen = true \/ s <> "") ->
             hex_prefix_value (s +:+ tail) acc seen = Some (HexString.Raw.to_N s acc)).
  { clear Hs Hne acc. induction s as [|c s IH]; intros seen acc Hs Hseen.
    - destruct Hseen as [->|]; [|done]. rewrite append_empty_l.
      by destruct Htail as [->|[rest ->]].
    - rewrite append_cons. cbn [all_hex hex_prefix_value HexString.Raw.to_N] in *.
      unfold hex_digit in *. destruct (ascii_to_digit c) as [d|]; [|discriminate].
      rewrite IH; [done|done|by left]. }
  apply Hgen; [done|by right].
Qed.

Lemma all_hex_padded_byte (n : nat) (b : Byte.byte) :
  all_hex (repeat_char "0" n +:+ byte_text b) = true.
Proof. by rewrite all_hex_append, all_hex_repeat_zero, byte_text_hex. Qed.

Lemma padded_text (h : list Byte.byte) (b : Byte.byte) (rest : list Byte.byte) :
  h = b :: rest ->
  exists n tail,
    padStart 64 "0" (Uint8Array_toString h) = (repeat_char "0" n +:+ byte_text b) +:+ tail
    /\ (rest = [] -> tail = "")
    /\ (rest <> [] -> exists r, tail = String "," r).
Proof.
  intros ->. unfold padStart. rewrite Uint8Array_toString_cons.
  eexists _, _. split; [by rewrite append_assoc|].
  split; [by intros ->|]. intros H. destruct rest; [done|by eexists].
Qed.

Lemma no_whitespace_hex_comma (s tail : string) :
  all_hex s = true -> no_whitespace tail = true -> no_whitespace (s +:+ tail) = true.
Proof.
  intros Hs Ht. induction s as [|c s IH]; [done|].
  rewrite append_cons. cbn [all_hex no_whitespace] in *.
  destruct (hex_digit c) eqn:Ec; [|discriminate].
  rewrite (hex_digit_not_whitespace _ _ Ec). simpl. by apply IH.
Qed.

Lemma no_whitespace_Uint8Array (h : list Byte.byte) :
  no_whitespace (Uint8Array_toString h) = true.
Proof.
  induction h as [|b rest IH]; [reflexivity|].
  rewrite Uint8Array_toString_cons. apply no_whitespace_hex_comma; [apply byte_text_hex|].
  destruct rest; [reflexivity|]. cbn [no_whitespace]. by rewrite IH.
Qed.

Lemma no_whitespace_hashToHex (h : list Byte.byte) : no_whitespace (hashToHex h) = true.
Proof.
  rewrite hashToHex_cons. cbn [no_whitespace]. simpl. unfold padStart.
  apply no_whitespace_hex_comma; [apply all_hex_repeat_zero|apply no_whitespace_Uint8Array].
Qed.

(** [BigInt] rejects the text of a hash of two bytes or more. *)
Lemma BigInt_of_string_hashToHex (h : list Byte.byte) :
  (2 <= length h)%nat ->
  BigInt_of_string (hashToHex h)
  = Throw (SyntaxError ("Cannot convert " +:+ hashToHex h +:+ " to a BigInt")).
Proof.
  intros Hlen. destruct h as [|b [|b' rest]]; [simpl in Hlen; lia..|]. clear Hlen.
  unfold BigInt_of_string.
  assert (E : StringToBigInt (hashToHex (b :: b' :: rest)) = None); [|by rewrite E].
  unfold StringToBigInt. rewrite trim_no_whitespace by apply no_whitespace_hashToHex.
  rewrite hashToHex_cons.
  destruct (padded_text (b :: b' :: rest) b (b' :: rest) eq_refl) as (n & tail & -> & _ & Ht).
  destruct (Ht ltac:(done)) as [r ->].
  rewrite nonempty_digits_cons by (apply append_nonempty_r; discriminate).
  rewrite digits_value_comma by apply all_hex_padded_byte. reflexivity.
Qed.

Lemma round_to_double_small (v : Z) : v < 2 ^ 53 -> round_to_double v = NumInt v.
Proof. intros H. unfold round_to_double. by destruct (Z.ltb_spec v (2 ^ 53)); [|lia]. Qed.

(** [parseInt(text, 16)] on the text of a hash reads its first byte. *)
Lemma parseInt16_hashToHex (b : Byte.byte) (rest : list Byte.byte) :
  parseInt16 (hashToHex (b :: rest)) = NumInt (leading_operand [b]).
Proof.
  rewrite hashToHex_cons. unfold parseInt16.
  change (trimStart (String "0" (String "x" ?s))) with (String "0" (String "x" s)).
  cbv beta iota zeta.
  destruct (padded_text (b :: rest) b rest eq_refl) as (n & tail & -> & Ht1 & Ht2).
  rewrite hex_prefix_value_stop.
  - rewrite to_N_repeat_zero, byte_text_value.
    apply round_to_double_small. pose proof (leading_operand_bound [b]). lia.
  - apply all_hex_padded_byte.
  - apply append_nonempty_r, byte_text_nonempty.
  - destruct rest; [left; by apply Ht1|right; by apply Ht2].
Qed.

(** A non-empty string of hexadecimal digits behind [0x] is a BigInt literal. *)
Lemma BigInt_of_prefixed_hex (s : string) :
  s <> "" -> all_hex s = true ->
  BigInt_of_string (String "0" (String "x" s)) = Return (Z.of_N (HexString.Raw.to_N s 0)).
Proof.
  intros Hne Hhex. unfold BigInt_of_string, StringToBigInt.
  rewrite trim_no_whitespace by (simpl; by apply all_hex_no_whitespace).
  rewrite nonempty_digits_cons by done.
  by rewrite digits_value_to_N.
Qed.

(** What [poseidonHash] reads from the text of a hash when it is given as an
    input: [BigInt] throws on the first comma, and [parseInt] stops there. *)
Lemma toBigInt_hashToHex (h : list Byte.byte) :
  toBigInt (InString (hashToHex h)) = Return (leading_operand h).
Proof.
  unfold toBigInt. rewrite startsWith_hashToHex.
  destruct h as [|b [|b' rest]].
  - reflexivity.
  - rewrite hashToHex_cons. unfold padStart. cbn [Uint8Array_toString].
    rewrite BigInt_of_prefixed_hex.
    + by rewrite to_N_repeat_zero, byte_text_value.
    + apply append_nonempty_r, byte_text_nonempty.
    + apply all_hex_padded_byte.
  - rewrite BigInt_of_string_hashToHex by (simpl; lia).
    rewrite parseInt16_hashToHex. reflexivity.
Qed.

Lemma trimEnd_cons (c : ascii) (s : string) :
  is_whitespace c = false -> trimEnd (String c s) = String c (trimEnd s).
Proof. intros Hc. simpl. rewrite Hc. by destruct (trimEnd s). Qed.

(** A string that begins with the letter m is no BigInt literal, with or
    without a [0x] in front. *)
Lemma toBigInt_letter_m (rest : string) :
  toBigInt (InString (String "m" rest))
  = Throw (SyntaxError ("Cannot convert " +:+ String "m" rest +:+ " to a BigInt")).
Proof.
  unfold toBigInt.
  replace (startsWith (String "m" rest) "0x") with false by reflexivity.
  change ("0x" +:+ String "m" rest) with (String "0" (String "x" (String "m" rest))).
  unfold BigInt_of_string, StringToBigInt, trim.
  change (trimStart (String "0" (String "x" (String "m" rest))))
    with (String "0" (String "x" (String "m" rest))).
  change (trimStart (String "m" rest)) with (String "m" rest).
  rewrite !trimEnd_cons by reflexivity.
  reflexivity.
Qed.

Section Poseidon.

Variable poseidon : list Z -> list Byte.byte.

Lemma poseidonHash_tuple (inputs : list HashInput) :
  poseidonHash poseidon inputs
  = try* t := mapM toBigInt inputs in Return (hashToHex (poseidon t)).
Proof. reflexivity. Qed.

Lemma poseidonHash_returns (inputs : list HashInput) (t : list Z) :
  mapM toBigInt inputs = Return t ->
  poseidonHash poseidon inputs = Return (hashToHex (poseidon t)).
Proof. intros E. unfold poseidonHash. by rewrite E. Qed.

Lemma poseidonHash_inv (inputs : list HashInput) (s : string) :
  poseidonHash poseidon inputs = Return s ->
  exists t, mapM toBigInt inputs = Return t /\ s = hashToHex (poseidon t).
Proof.
  unfold poseidonHash. destruct (mapM toBigInt inputs) as [t|e]; simpl; [|discriminate].
  intros [= <-]. eauto.
Qed.

Lemma mapM_pair (x y : HashInput) (a b : Z) :
  toBigInt x = Return a -> toBigInt y = Return b ->
  mapM toBigInt [x; y] = Return [a; b].
Proof. intros Hx Hy. simpl. rewrite Hx. simpl. rewrite Hy. reflexivity. Qed.

Lemma mapM_triple (x y z : HashInput) (a b c : Z) :
  toBigInt x = Return a -> toBigInt y = Return b -> toBigInt z = Return c ->
  mapM toBigInt [x; y; z] = Return [a; b; c].
Proof.
  intros Hx Hy Hz. simpl. rewrite Hx. simpl. rewrite Hy. simpl. rewrite Hz. reflexivity.
Qed.

Lemma mapM_length {A B} (f : A -> Completion B) (l : list A) (t : list B) :
  mapM f l = Return t -> length t = length l.
Proof.
  revert t. induction l as [|x l IH]; intros t; simpl.
  - by intros [= <-].
  - destruct (f x); simpl; [|discriminate].
    destruct (mapM f l) as [ys|]; simpl; [|discriminate].
    intros [= <-]. simpl. f_equal. by apply IH.
Qed.

End Poseidon.

End CryptoFacts.

(** * Sequencing *)

Module StatefulFacts.

Lemma st_bind_return {S A B} (m : Stateful S A) (k : A -> Stateful S B) (s s' : S) (a : A) :
  m s = (Return a, s') -> st_bind m k s = k a s'.
Proof. intros E. unfold st_bind. by rewrite E. Qed.

Lemma st_bind_throw {S A B} (m : Stateful S A) (k : A -> Stateful S B) (s s' : S)
  (e : JsError) :
  m s = (Throw e, s') -> st_bind m k s = (Throw e, s').
Proof. intros E. unfold st_bind. by rewrite E. Qed.

Lemma st_bind_get {S B} (k : S -> Stateful S B) (s : S) : st_bind st_get k s = k s s.
Proof. reflexivity. Qed.

Lemma st_bind_lift {S A B} (c : Completion A) (k : A -> Stateful S B) (s : S) (a : A) :
  c = Return a -> st_bind (st_lift c) k s = k a s.
Proof. intros ->. reflexivity. Qed.

End StatefulFacts.

(** * MerkleTree: the methods compute the tree's denotation *)

Module MerkleFacts.

Import JsFacts StatefulFacts CryptoUtils CryptoFacts MerkleTree Accumulator KeyFacts.

Section Poseidon.

Variable poseidon : list Z -> list Byte.byte.

Local Abbreviation zero := (zero_value poseidon).
Local Abbreviation node_hash := (node_hash poseidon).
Local Abbreviation node_str := (node_str poseidon).
Local Abbreviation hashNodes := (hashNodes poseidon).
Local Abbreviation getNode := (getNode poseidon).

Lemma hashNodes_operands (l r : string) :
  hashNodes l r
  = try* a := operand_value l in try* b := operand_value r in
    Return (hashToHex (poseidon [a; b])).
Proof.
  unfold MerkleTree.hashNodes, poseidonHash, operand_value. cbn [mapM].
  destruct (toBigInt (InString (if startsWith l "0x" then l else "0x" +:+ l)));
    [|reflexivity].
  cbn [Js.bind].
  destruct (toBigInt (InString (if startsWith r "0x" then r else "0x" +:+ r)));
    reflexivity.
Qed.

Lemma operand_value_hashToHex (h : list Byte.byte) :
  operand_value (hashToHex h) = Return (leading_operand h).
Proof.
  unfold operand_value. rewrite startsWith_hashToHex. apply toBigInt_hashToHex.
Qed.

(** [hashNodes] on two hash texts hashes what it reads from them. *)
Lemma hashNodes_hex (a b : list Byte.byte) :
  hashNodes (hashToHex a) (hashToHex b)
  = Return (hashToHex (poseidon [leading_operand a; leading_operand b])).
Proof. rewrite hashNodes_operands, !operand_value_hashToHex. reflexivity. Qed.

Lemma hashNodes_values (l r : string) (a b : Z) :
  operand_value l = Return a -> operand_value r = Return b ->
  hashNodes l r = Return (hashToHex (poseidon [a; b])).
Proof. intros Ea Eb. rewrite hashNodes_operands, Ea, Eb. reflexivity. Qed.

Lemma convertible_hashToHex (h : list Byte.byte) : convertible (hashToHex h).
Proof. exists (leading_operand h). apply operand_value_hashToHex. Qed.

Lemma convertible_zero : convertible zero.
Proof. apply convertible_hashToHex. Qed.

(** A hash output is a non-empty, convertible string. *)
Lemma hash_output_convertible (s : string) :
  hash_output poseidon s -> s <> "" /\ convertible s.
Proof.
  intros [inputs H]. apply poseidonHash_inv in H as (t & _ & ->).
  split; [apply hashToHex_nonempty|apply convertible_hashToHex].
Qed.

(** *** The denotation is defined on well-formed leaves *)

Lemma leaf_select (lv : gmap Z string) (z : string) (i : Z) :
  leaves_wf lv -> convertible z ->
  convertible (match lv !! i with
               | Some EmptyString | None => z
               | Some leaf => leaf
               end).
Proof.
  intros Hlv Hz. destruct (lv !! i) as [c|] eqn:E; [|done].
  destruct c; [done|]. by apply (Hlv i).
Qed.

Lemma node_hash_wf (lv : gmap Z string) (level : nat) (i : Z) :
  leaves_wf lv -> exists s, node_hash lv zero level i = Return s /\ convertible s.
Proof.
  intros Hlv. revert i. induction level as [|level IH]; intros i.
  - eexists. split; [reflexivity|]. by apply leaf_select, convertible_zero.
  - destruct (IH (left_child i)) as (a & Ea & va & Ha).
    destruct (IH (right_child i)) as (b & Eb & vb & Hb).
    exists (hashToHex (poseidon [va; vb])). split.
    + simpl. rewrite Ea, Eb. simpl. by apply hashNodes_values.
    + apply convertible_hashToHex.
Qed.

Lemma node_hash_str (lv : gmap Z string) (level : nat) (i : Z) :
  leaves_wf lv -> node_hash lv zero level i = Return (node_str lv zero level i).
Proof.
  intros Hlv. unfold Accumulator.node_str.
  destruct (node_hash_wf lv level i Hlv) as (s & -> & _). reflexivity.
Qed.

Lemma node_str_children (lv : gmap Z string) (level : nat) (i : Z) :
  leaves_wf lv ->
  hashNodes (node_str lv zero level (left_child i)) (node_str lv zero level (right_child i))
  = Return (node_str lv zero (S level) i).
Proof.
  intros Hlv. rewrite <- (node_hash_str lv (S level) i Hlv). simpl.
  rewrite !node_hash_str by done. reflexivity.
Qed.

Lemma node_str_leaf (lv : gmap Z string) (i : Z) (c : string) :
  lv !! i = Some c -> c <> "" -> node_str lv zero 0 i = c.
Proof.
  intros E Hc. unfold Accumulator.node_str. simpl. rewrite E. by destruct c.
Qed.

(** Every node of a level of the empty tree has the hash [zero_node] of that
    level. *)
Lemma node_hash_empty (level : nat) (i : Z) :
  node_hash ∅ zero level i = Return (hashToHex (zero_node poseidon level)).
Proof.
  revert i. induction level as [|level IH]; intros i; simpl.
  - rewrite lookup_empty. reflexivity.
  - rewrite !IH. simpl. apply hashNodes_hex.
Qed.

(** *** [initializeZeroValue] *)

Lemma initializeZeroValue_ready (t : MerkleTree) :
  zeroValue t = zero -> initializeZeroValue poseidon t = (Return tt, t).
Proof.
  intros E. unfold initializeZeroValue. rewrite E.
  destruct (String.eqb_spec zero "0x0") as [H|_]; [|reflexivity].
  by apply hashToHex_not_0x0 in H.
Qed.

Lemma initializeZeroValue_fresh (t : MerkleTree) :
  zeroValue t = "0x0" ->
  initializeZeroValue poseidon t = (Return tt, set_zeroValue zero t).
Proof. intros E. unfold initializeZeroValue. rewrite E. reflexivity. Qed.

Lemma initializeZeroValue_returns (t : MerkleTree) :
  exists t', initializeZeroValue poseidon t = (Return tt, t')
             /\ leaves t' = leaves t /\ nodes t' = nodes t /\ levels t' = levels t.
Proof.
  unfold initializeZeroValue. destruct (String.eqb _ _); simpl; eauto.
Qed.

Lemma initializeZeroValue_inv (t : MerkleTree) :
  tree_inv poseidon t ->
  exists t', initializeZeroValue poseidon t = (Return tt, t')
             /\ zeroValue t' = zero /\ cache_consistent poseidon t'
             /\ leaves t' = leaves t /\ nodes t' = nodes t /\ levels t' = levels t.
Proof.
  intros ([E|E] & Hc & _).
  - rewrite (initializeZeroValue_fresh _ E). eexists. split; [reflexivity|]. done.
  - rewrite (initializeZeroValue_ready _ E). eexists. split; [reflexivity|]. done.
Qed.

(** *** [getNode] *)

Lemma getNode_unfold (level : nat) (index : Z) :
  getNode level index =
  (initializeZeroValue poseidon ;;;
   let key := node_key level index in
   let* t := st_get in
   match nodes t !! key with
   | Some cached => st_ret cached
   | None =>
       match level with
       | O =>
           let leaf := leaf_or_zero t index in
           set_node key leaf ;;;
           st_ret leaf
       | S below =>
           let* left_ := getNode below (left_child index) in
           let* right_ := getNode below (right_child index) in
           let* hash := st_lift (hashNodes left_ right_) in
           set_node key hash ;;;
           st_ret hash
       end
   end).
Proof. destruct level; reflexivity. Qed.

Lemma cache_consistent_set (t : MerkleTree) (level : nat) (index : Z) (v : string) :
  cache_consistent poseidon t ->
  node_hash (leaves t) zero level index = Return v ->
  cache_consistent poseidon (snd (set_node (node_key level index) v t)).
Proof.
  intros Hc Hv l i w. simpl.
  destruct (decide (node_key level index = node_key l i)) as [E|N].
  - rewrite E, lookup_insert_eq. intros [= <-].
    apply node_key_inj in E as [<- <-]. exact Hv.
  - rewrite lookup_insert_ne by done. apply Hc.
Qed.

Lemma getNode_spec (level : nat) (index : Z) (t : MerkleTree) (v : string) :
  zeroValue t = zero -> cache_consistent poseidon t ->
  node_hash (leaves t) zero level index = Return v ->
  exists t', getNode level index t = (Return v, t')
             /\ zeroValue t' = zero /\ cache_consistent poseidon t'
             /\ leaves t' = leaves t /\ levels t' = levels t.
Proof.
  revert index t v. induction level as [|level IH]; intros index t v Hz Hc Hv.
  - rewrite getNode_unfold.
    rewrite (st_bind_return _ _ _ _ _ (initializeZeroValue_ready _ Hz)), st_bind_get.
    cbv zeta.
    destruct (nodes t !! node_key 0 index) as [cached|] eqn:Ek.
    + apply Hc in Ek. rewrite Hv in Ek. injection Ek as <-.
      exists t. done.
    + assert (Hleaf : leaf_or_zero t index = v).
      { simpl in Hv. unfold leaf_or_zero. rewrite Hz. congruence. }
      rewrite Hleaf. eexists. split; [reflexivity|].
      split; [exact Hz|]. split; [|done].
      by apply (cache_consistent_set t 0 index v).
  - rewrite getNode_unfold.
    rewrite (st_bind_return _ _ _ _ _ (initializeZeroValue_ready _ Hz)), st_bind_get.
    cbv zeta.
    destruct (nodes t !! node_key (S level) index) as [cached|] eqn:Ek.
    + apply Hc in Ek. rewrite Hv in Ek. injection Ek as <-.
      exists t. done.
    + simpl in Hv.
      destruct (Accumulator.node_hash poseidon (leaves t) zero level (left_child index))
        as [a|] eqn:Ea; [|discriminate].
      destruct (Accumulator.node_hash poseidon (leaves t) zero level (right_child index))
        as [b|] eqn:Eb; [|discriminate].
      simpl in Hv.
      destruct (IH _ t a Hz Hc Ea) as (t1 & R1 & Hz1 & Hc1 & Hl1 & Hn1).
      rewrite <- Hl1 in Eb.
      destruct (IH _ t1 b Hz1 Hc1 Eb) as (t2 & R2 & Hz2 & Hc2 & Hl2 & Hn2).
      rewrite (st_bind_return _ _ _ _ _ R1), (st_bind_return _ _ _ _ _ R2).
      rewrite (st_bind_lift _ _ _ _ Hv).
      eexists. split; [reflexivity|].
      split; [exact Hz2|]. split; [|split; simpl; congruence].
      apply (cache_consistent_set t2 (S level) index v Hc2).
      rewrite Hl1 in Eb. rewrite Hl2, Hl1. simpl. rewrite Ea, Eb. exact Hv.
Qed.

(** *** The public methods *)

Lemma getNode_inv (level : nat) (index : Z) (t : MerkleTree) :
  zeroValue t = zero -> cache_consistent poseidon t -> leaves_wf (leaves t) ->
  exists t', getNode level index t = (Return (node_str (leaves t) zero level index), t')
             /\ zeroValue t' = zero /\ cache_consistent poseidon t'
             /\ leaves t' = leaves t /\ levels t' = levels t.
Proof.
  intros Hz Hc Hlv. apply getNode_spec; try done. by apply node_hash_str.
Qed.

Lemma getRoot_spec (t : MerkleTree) :
  tree_inv poseidon t ->
  exists t', getRoot poseidon t = (Return (node_str (leaves t) zero (levels t) 0), t')
             /\ tree_inv poseidon t' /\ leaves t' = leaves t /\ levels t' = levels t.
Proof.
  intros Hinv. pose proof Hinv as (_ & _ & Hlv).
  destruct (initializeZeroValue_inv t Hinv) as (t0 & R0 & Hz0 & Hc0 & Hl0 & _ & Hn0).
  unfold getRoot. rewrite (st_bind_return _ _ _ _ _ R0), st_bind_get.
  rewrite <- Hl0 in Hlv.
  destruct (getNode_inv (levels t0) 0 t0 Hz0 Hc0 Hlv) as (t1 & R1 & Hz1 & Hc1 & Hl1 & Hn1).
  exists t1. rewrite R1, Hl0, Hn0. split; [done|].
  split; [|split; congruence].
  split; [by right|]. split; [done|]. by rewrite Hl1.
Qed.

Lemma generatePath_loop_spec (n level : nat) (index : Z) (acc : MerklePath)
  (t : MerkleTree) :
  zeroValue t = zero -> cache_consistent poseidon t -> leaves_wf (leaves t) ->
  exists t',
    generatePath_loop poseidon n level index acc t
    = (Return {| pathElements :=
                   pathElements acc ++ path_elems poseidon (leaves t) zero n level index;
                 pathIndices := pathIndices acc ++ path_dirs n index |}, t')
    /\ zeroValue t' = zero /\ cache_consistent poseidon t'
    /\ leaves t' = leaves t /\ levels t' = levels t.
Proof.
  revert level index acc t.
  induction n as [|n IH]; intros level index acc t Hz Hc Hlv.
  - exists t. simpl. rewrite !app_nil_r. by destruct acc.
  - simpl generatePath_loop.
    destruct (getNode_inv level (sibling_index index) t Hz Hc Hlv)
      as (t1 & R1 & Hz1 & Hc1 & Hl1 & Hn1).
    fold (sibling_index index). rewrite (st_bind_return _ _ _ _ _ R1).
    rewrite <- Hl1 in Hlv.
    destruct (IH (S level) (index / 2)
                {| pathElements := pathElements acc
                                   ++ [node_str (leaves t) zero level (sibling_index index)];
                   pathIndices := pathIndices acc ++ [Z.rem index 2] |} t1 Hz1 Hc1 Hlv)
      as (t2 & R2 & Hz2 & Hc2 & Hl2 & Hn2).
    exists t2. rewrite R2. simpl. rewrite Hl1, <- !app_assoc. simpl.
    split; [done|]. split; [done|]. split; [done|]. split; congruence.
Qed.

Lemma generatePath_spec (index : Z) (t : MerkleTree) :
  tree_inv poseidon t ->
  exists t',
    generatePath poseidon index t
    = (Return {| pathElements := path_elems poseidon (leaves t) zero (levels t) 0 index;
                 pathIndices := path_dirs (levels t) index |}, t')
    /\ tree_inv poseidon t' /\ leaves t' = leaves t /\ levels t' = levels t.
Proof.
  intros Hinv. pose proof Hinv as (_ & _ & Hlv).
  destruct (initializeZeroValue_inv t Hinv) as (t0 & R0 & Hz0 & Hc0 & Hl0 & _ & Hn0).
  unfold generatePath. rewrite (st_bind_return _ _ _ _ _ R0), st_bind_get.
  rewrite <- Hl0 in Hlv.
  destruct (generatePath_loop_spec (levels t0) 0 index
              {| pathElements := []; pathIndices := [] |} t0 Hz0 Hc0 Hlv)
    as (t1 & R1 & Hz1 & Hc1 & Hl1 & Hn1).
  exists t1. rewrite R1, Hl0, Hn0. simpl. split; [done|].
  split; [|split; congruence].
  split; [by right|]. split; [done|]. by rewrite Hl1.
Qed.

Lemma insert_spec (index : Z) (c : string) (t : MerkleTree) :
  tree_inv poseidon t -> convertible c ->
  exists t', insert poseidon index c t = (Return tt, t')
             /\ tree_inv poseidon t'
             /\ leaves t' = <[index := c]> (leaves t) /\ levels t' = levels t.
Proof.
  intros Hinv Hc. pose proof Hinv as (_ & _ & Hlv).
  destruct (initializeZeroValue_inv t Hinv) as (t0 & R0 & Hz0 & Hc0 & Hl0 & _ & Hn0).
  unfold insert. rewrite (st_bind_return _ _ _ _ _ R0).
  eexists. split; [reflexivity|]. simpl. rewrite Hl0, Hn0.
  split; [|done]. split; [by right|]. split.
  - intros l i v. simpl. by rewrite lookup_empty.
  - intros i c'. simpl. rewrite lookup_insert. case_decide.
    + by intros [= <-].
    + apply Hlv.
Qed.

Lemma verifyPath_result (leaf : string) (elems : list string) (dirs : list Z)
  (root : string) (t : MerkleTree) :
  fst (verifyPath poseidon leaf elems dirs root t)
  = try* currentHash := verifyPath_loop poseidon elems 0 dirs leaf in
    Return (String.eqb (toLowerCase currentHash) (toLowerCase root)).
Proof.
  destruct (initializeZeroValue_returns t) as (t0 & R0 & _).
  unfold verifyPath. rewrite (st_bind_return _ _ _ _ _ R0).
  unfold st_bind, st_lift. by destruct (verifyPath_loop _ _ _ _ _).
Qed.

(** *** Climbing from a node along its own path reaches its ancestors *)

Lemma rem_2_cases (index : Z) : 0 <= index -> Z.rem index 2 = 0 \/ Z.rem index 2 = 1.
Proof. intros H. rewrite Z.rem_mod_nonneg by lia. Z.div_mod_to_equations. lia. Qed.

(** Below 2^53 the index arithmetic of [getNode] and [generatePath] is exact. *)
Lemma left_child_exact (index : Z) :
  0 <= index -> index * 2 < 2 ^ 53 -> left_child index = index * 2.
Proof. intros H0 H. unfold left_child. apply Number_of_small. lia. Qed.

Lemma right_child_exact (index : Z) :
  0 <= index -> index * 2 + 1 < 2 ^ 53 -> right_child index = index * 2 + 1.
Proof.
  intros H0 H. unfold right_child. rewrite (Number_of_small (index * 2)) by lia.
  apply Number_of_small. lia.
Qed.

Lemma sibling_index_exact (index : Z) :
  0 <= index < 2 ^ 53 ->
  sibling_index index = if Z.rem index 2 =? 0 then index + 1 else index - 1.
Proof.
  intros H. unfold sibling_index.
  destruct (Z.eqb_spec (Z.rem index 2) 0) as [E|E]; apply Number_of_small.
  - rewrite Z.rem_mod_nonneg in E by lia.
    assert (2 ^ 53 mod 2 = 0) by reflexivity. Z.div_mod_to_equations. lia.
  - lia.
Qed.

Lemma climb_path (lv : gmap Z string) (n level : nat) (index : Z) (pre : list Z) :
  leaves_wf lv -> 0 <= index < 2 ^ 53 ->
  verifyPath_loop poseidon (path_elems poseidon lv zero n level index) (length pre)
    (pre ++ path_dirs n index) (node_str lv zero level index)
  = Return (node_str lv zero (level + n) (index / 2 ^ Z.of_nat n)).
Proof.
  intros Hlv. revert level index pre.
  induction n as [|n IH]; intros level index pre Hidx.
  - simpl. rewrite Z.div_1_r, Nat.add_0_r. reflexivity.
  - simpl path_elems. simpl path_dirs. simpl verifyPath_loop.
    rewrite list_lookup_middle by done.
    set (isRight := match Some (Z.rem index 2) with Some 1 => true | _ => false end).
    assert (Hparent : (if isRight
                       then hashNodes (node_str lv zero level (sibling_index index))
                                      (node_str lv zero level index)
                       else hashNodes (node_str lv zero level index)
                                      (node_str lv zero level (sibling_index index)))
                      = Return (node_str lv zero (S level) (index / 2))).
    { rewrite <- (node_str_children lv level (index / 2) Hlv).
      rewrite sibling_index_exact by done.
      rewrite left_child_exact, right_child_exact by (Z.div_mod_to_equations; lia).
      unfold isRight.
      destruct (rem_2_cases index (proj1 Hidx)) as [E|E]; rewrite E; simpl;
        rewrite Z.rem_mod_nonneg in E by lia.
      - replace (index / 2 * 2) with index by (Z.div_mod_to_equations; lia).
        reflexivity.
      - replace (index / 2 * 2 + 1) with index by (Z.div_mod_to_equations; lia).
        replace (index / 2 * 2) with (index - 1) by (Z.div_mod_to_equations; lia).
        reflexivity. }
    rewrite Hparent. simpl Js.bind.
    replace (pre ++ Z.rem index 2 :: path_dirs n (index / 2))
      with ((pre ++ [Z.rem index 2]) ++ path_dirs n (index / 2))
      by (rewrite <- app_assoc; reflexivity).
    replace (S (length pre)) with (length (pre ++ [Z.rem index 2]))
      by (rewrite length_app; simpl; lia).
    rewrite IH by (Z.div_mod_to_equations; lia).
    replace (S level + n)%nat with (level + S n)%nat by lia.
    rewrite Z.div_div by lia.
    replace (2 * 2 ^ Z.of_nat n) with (2 ^ Z.of_nat (S n))
      by (rewrite Nat2Z.inj_succ, Z.pow_succ_r; lia).
    reflexivity.
Qed.

(** *** Empty root and round trip *)


Lemma tree_inv_new (depth : nat) : tree_inv poseidon (MerkleTree.new depth).
Proof.
  split; [by left|]. split.
  - intros l i v. simpl. by rewrite lookup_empty.
  - intros i c. simpl. by rewrite lookup_empty.
Qed.

Lemma getRoot_new (depth : nat) :
  fst (getRoot poseidon (MerkleTree.new depth))
  = Return (hashToHex (zero_node poseidon depth)).
Proof.
  destruct (getRoot_spec _ (tree_inv_new depth))
    as (t' & R & _).
  rewrite R. simpl. f_equal. unfold node_str.
  by rewrite node_hash_empty.
Qed.

Lemma insert_all_spec (cs : list string) (start : Z) (t : MerkleTree) :
  tree_inv poseidon t -> Forall convertible cs ->
  exists t', insert_all poseidon cs start t = (Return tt, t')
             /\ tree_inv poseidon t' /\ levels t' = levels t
             /\ (forall j, j < start -> leaves t' !! j = leaves t !! j)
             /\ (forall k c, cs !! k = Some c -> leaves t' !! (start + Z.of_nat k) = Some c).
Proof.
  revert start t. induction cs as [|c cs IH]; intros start t Hinv Hcs.
  - exists t. simpl. split; [done|]. split; [done|]. split; [done|]. split; [done|].
    intros k c. by rewrite lookup_nil.
  - apply Forall_cons in Hcs as [Hc Hcs].
    destruct (insert_spec start c t Hinv Hc)
      as (t1 & R1 & Hinv1 & Hl1 & Hn1).
    destruct (IH (start + 1) t1 Hinv1 Hcs) as (t2 & R2 & Hinv2 & Hn2 & Hlow & Hhigh).
    exists t2. simpl insert_all. rewrite (st_bind_return _ _ _ _ _ R1), R2.
    split; [done|]. split; [done|]. split; [congruence|]. split.
    + intros j Hj. rewrite Hlow by lia. rewrite Hl1. by rewrite lookup_insert_ne by lia.
    + intros [|k] c'; simpl.
      * intros [= <-]. rewrite Z.add_0_r, Hlow by lia. rewrite Hl1.
        by rewrite lookup_insert_eq.
      * intros Hk. replace (start + Z.of_nat (S k)) with (start + 1 + Z.of_nat k) by lia.
        by apply Hhigh.
Qed.

(** The round trip for any depth up to 53 and any number of consecutive
    insertions that fit in the tree. *)
Lemma round_trip_general (depth : nat) (cs : list string) (i : nat) (c : string) :
  (depth <= 53)%nat ->
  Forall convertible cs -> cs !! i = Some c -> c <> "" ->
  Z.of_nat (length cs) <= 2 ^ Z.of_nat depth ->
  fst (round_trip poseidon cs (Z.of_nat i) c (MerkleTree.new depth)) = Return true.
Proof.
  intros Hdepth Hcs Hi Hc0 Hfit.
  assert (Hpow : 2 ^ Z.of_nat depth <= 2 ^ 53) by (apply Z.pow_le_mono_r; lia).
  pose proof (lookup_lt_Some _ _ _ Hi) as Hlt.
  destruct (insert_all_spec cs 0 _ (tree_inv_new depth) Hcs)
    as (t1 & R1 & Hinv1 & Hn1 & _ & Hleaf).
  destruct (generatePath_spec (Z.of_nat i) t1 Hinv1)
    as (t2 & R2 & Hinv2 & Hl2 & Hn2).
  destruct (getRoot_spec t2 Hinv2) as (t3 & R3 & Hinv3 & Hl3 & Hn3).
  unfold round_trip.
  rewrite (st_bind_return _ _ _ _ _ R1), (st_bind_return _ _ _ _ _ R2),
    (st_bind_return _ _ _ _ _ R3).
  rewrite verifyPath_result. simpl pathElements. simpl pathIndices.
  pose proof Hinv1 as (_ & _ & Hlv).
  assert (Hc : c = node_str (leaves t1) zero 0 (Z.of_nat i)).
  { symmetry. apply node_str_leaf.
    - specialize (Hleaf i c Hi). by rewrite Z.add_0_l in Hleaf.
    - exact Hc0. }
  assert (Hclimb := climb_path (leaves t1) (levels t1) 0 (Z.of_nat i) [] Hlv
                      ltac:(lia)).
  rewrite <- Hc in Hclimb. simpl length in Hclimb. simpl app in Hclimb.
  rewrite Hclimb. simpl Js.bind. rewrite Hl2, Hn2, Hn1. simpl MerkleTree.levels.
  rewrite Z.div_small.
  2:{ apply lookup_lt_Some in Hi. lia. }
  by rewrite String.eqb_refl.
Qed.


(** *** Tampering with a witness *)



Lemma hashNodes_same_values (l r l' r' : string) :
  operand_value l = operand_value l' -> operand_value r = operand_value r' ->
  hashNodes l r = hashNodes l' r'.
Proof. intros El Er. by rewrite !hashNodes_operands, El, Er. Qed.

(** [verifyPath] sees a sibling only through the integer it converts to:
    replacing siblings by other texts of the same values changes nothing. *)
Lemma verifyPath_loop_same_values (elems elems' : list string) (i : nat)
  (dirs : list Z) (cur : string) :
  Forall2 (fun s s' => operand_value s = operand_value s') elems elems' ->
  verifyPath_loop poseidon elems i dirs cur = verifyPath_loop poseidon elems' i dirs cur.
Proof.
  intros H. revert i cur. induction H as [|s s' elems elems' Hs _ IH]; intros i cur.
  - reflexivity.
  - simpl. rewrite (hashNodes_same_values s cur s' cur Hs eq_refl).
    rewrite (hashNodes_same_values cur s cur s' eq_refl Hs).
    destruct (if match dirs !! i with Some 1 => true | _ => false end
              then hashNodes s' cur else hashNodes cur s') as [next|e]; simpl;
      [apply IH|reflexivity].
Qed.

Lemma same_value_sibling_undetected (leaf : string) (elems : list string)
  (dirs : list Z) (root : string) (t : MerkleTree) (k : nat) (sib sib' : string) :
  elems !! k = Some sib -> operand_value sib = operand_value sib' ->
  fst (verifyPath poseidon leaf (<[k := sib']> elems) dirs root t)
  = fst (verifyPath poseidon leaf elems dirs root t).
Proof.
  intros Hk Hv. rewrite !verifyPath_result.
  rewrite (verifyPath_loop_same_values (<[k := sib']> elems) elems); [reflexivity|].
  apply Forall2_same_length_lookup. split; [by rewrite length_insert|].
  intros j x y Hx Hy. destruct (decide (k = j)) as [<-|Hne].
  - rewrite list_lookup_insert_eq in Hx by (by eapply lookup_lt_Some). congruence.
  - rewrite list_lookup_insert_ne in Hx by done. congruence.
Qed.

(** *** The operand pairs of a run *)






(** *** Two runs that hash different operand pairs at a level *)

Hypothesis poseidon_length : forall l, length (poseidon l) = 32%nat.

Lemma poseidon_nonempty (l : list Z) : poseidon l <> [].
Proof. intros E. pose proof (poseidon_length l) as H. by rewrite E in H. Qed.









End Poseidon.

End MerkleFacts.

(** * The stand-in hash returns 32 bytes *)

Module ByteHashFacts.

Import ByteHash.

Lemma le_bytes_length (n : nat) (z : Z) : length (le_bytes n z) = n.
Proof. revert z. induction n as [|n IH]; intros z; simpl; by rewrite ?IH. Qed.

Lemma hash_length (l : list Z) : length (hash l) = 32%nat.
Proof. apply le_bytes_length. Qed.

End ByteHashFacts.


(** * The accumulator properties of the specification *)

Module AccumulatorProperties.

Import JsFacts CryptoUtils CryptoFacts MerkleTree Accumulator MerkleFacts ByteHashFacts.

(** C9 fails on the code. The root of an empty tree of depth 32 is the text
    of [zero_node 32]: the zero value is [H(0, 0)], but each level above hashes
    what [hashNodes] reads from the text of the level below, twice, and that
    is not the hash below: it is the number, at most 0x255, that the decimal
    digits of the first byte of that hash give when read in base 16. *)
Theorem empty_tree_root_reads_leading_bytes (poseidon : list Z -> list Byte.byte) :
  fst (getRoot poseidon (MerkleTree.new 32)) = Return (hashToHex (zero_node poseidon 32))
  /\ zero_node poseidon 0 = poseidon [0; 0]
  /\ forall i,
       operand_value (hashToHex (zero_node poseidon i))
       = Return (leading_operand (zero_node poseidon i))
       /\ zero_node poseidon (S i)
          = poseidon [leading_operand (zero_node poseidon i);
                      leading_operand (zero_node poseidon i)]
       /\ 0 <= leading_operand (zero_node poseidon i) <= 597
       /\ leading_operand (zero_node poseidon i)
          = leading_operand (take 1 (zero_node poseidon i)).
Proof.
  split; [apply getRoot_new|]. split; [reflexivity|]. intros i.
  split; [apply operand_value_hashToHex|]. split; [reflexivity|].
  split; [apply leading_operand_bound|]. by destruct (zero_node poseidon i).
Qed.

(** C6. Insert ten commitments at indices 0 to 9 of a tree of depth 32; then
    for each index, the path [generatePath] returns verifies the commitment
    of that index against [getRoot()]. A commitment is any non-empty string
    that [hashNodes] converts, as every output of [poseidonHash] is. *)
Theorem round_trip_ten (poseidon : list Z -> list Byte.byte) (commitments : list string)
  (i : nat) (c : string) :
  length commitments = 10%nat ->
  (forall x, x ∈ commitments -> x <> "" /\ convertible x) ->
  commitments !! i = Some c ->
  fst (round_trip poseidon commitments (Z.of_nat i) c (MerkleTree.new 32)) = Return true.
Proof.
  intros Hlen Hout Hi.
  assert (Hc : c ∈ commitments) by (eapply list_elem_of_lookup_2; eauto).
  apply (round_trip_general poseidon); try done.
  - lia.
  - apply Forall_forall. intros x Hx. by apply Hout.
  - by apply Hout.
  - rewrite Hlen. done.
Qed.

Lemma test_commitments_are_outputs (x : string) :
  x ∈ Scenario.test_commitments -> x <> "" /\ convertible x.
Proof.
  unfold Scenario.test_commitments. intros Hx.
  apply list_elem_of_fmap in Hx as (k & -> & _).
  apply (hash_output_convertible ByteHash.hash).
  exists [InNumber (NumInt (Z.of_nat k))]. reflexivity.
Qed.

Lemma round_trip_ten_witness :
  fst (round_trip ByteHash.hash Scenario.test_commitments 3
         (hashToHex (ByteHash.hash [3])) (MerkleTree.new 32)) = Return true.
Proof.
  exact (round_trip_ten ByteHash.hash Scenario.test_commitments 3
           (hashToHex (ByteHash.hash [3])) eq_refl
           test_commitments_are_outputs eq_refl).
Defined.






End AccumulatorProperties.

(** * The commitment scheme *)

Module CommitmentProperties.

Import JsFacts CryptoUtils CryptoFacts MerkleTree Accumulator MerkleFacts ByteHashFacts.
Import Derivation.

Lemma leading_operand_head (h h' : list Byte.byte) :
  head h = head h' -> leading_operand h = leading_operand h'.
Proof. destruct h, h'; simpl; try done. by intros [= ->]. Qed.

(** C8 fails on the code. [computeCommitment] hashes the tuple
    [(amount, secret, index)], but what it returns is not a numeral of
    [Poseidon(amount, secret, index)]: it is [0x] followed by the bytes of the
    [Uint8Array] in decimal, joined by commas, which [BigInt] rejects.
    [computeNullifier], given that text, falls back on [parseInt] and hashes
    the secret with the number the decimal digits of the first byte of the
    commitment give in base 16, at most 0x255: the same nullifier for every
    commitment with that first byte. *)
Theorem nullifier_hashes_leading_byte (poseidon : list Z -> list Byte.byte)
  (amount : JsNumber) (secret : string) (index : JsNumber) (a s i : Z) :
  (forall l, length (poseidon l) = 32%nat) ->
  toBigInt (InNumber amount) = Return a ->
  toBigInt (InString secret) = Return s ->
  toBigInt (InNumber index) = Return i ->
  let commitment := hashToHex (poseidon [a; s; i]) in
  let read := leading_operand (poseidon [a; s; i]) in
  computeCommitment poseidon amount secret index = Return commitment
  /\ commitment = "0x" +:+ padStart 64 "0" (Uint8Array_toString (poseidon [a; s; i]))
  /\ BigInt_of_string commitment
     = Throw (SyntaxError ("Cannot convert " +:+ commitment +:+ " to a BigInt"))
  /\ computeNullifier poseidon secret commitment = Return (hashToHex (poseidon [s; read]))
  /\ 0 <= read <= 597
  /\ (forall other : list Byte.byte,
        head other = head (poseidon [a; s; i]) ->
        computeNullifier poseidon secret (hashToHex other)
        = Return (hashToHex (poseidon [s; read]))).
Proof.
  intros Hlen Ha Hs Hi commitment read.
  split; [apply poseidonHash_returns; by apply mapM_triple|].
  split; [reflexivity|].
  split; [apply BigInt_of_string_hashToHex; rewrite Hlen; lia|].
  assert (Hother : forall other : list Byte.byte,
            head other = head (poseidon [a; s; i]) ->
            computeNullifier poseidon secret (hashToHex other)
            = Return (hashToHex (poseidon [s; read]))).
  { intros other Hhead. apply poseidonHash_returns. apply mapM_pair; [done|].
    rewrite toBigInt_hashToHex. f_equal. by apply leading_operand_head. }
  split; [by apply Hother|]. split; [apply leading_operand_bound|exact Hother].
Qed.

Lemma nullifier_hashes_leading_byte_witness :
  let commitment := hashToHex (ByteHash.hash [1000; 171; 0]) in
  let read := leading_operand (ByteHash.hash [1000; 171; 0]) in
  computeCommitment ByteHash.hash (NumInt 1000) "ab" (NumInt 0) = Return commitment
  /\ commitment
     = "0x" +:+ padStart 64 "0" (Uint8Array_toString (ByteHash.hash [1000; 171; 0]))
  /\ BigInt_of_string commitment
     = Throw (SyntaxError ("Cannot convert " +:+ commitment +:+ " to a BigInt"))
  /\ computeNullifier ByteHash.hash "ab" commitment
     = Return (hashToHex (ByteHash.hash [171; read]))
  /\ 0 <= read <= 597
  /\ (forall other : list Byte.byte,
        head other = head (ByteHash.hash [1000; 171; 0]) ->
        computeNullifier ByteHash.hash "ab" (hashToHex other)
        = Return (hashToHex (ByteHash.hash [171; read]))).
Proof.
  exact (nullifier_hashes_leading_byte ByteHash.hash (NumInt 1000) "ab" (NumInt 0)
           1000 171 0 hash_length eq_refl eq_refl eq_refl).
Defined.

(** Each derivation of the code hashes the tuple [hash_tuple] names for it. *)
Lemma computeCommitment_tuple (poseidon : list Z -> list Byte.byte) amount secret index :
  computeCommitment poseidon amount secret index
  = try* t := hash_tuple (DeriveCommitment amount secret index) in
    Return (hashToHex (poseidon t)).
Proof. reflexivity. Qed.

Lemma computeNullifier_tuple (poseidon : list Z -> list Byte.byte) secret commitment :
  computeNullifier poseidon secret commitment
  = try* t := hash_tuple (DeriveNullifier secret commitment) in
    Return (hashToHex (poseidon t)).
Proof. reflexivity. Qed.

Lemma hashNodes_tuple (poseidon : list Z -> list Byte.byte) l r :
  hashNodes poseidon l r
  = try* t := hash_tuple (HashNodes l r) in Return (hashToHex (poseidon t)).
Proof. reflexivity. Qed.

Lemma initializeZeroValue_tuple (poseidon : list Z -> list Byte.byte) (t : MerkleTree) :
  zeroValue t = "0x0" ->
  hash_tuple DeriveZero = Return [0; 0]
  /\ zeroValue (snd (initializeZeroValue poseidon t)) = hashToHex (poseidon [0; 0]).
Proof. intros E. unfold initializeZeroValue. rewrite E. done. Qed.

Lemma recipientBinding_tuple (Poseidon : list Z -> Z) levels inputs sigs :
  Circuits.WithdrawalCircuit Poseidon levels inputs = Some sigs ->
  hash_tuple (BindRecipient (Circuits.sig_computedNullifier sigs)
                (Circuits.w_recipient inputs))
  = Return [Circuits.sig_computedNullifier sigs; Circuits.Fr (Circuits.w_recipient inputs)]
  /\ Circuits.sig_boundNullifier sigs
     = Poseidon [Circuits.sig_computedNullifier sigs;
                 Circuits.Fr (Circuits.w_recipient inputs)].
Proof.
  unfold Circuits.WithdrawalCircuit. intros H.
  repeat (apply bind_Some in H as (? & _ & H)).
  injection H as <-. done.
Qed.

(** C3, as stated, fails: nullifier derivation on the secret ["0"] and the
    commitment ["0"] hashes the very tuple of the zero sentinel, and so does
    Merkle node hashing on two zero children. *)
Lemma nullifier_tuple_meets_zero_tuple :
  hash_tuple (DeriveNullifier "0" "0") = Return [0; 0]
  /\ hash_tuple DeriveZero = Return [0; 0]
  /\ hash_tuple (HashNodes "0x0" "0x0") = Return [0; 0]
  /\ context (DeriveNullifier "0" "0") <> context DeriveZero
  /\ context (HashNodes "0x0" "0x0") <> context DeriveZero.
Proof. repeat split; try reflexivity; discriminate. Qed.

(** C3, amended. The tuple of commitment derivation has three components and
    the tuples of nullifier derivation, recipient binding, the zero sentinel
    and Merkle node hashing have two: no inputs make the former equal to one
    of the latter. *)
Theorem commitment_tuple_separated (d1 d2 : Derivation) (t1 t2 : list Z) :
  context d1 = Commitment -> context d2 <> Commitment ->
  hash_tuple d1 = Return t1 -> hash_tuple d2 = Return t2 ->
  length t1 = 3%nat /\ length t2 = 2%nat /\ t1 <> t2.
Proof.
  intros H1 H2 E1 E2.
  assert (L1 : length t1 = 3%nat).
  { destruct d1; try discriminate. by apply mapM_length in E1. }
  assert (L2 : length t2 = 2%nat).
  { destruct d2; try done.
    - by apply mapM_length in E2.
    - by injection E2 as <-.
    - by apply mapM_length in E2.
    - by apply mapM_length in E2. }
  repeat split; try done. intros ->. lia.
Qed.

Lemma commitment_tuple_separated_witness :
  length [1000; 171; 0] = 3%nat /\ length [171; 1] = 2%nat /\ [1000; 171; 0] <> [171; 1].
Proof.
  exact (commitment_tuple_separated
           (DeriveCommitment (NumInt 1000) "ab" (NumInt 0)) (DeriveNullifier "ab" "0x1")
           [1000; 171; 0] [171; 1] eq_refl ltac:(discriminate) eq_refl eq_refl).
Defined.

End CommitmentProperties.

(** * The SDK *)

Module SDKProperties.

Import JsFacts StatefulFacts CryptoUtils CryptoFacts MerkleTree Accumulator MerkleFacts.
Import ByteHashFacts ProofSightSDK.

Lemma all_hex_hex_of_byte (b : Byte.byte) (rest : string) :
  all_hex (hex_of_byte b +:+ rest) = all_hex rest.
Proof. destruct b; reflexivity. Qed.

Lemma all_hex_hex_of_bytes (bs : list Byte.byte) : all_hex (hex_of_bytes bs) = true.
Proof.
  induction bs as [|b bs IH]; [reflexivity|].
  change (hex_of_bytes (b :: bs)) with (hex_of_byte b +:+ hex_of_bytes bs).
  by rewrite all_hex_hex_of_byte.
Qed.

Lemma startsWith_hex_of_bytes (bs : list Byte.byte) :
  startsWith (hex_of_bytes bs) "0x" = false.
Proof.
  destruct bs as [|b bs]; [reflexivity|].
  change (hex_of_bytes (b :: bs)) with (hex_of_byte b +:+ hex_of_bytes bs).
  generalize (hex_of_bytes bs). intros rest. destruct b; reflexivity.
Qed.

Lemma hex_of_bytes_nonempty (b : Byte.byte) (bs : list Byte.byte) :
  hex_of_bytes (b :: bs) <> "".
Proof.
  change (hex_of_bytes (b :: bs)) with (hex_of_byte b +:+ hex_of_bytes bs).
  generalize (hex_of_bytes bs). intros rest. destruct b; discriminate.
Qed.

(** Every secret [generateSecret] can return converts to a BigInt. *)
Lemma secret_converts (randomBytes : list Byte.byte) :
  exists s, toBigInt (InString (generateSecret randomBytes)) = Return s.
Proof.
  unfold generateSecret, toBigInt. rewrite startsWith_hex_of_bytes.
  destruct randomBytes as [|b bs]; [by eexists|].
  set (hex := hex_of_bytes (b :: bs)).
  assert (Hhex : all_hex hex = true) by apply all_hex_hex_of_bytes.
  assert (Hne : hex <> "") by apply hex_of_bytes_nonempty.
  clearbody hex.
  change ("0x" +:+ hex) with (String "0" (String "x" hex)).
  unfold BigInt_of_string at 1, StringToBigInt.
  rewrite trim_no_whitespace by (simpl; by apply all_hex_no_whitespace).
  rewrite nonempty_digits_cons by done.
  rewrite digits_value_to_N by done. simpl. by eexists.
Qed.

Lemma market_id_letter (now : Z) :
  "market_" +:+ Number_toString now = String "m" ("arket_" +:+ Number_toString now).
Proof. reflexivity. Qed.

Lemma createMarket_id (options : CreateMarketOptions) (now : Z)
  (sdk sdk' : ProofSightSDK) (market : Market) :
  createMarket options now sdk = (Return market, sdk') ->
  market_id market = "market_" +:+ Number_toString now /\ initialized sdk = true.
Proof.
  unfold createMarket, st_bind, checkInit.
  destruct (initialized sdk); [|discriminate]. simpl. intros [= <- _]. done.
Qed.

Section Poseidon.

Variable poseidon : list Z -> list Byte.byte.

(** [createPosition] on an id of the form ["market_..."] throws, whatever
    the state of the SDK and the other arguments are. *)
Lemma createPosition_market_id (options : CreatePositionOptions)
  (randomBytes : list Byte.byte) (now : Z) (sdk : ProofSightSDK) (rest : string) :
  opt_marketId options = String "m" rest ->
  exists e, fst (createPosition poseidon options randomBytes now sdk) = Throw e
            /\ (initialized sdk = true ->
                (exists a, opt_amount options = NumInt a) ->
                e = SyntaxError ("Cannot convert " +:+ opt_marketId options
                                 +:+ " to a BigInt")).
Proof.
  intros Hid. unfold createPosition, st_bind, checkInit.
  destruct (initialized sdk) eqn:Einit.
  2:{ eexists. split; [reflexivity|]. intros [=]. }
  unfold st_lift, poseidonHash. cbn [mapM].
  change (toBigInt (InNumber (opt_amount options)))
    with (BigInt_of_number (opt_amount options)).
  destruct (secret_converts randomBytes) as [s Hs]. rewrite Hs, Hid, toBigInt_letter_m.
  destruct (opt_amount options) as [a|text| |neg] eqn:Eamount; cbn [BigInt_of_number Js.bind fst];
    (eexists; split; [reflexivity|]); try (intros _ [? [=]]).
  done.
Qed.

Lemma on_tree_return {A} (m : Stateful MerkleTree A) (sdk : ProofSightSDK)
  (a : A) (t' : MerkleTree) :
  m (merkleTree sdk) = (Return a, t') ->
  on_tree m sdk
  = (Return a, {| network := network sdk; merkleTree := t';
                  initialized := initialized sdk |}).
Proof. intros E. unfold on_tree. by rewrite E. Qed.

(** A deposit on an initialized SDK returns and sets leaf 0 of the tree to
    its commitment. *)
Lemma deposit_spec (amount : JsNumber) (a : Z) (randomBytes : list Byte.byte) (now : Z)
  (sdk : ProofSightSDK) :
  initialized sdk = true -> tree_inv poseidon (merkleTree sdk) ->
  toBigInt (InNumber amount) = Return a ->
  exists s sdk',
    toBigInt (InString (generateSecret randomBytes)) = Return s
    /\ deposit poseidon amount randomBytes now sdk
       = (Return {| deposit_amount := amount;
                    deposit_commitment := hashToHex (poseidon [a; s; 0]);
                    deposit_signature := "mock_tx_signature_" +:+ Number_toString now |},
          sdk')
    /\ initialized sdk' = true /\ tree_inv poseidon (merkleTree sdk')
    /\ leaves (merkleTree sdk')
       = <[0 := hashToHex (poseidon [a; s; 0])]> (leaves (merkleTree sdk)).
Proof.
  intros Hinit Hinv Ha. destruct (secret_converts randomBytes) as [s Hs].
  exists s. set (c := hashToHex (poseidon [a; s; 0])).
  assert (Hc : computeCommitment poseidon amount (generateSecret randomBytes) (NumInt 0)
               = Return c).
  { apply poseidonHash_returns. by apply mapM_triple. }
  assert (Hn : computeNullifier poseidon (generateSecret randomBytes) c
               = Return (hashToHex (poseidon [s; leading_operand (poseidon [a; s; 0])]))).
  { apply poseidonHash_returns. apply mapM_pair; [done|]. apply toBigInt_hashToHex. }
  destruct (generatePath_spec poseidon 0 _ Hinv)
    as (t1 & R1 & Hinv1 & Hl1 & Hn1).
  assert (Hcs : convertible c) by apply convertible_hashToHex.
  destruct (insert_spec poseidon 0 c t1 Hinv1 Hcs) as (t2 & R2 & Hinv2 & Hl2 & Hn2).
  eexists. split; [exact Hs|].
  unfold deposit.
  rewrite (st_bind_return checkInit _ sdk sdk tt) by (unfold checkInit; by rewrite Hinit).
  cbv zeta.
  rewrite (st_bind_lift _ _ _ _ Hc). cbv beta.
  rewrite (st_bind_lift _ _ _ _ Hn). cbv beta.
  rewrite (st_bind_return _ _ _ _ _ (on_tree_return _ sdk _ _ R1)). cbv beta.
  rewrite (st_bind_return _ _ _ _ _
             (on_tree_return (insert poseidon 0 c)
                {| network := network sdk; merkleTree := t1;
                   initialized := initialized sdk |} tt t2 R2)). cbv beta.
  split; [reflexivity|]. simpl. split; [done|]. split; [done|]. by rewrite Hl2, Hl1.
Qed.

End Poseidon.

(** C5 fails on the code: every deposit uses leaf index 0. After two
    deposits on a fresh SDK the tree holds one leaf, the commitment of the
    second deposit; the commitment of the first, which was leaf 0 in between,
    has been overwritten. *)
Theorem second_deposit_overwrites_first (poseidon : list Z -> list Byte.byte)
  (amount1 amount2 : JsNumber) (a1 a2 : Z) (bytes1 bytes2 : list Byte.byte)
  (now1 now2 : Z) :
  toBigInt (InNumber amount1) = Return a1 ->
  toBigInt (InNumber amount2) = Return a2 ->
  exists r1 r2 sdk1 sdk2,
    deposit poseidon amount1 bytes1 now1 Scenario.ready_sdk = (Return r1, sdk1)
    /\ deposit poseidon amount2 bytes2 now2 sdk1 = (Return r2, sdk2)
    /\ leaves (merkleTree sdk1) = {[ 0 := deposit_commitment r1 ]}
    /\ leaves (merkleTree sdk2) = {[ 0 := deposit_commitment r2 ]}.
Proof.
  intros Ha1 Ha2.
  destruct (deposit_spec poseidon amount1 a1 bytes1 now1 Scenario.ready_sdk)
    as (s1 & sdk1 & _ & R1 & Hi1 & Hinv1 & Hl1); try done.
  { apply (tree_inv_new poseidon). }
  destruct (deposit_spec poseidon amount2 a2 bytes2 now2 sdk1)
    as (s2 & sdk2 & _ & R2 & Hi2 & Hinv2 & Hl2); try done.
  eexists _, _, sdk1, sdk2. split; [exact R1|]. split; [exact R2|]. simpl.
  rewrite Hl2, Hl1. simpl. split.
  - by rewrite insert_empty.
  - by rewrite insert_insert_eq, insert_empty.
Qed.

Lemma second_deposit_overwrites_first_witness :
  exists r1 r2 sdk1 sdk2,
    deposit ByteHash.hash (NumInt 1000) Scenario.some_bytes 1700000000000
      Scenario.ready_sdk = (Return r1, sdk1)
    /\ deposit ByteHash.hash (NumInt 1000) Scenario.other_bytes 1700000000001 sdk1
       = (Return r2, sdk2)
    /\ leaves (merkleTree sdk1) = {[ 0 := deposit_commitment r1 ]}
    /\ leaves (merkleTree sdk2) = {[ 0 := deposit_commitment r2 ]}.
Proof.
  exact (second_deposit_overwrites_first ByteHash.hash (NumInt 1000) (NumInt 1000)
           1000 1000 Scenario.some_bytes Scenario.other_bytes 1700000000000 1700000000001
           eq_refl eq_refl).
Defined.

(** Two deposits of the same amount with different secrets have different
    commitments where their hashes differ, so the overwritten leaf is lost. *)
Lemma sample_deposit_commitments_differ :
  computeCommitment ByteHash.hash (NumInt 1000)
    (generateSecret Scenario.some_bytes) (NumInt 0)
  <> computeCommitment ByteHash.hash (NumInt 1000)
       (generateSecret Scenario.other_bytes) (NumInt 0).
Proof. vm_compute. discriminate. Qed.

(** C10. For every market [createMarket] returns, [createPosition] with that
    market's id throws instead of returning a position: the id is
    ["market_"] followed by the decimal text of the clock, which [BigInt]
    accepts neither with a [0x] in front nor as it is. On an initialized
    SDK and an integral amount the error is that [SyntaxError]. *)
Theorem createPosition_after_createMarket_throws (poseidon : list Z -> list Byte.byte)
  (marketOptions : CreateMarketOptions) (now : Z) (sdk0 sdk1 : ProofSightSDK)
  (market : Market) (chosen : string) (stake : JsNumber)
  (randomBytes : list Byte.byte) (now' : Z) (sdk : ProofSightSDK) :
  createMarket marketOptions now sdk0 = (Return market, sdk1) ->
  let options := {| opt_marketId := market_id market; opt_outcome := chosen;
                    opt_amount := stake |} in
  exists e, fst (createPosition poseidon options randomBytes now' sdk) = Throw e
            /\ (initialized sdk = true ->
                (exists a, stake = NumInt a) ->
                e = SyntaxError ("Cannot convert " +:+ market_id market +:+ " to a BigInt")).
Proof.
  intros Hm options. apply createMarket_id in Hm as [Hid _].
  apply (createPosition_market_id poseidon options randomBytes now' sdk
           ("arket_" +:+ Number_toString now)).
  simpl. rewrite Hid. reflexivity.
Qed.

Lemma createPosition_after_createMarket_throws_witness :
  exists e,
    fst (createPosition ByteHash.hash
           {| opt_marketId := market_id Scenario.sample_market; opt_outcome := "Yes";
              opt_amount := NumInt 500 |}
           Scenario.some_bytes 1700000000001 Scenario.ready_sdk) = Throw e
    /\ (initialized Scenario.ready_sdk = true ->
        (exists a, NumInt 500 = NumInt a) ->
        e = SyntaxError ("Cannot convert " +:+ market_id Scenario.sample_market
                         +:+ " to a BigInt")).
Proof.
  exact (createPosition_after_createMarket_throws ByteHash.hash
           Scenario.sample_market_options 1700000000000 Scenario.ready_sdk
           Scenario.ready_sdk Scenario.sample_market "Yes" (NumInt 500)
           Scenario.some_bytes 1700000000001 Scenario.ready_sdk eq_refl).
Defined.

(** C4, as stated, fails on the SDK: a withdrawal to one recipient and a
    withdrawal to another return the same result, the nullifier included;
    nothing in it is bound to the recipient. *)
Lemma withdraw_ignores_recipient :
  recipient Scenario.withdraw_to_alice <> recipient Scenario.withdraw_to_bob
  /\ withdraw ByteHash.hash Scenario.withdraw_to_alice Scenario.some_bytes
       Scenario.ready_sdk
     = withdraw ByteHash.hash Scenario.withdraw_to_bob Scenario.some_bytes
         Scenario.ready_sdk
  /\ (exists r, fst (withdraw ByteHash.hash Scenario.withdraw_to_alice
                       Scenario.some_bytes Scenario.ready_sdk) = Return r).
Proof.
  split; [discriminate|]. split; [reflexivity|].
  eexists; vm_compute; reflexivity.
Qed.

(** C4, amended. [withdraw] computes no bound nullifier and never reads the
    recipient: for a given state of the SDK, amount and random draw, its
    result is the same for any two recipients. On an initialized SDK and for
    an integral amount that result is the amount, the signature
    [mock_withdraw_sig] and the nullifier [computeNullifier] returns for the
    fresh secret and the commitment [computeCommitment] returns for the
    amount, that secret and index 0; the SDK is left as it was. *)
Theorem withdraw_binds_no_recipient (poseidon : list Z -> list Byte.byte)
  (options options' : WithdrawOptions) (randomBytes : list Byte.byte)
  (sdk : ProofSightSDK) :
  withdraw_amount options = withdraw_amount options' ->
  withdraw poseidon options randomBytes sdk = withdraw poseidon options' randomBytes sdk
  /\ (initialized sdk = true ->
      forall a, withdraw_amount options = NumInt a ->
      exists commitment nullifier,
        computeCommitment poseidon (NumInt a) (generateSecret randomBytes) (NumInt 0)
        = Return commitment
        /\ computeNullifier poseidon (generateSecret randomBytes) commitment
           = Return nullifier
        /\ withdraw poseidon options randomBytes sdk
           = (Return {| result_amount := NumInt a;
                        result_signature := "mock_withdraw_sig";
                        nullifier := nullifier |}, sdk)).
Proof.
  intros Hamount. split; [unfold withdraw; by rewrite Hamount|].
  intros Hinit a Ha. destruct (secret_converts randomBytes) as [s Hs].
  assert (Hc : computeCommitment poseidon (NumInt a) (generateSecret randomBytes) (NumInt 0)
               = Return (hashToHex (poseidon [a; s; 0]))).
  { apply poseidonHash_returns. by apply mapM_triple. }
  assert (Hn : computeNullifier poseidon (generateSecret randomBytes)
                 (hashToHex (poseidon [a; s; 0]))
               = Return (hashToHex (poseidon [s; leading_operand (poseidon [a; s; 0])]))).
  { apply poseidonHash_returns. apply mapM_pair; [done|]. apply toBigInt_hashToHex. }
  eexists _, _. split; [exact Hc|]. split; [exact Hn|].
  unfold withdraw.
  rewrite (st_bind_return checkInit _ sdk sdk tt) by (unfold checkInit; by rewrite Hinit).
  cbv zeta. rewrite Ha.
  rewrite (st_bind_lift _ _ _ _ Hc). cbv beta.
  rewrite (st_bind_lift _ _ _ _ Hn). reflexivity.
Qed.

Lemma withdraw_binds_no_recipient_witness :
  withdraw ByteHash.hash Scenario.withdraw_to_alice Scenario.some_bytes
    Scenario.ready_sdk
  = withdraw ByteHash.hash Scenario.withdraw_to_bob Scenario.some_bytes
      Scenario.ready_sdk
  /\ (initialized Scenario.ready_sdk = true ->
      forall a, withdraw_amount Scenario.withdraw_to_alice = NumInt a ->
      exists commitment nullifier,
        computeCommitment ByteHash.hash (NumInt a) (generateSecret Scenario.some_bytes)
          (NumInt 0)
        = Return commitment
        /\ computeNullifier ByteHash.hash (generateSecret Scenario.some_bytes) commitment
           = Return nullifier
        /\ withdraw ByteHash.hash Scenario.withdraw_to_alice Scenario.some_bytes
             Scenario.ready_sdk
           = (Return {| result_amount := NumInt a;
                        result_signature := "mock_withdraw_sig";
                        nullifier := nullifier |}, Scenario.ready_sdk)).
Proof.
  exact (withdraw_binds_no_recipient ByteHash.hash Scenario.withdraw_to_alice
           Scenario.withdraw_to_bob Scenario.some_bytes Scenario.ready_sdk eq_refl).
Defined.

End SDKProperties.

(** * The proof orchestrator *)

Module ProverProperties.

Import CryptoUtils ProofGenerator.

(** C2, as stated, fails: a witness whose amount is the field modulus, whose
    timestamp needs 65 bits and whose secret is no numeral is handed to the
    prover as it is, and the prover's proof is returned. *)
Lemma out_of_range_witness_dispatched :
  Scenario.spec_witness_in_field Scenario.out_of_range_inputs = false
  /\ snd (generateProof Scenario.constant_prover "deposit.wasm" "deposit_0001.zkey"
            Scenario.out_of_range_inputs [])
     = [{| call_input := Scenario.out_of_range_inputs;
           call_wasmPath := "deposit.wasm"; call_zkeyPath := "deposit_0001.zkey" |}]
  /\ fst (generateProof Scenario.constant_prover "deposit.wasm" "deposit_0001.zkey"
            Scenario.out_of_range_inputs [])
     = Return {| proof := {| pi_a := ["1"; "2"; "1"];
                             pi_b := [["1"; "2"]; ["3"; "4"]; ["1"; "0"]];
                             pi_c := ["5"; "6"; "1"] |};
                 publicSignals := ["7"] |}.
Proof. repeat split; vm_compute; reflexivity. Qed.

(** C2, amended. [generateProof] checks nothing locally: for every witness
    it calls the external prover exactly once, with the witness unchanged,
    and returns the prover's proof with the public signals as strings, or
    rethrows the prover's error as ["Proof generation failed: ..."]. *)
Theorem generateProof_dispatches_unchecked
  (fullProve : ProofInputs -> string -> string -> Completion FullProveResult)
  (wasmPath zkeyPath : string) (inputs : ProofInputs) (calls : list ProverCall) :
  snd (generateProof fullProve wasmPath zkeyPath inputs calls)
  = calls ++ [{| call_input := inputs; call_wasmPath := wasmPath;
                 call_zkeyPath := zkeyPath |}]
  /\ fst (generateProof fullProve wasmPath zkeyPath inputs calls)
     = match fullProve inputs wasmPath zkeyPath with
       | Return r =>
           Return {| proof := {| pi_a := pi_a (full_proof r); pi_b := pi_b (full_proof r);
                                 pi_c := pi_c (full_proof r) |};
                     publicSignals := map Signal_toString (full_publicSignals r) |}
       | Throw e => Throw (Error ("Proof generation failed: " +:+ error_toString e))
       end.
Proof.
  unfold generateProof, call_fullProve.
  destruct (fullProve inputs wasmPath zkeyPath); split; reflexivity.
Qed.

End ProverProperties.

(** * The position-update circuit *)

Module CircuitProperties.

Import Circuits.

(** C1, as stated, fails: the pinned state is what truncating
    [k_old / new_pool_b] gives, but its product is below [poolA * poolB], and
    the circuit rejects the inputs of the test that expects it accepted. *)
Lemma pinned_state_breaks_invariant :
  swap_buy_a 1000000000 1000000000 100000000 = (909090909, 1100000000)
  /\ product_invariant 1000000000 1000000000 909090909 1100000000 = false
  /\ PositionUpdateCircuit PairingHash.hash buy_a_test_inputs = None.
Proof. repeat split; vm_compute; reflexivity. Qed.

(** C1, amended. In the pinned scenario the truncated quotient
    [k_old / new_pool_b] is 909,090,909 with new_pool_b = 1,100,000,000; the
    product of this state is 999,999,999,900,000,000, less than
    [poolA * poolB] = 10^18, so the invariant does not hold for it and the
    position-update circuit rejects it. The invariant holds exactly for
    newPoolA >= 909,090,910, the state reached when the amount out (not the
    new reserve) is truncated. *)
Theorem pinned_scenario_rejected (Poseidon : list Z -> Z) :
  swap_buy_a 1000000000 1000000000 100000000 = (909090909, 1100000000)
  /\ 909090909 * 1100000000 = 999999999900000000
  /\ product_invariant 1000000000 1000000000 909090909 1100000000 = false
  /\ PositionUpdateCircuit Poseidon buy_a_test_inputs = None
  /\ 1000000000 - (100000000 * 1000000000) ÷ (1000000000 + 100000000) = 909090910
  /\ (forall new_pool_a,
        product_invariant 1000000000 1000000000 new_pool_a 1100000000 = true
        <-> 909090910 <= new_pool_a).
Proof.
  split; [reflexivity|]. split; [reflexivity|]. split; [reflexivity|].
  split; [vm_compute; reflexivity|]. split; [reflexivity|].
  intros new_pool_a. unfold product_invariant. rewrite Z.leb_le. lia.
Qed.

End CircuitProperties.

(** * Further properties of the code *)

(** ** Field arithmetic and the circomlib gadgets *)

Module FieldFacts.

Import Circuits.

Lemma p_pos : 0 < p.
Proof. reflexivity. Qed.

Lemma pow2_le_p (n : nat) : (n <= 253)%nat -> 2 ^ Z.of_nat n <= p.
Proof.
  intros Hn. transitivity (2 ^ 253).
  - apply Z.pow_le_mono_r; lia.
  - by apply Z.leb_le.
Qed.

Lemma Fr_range (x : Z) : 0 <= Fr x < p.
Proof. unfold Fr. apply Z.mod_pos_bound, p_pos. Qed.

Lemma bit_value (x : Z) (k : nat) :
  Z.land (Z.shiftr x (Z.of_nat k)) 1 = (x / 2 ^ Z.of_nat k) mod 2.
Proof.
  rewrite Z.shiftr_div_pow2 by lia.
  change 1 with (Z.ones 1). rewrite Z.land_ones by lia. reflexivity.
Qed.

Lemma mod_pow2_succ (x : Z) (k : nat) :
  x mod 2 ^ Z.of_nat (S k) = x mod 2 ^ Z.of_nat k + 2 ^ Z.of_nat k * ((x / 2 ^ Z.of_nat k) mod 2).
Proof.
  rewrite Nat2Z.inj_succ, Z.pow_succ_r by lia.
  rewrite (Z.mul_comm 2). apply Z.rem_mul_r; lia.
Qed.

(** The linear combination [lc1] of [Num2Bits] over the bits from [k] on. *)
Lemma lc1_value (x : Z) (n k : nat) :
  fold_right (fun '(i, b) acc => fadd (fmul b (2 ^ Z.of_nat i)) acc) 0
    (combine (seq k n) (map (fun i => Z.land (Z.shiftr x (Z.of_nat i)) 1) (seq k n)))
  = (x mod 2 ^ Z.of_nat (k + n) - x mod 2 ^ Z.of_nat k) mod p.
Proof.
  revert k. induction n as [|n IH]; intros k.
  - simpl. rewrite Nat.add_0_r, Z.sub_diag. reflexivity.
  - cbn [seq map combine fold_right]. rewrite IH.
    unfold fadd, fmul. rewrite <- Zplus_mod.
    replace (k + S n)%nat with (S k + n)%nat by lia.
    rewrite (mod_pow2_succ x k), bit_value. f_equal. lia.
Qed.

Lemma Num2Bits_lc1 (n : nat) (x : Z) :
  Num2Bits n x
  = (_ ← constrain ((x mod 2 ^ Z.of_nat n) mod p) x;
     Some (map (fun i => Z.land (Z.shiftr x (Z.of_nat i)) 1) (seq 0 n))).
Proof.
  unfold Num2Bits. cbv zeta. rewrite lc1_value. simpl Z.of_nat at 2.
  rewrite Z.pow_0_r, Z.mod_1_r, Z.sub_0_r. reflexivity.
Qed.

Lemma Num2Bits_complete (n : nat) (x : Z) :
  2 ^ Z.of_nat n <= p -> 0 <= x < 2 ^ Z.of_nat n ->
  Num2Bits n x = Some (map (fun i => Z.land (Z.shiftr x (Z.of_nat i)) 1) (seq 0 n)).
Proof.
  intros Hp Hx. rewrite Num2Bits_lc1.
  rewrite (Z.mod_small x) by lia. rewrite (Z.mod_small x) by lia.
  unfold constrain. by rewrite Z.eqb_refl.
Qed.

Lemma Num2Bits_sound (n : nat) (x : Z) (bits : list Z) :
  2 ^ Z.of_nat n <= p -> 0 <= x ->
  Num2Bits n x = Some bits ->
  x < 2 ^ Z.of_nat n
  /\ bits = map (fun i => Z.land (Z.shiftr x (Z.of_nat i)) 1) (seq 0 n).
Proof.
  intros Hp Hx. rewrite Num2Bits_lc1. intros H.
  apply bind_Some in H as ([] & Hc & [= <-]). split; [|reflexivity].
  unfold constrain in Hc. destruct (Z.eqb_spec ((x mod 2 ^ Z.of_nat n) mod p) x) as [E|]; [|discriminate].
  assert (H2 : 0 < 2 ^ Z.of_nat n) by (apply Z.pow_pos_nonneg; lia).
  pose proof (Z.mod_pos_bound x (2 ^ Z.of_nat n) H2).
  rewrite Z.mod_small in E by lia. lia.
Qed.

Lemma nth_map_seq (f : nat -> Z) (n s k : nat) :
  (k < n)%nat -> nth k (map f (seq s n)) 0 = f (s + k)%nat.
Proof.
  revert s k. induction n as [|n IH]; intros s k Hk; [lia|].
  destruct k as [|k]; simpl.
  - by rewrite Nat.add_0_r.
  - rewrite IH by lia. f_equal. lia.
Qed.

Lemma nth_bits (x : Z) (n k : nat) :
  (k < n)%nat ->
  nth k (map (fun i => Z.land (Z.shiftr x (Z.of_nat i)) 1) (seq 0 n)) 0
  = (x / 2 ^ Z.of_nat k) mod 2.
Proof. intros Hk. rewrite nth_map_seq by done. apply bit_value. Qed.

End FieldFacts.

Module PositionUpdateFacts.

Import Circuits FieldFacts.

Lemma constrain_Some (a b : Z) : constrain a b = Some tt <-> a = b.
Proof.
  unfold constrain. destruct (Z.eqb_spec a b); split; intros H; try done.
Qed.

Lemma fsub_range (a b : Z) : 0 <= fsub a b < p.
Proof. apply Z.mod_pos_bound, p_pos. Qed.

(** [GreaterEqThan(n)] outputs 1 exactly when the field element
    [in1 + 2^n - (in0 + 1)] is below [2^n]. *)
Lemma GreaterEqThan_one (n : nat) (x y : Z) :
  2 ^ Z.of_nat (S n) <= p ->
  GreaterEqThan n x y = Some 1
  <-> fsub (fadd y (2 ^ Z.of_nat n)) (fadd x 1) < 2 ^ Z.of_nat n.
Proof.
  intros Hp. unfold GreaterEqThan, LessThan.
  set (v := fsub (fadd y (2 ^ Z.of_nat n)) (fadd x 1)).
  assert (Hv : 0 <= v < p) by apply fsub_range.
  assert (H2 : 2 ^ Z.of_nat (S n) = 2 * 2 ^ Z.of_nat n)
    by (rewrite Nat2Z.inj_succ, Z.pow_succ_r; lia).
  assert (Hpos : 0 < 2 ^ Z.of_nat n) by (apply Z.pow_pos_nonneg; lia).
  split.
  - intros H. apply bind_Some in H as (bits & Hbits & [= Hout]).
    apply Num2Bits_sound in Hbits as [Hlt ->]; [|done|lia].
    rewrite nth_bits in Hout by lia.
    destruct (Z.lt_ge_cases v (2 ^ Z.of_nat n)) as [|Hge]; [done|].
    replace v with (1 * 2 ^ Z.of_nat n + (v - 2 ^ Z.of_nat n)) in Hout by lia.
    rewrite Z.div_add_l, (Z.div_small (v - _)) in Hout by lia. discriminate.
  - intros Hlt. rewrite Num2Bits_complete by lia. cbv [mbind option_bind].
    rewrite nth_bits by lia. rewrite Z.div_small by lia. reflexivity.
Qed.

Section Poseidon.

Variable Poseidon : list Z -> Z.

(** The constraints of [PositionUpdateCircuit], one by one. *)
Lemma PositionUpdateCircuit_accepts (inputs : PositionUpdateInputs) (valid : Z) :
  PositionUpdateCircuit Poseidon inputs = Some valid
  <-> (let a := Fr (pool_token_a inputs) in
       let b := Fr (pool_token_b inputs) in
       let a' := Fr (new_pool_token_a inputs) in
       let b' := Fr (new_pool_token_b inputs) in
       let d := Fr (amount_in inputs) in
       let s := Fr (is_buy_a inputs) in
       let m := Fr (min_amount_out inputs) in
       let k := fmul a b in
       let ka := fsub (fmul a' (fadd b d)) k in
       let pa := fsub b' (fadd b d) in
       let kb := fsub (fmul (fadd a d) b') k in
       let pb := fsub a' (fadd a d) in
       let out := fadd (fmul s (fsub a a')) (fmul (fsub 1 s) (fsub b b')) in
       valid = 1
       /\ d < 2 ^ 64 /\ a < 2 ^ 64 /\ b < 2 ^ 64 /\ s < 2
       /\ fsub (fadd k (2 ^ 128)) (fadd (fmul a' b') 1) < 2 ^ 128
       /\ fadd (fmul s (fadd (fmul ka ka) (fmul pa pa)))
               (fmul (fsub 1 s) (fadd (fmul kb kb) (fmul pb pb))) = 0
       /\ fsub (fadd m (2 ^ 64)) (fadd out 1) < 2 ^ 64
       /\ a' <> 0 /\ b' <> 0).
Proof.
  cbv zeta. unfold PositionUpdateCircuit. cbv zeta.
  pose proof (Fr_range (pool_token_a inputs)) as Ha.
  pose proof (Fr_range (pool_token_b inputs)) as Hb.
  pose proof (Fr_range (amount_in inputs)) as Hd.
  pose proof (Fr_range (is_buy_a inputs)) as Hs.
  set (a := Fr (pool_token_a inputs)) in *. set (b := Fr (pool_token_b inputs)) in *.
  set (a' := Fr (new_pool_token_a inputs)). set (b' := Fr (new_pool_token_b inputs)).
  set (d := Fr (amount_in inputs)) in *. set (s := Fr (is_buy_a inputs)) in *.
  set (m := Fr (min_amount_out inputs)).
  assert (H64 : 2 ^ Z.of_nat 64 <= p) by (apply pow2_le_p; lia).
  assert (H1 : 2 ^ Z.of_nat 1 <= p) by (apply pow2_le_p; lia).
  assert (H65 : 2 ^ Z.of_nat 65 <= p) by (apply pow2_le_p; lia).
  assert (H129 : 2 ^ Z.of_nat 129 <= p) by (apply pow2_le_p; lia).
  split.
  - intros H.
    apply bind_Some in H as (? & Hd' & H). apply Num2Bits_sound in Hd' as [Hd' _]; [|done|lia].
    apply bind_Some in H as (? & Ha' & H). apply Num2Bits_sound in Ha' as [Ha' _]; [|done|lia].
    apply bind_Some in H as (? & Hb' & H). apply Num2Bits_sound in Hb' as [Hb' _]; [|done|lia].
    apply bind_Some in H as (? & Hs' & H). apply Num2Bits_sound in Hs' as [Hs' _]; [|done|lia].
    apply bind_Some in H as (kc & Hk & H).
    apply bind_Some in H as ([] & Hk1 & H). apply constrain_Some in Hk1 as ->.
    apply GreaterEqThan_one in Hk; [|done].
    apply bind_Some in H as ([] & He & H). apply constrain_Some in He.
    apply bind_Some in H as (sc & Hsl & H).
    apply bind_Some in H as ([] & Hs1 & H). apply constrain_Some in Hs1 as ->.
    apply GreaterEqThan_one in Hsl; [|done].
    apply bind_Some in H as ([] & Hza & H). apply constrain_Some in Hza.
    apply bind_Some in H as ([] & Hzb & H). apply constrain_Some in Hzb.
    injection H as <-.
    unfold IsZero in Hza, Hzb.
    destruct (Z.eqb_spec a' 0); [discriminate|]. destruct (Z.eqb_spec b' 0); [discriminate|].
    change (2 ^ Z.of_nat 64) with (2 ^ 64) in *. change (2 ^ Z.of_nat 128) with (2 ^ 128) in *.
    change (2 ^ Z.of_nat 1) with 2 in *.
    repeat split; done.
  - intros (-> & Hd' & Ha' & Hb' & Hs' & Hk & He & Hsl & Hza & Hzb).
    rewrite !Num2Bits_complete by (try done; change (2 ^ Z.of_nat 64) with (2 ^ 64);
                                   change (2 ^ Z.of_nat 1) with 2; lia).
    cbv [mbind option_bind].
    apply (GreaterEqThan_one 128) in Hk; [|done]. rewrite Hk.
    rewrite (proj2 (constrain_Some 1 1)) by done.
    rewrite (proj2 (constrain_Some _ 0) He).
    apply (GreaterEqThan_one 64) in Hsl; [|done]. rewrite Hsl.
    rewrite (proj2 (constrain_Some 1 1)) by done.
    unfold IsZero.
    destruct (Z.eqb_spec a' 0); [done|]. destruct (Z.eqb_spec b' 0); [done|].
    reflexivity.
Qed.

End Poseidon.

End PositionUpdateFacts.

(** ** The position-update circuit *)

Module PositionUpdateProperties.

Import Circuits FieldFacts PositionUpdateFacts.

Lemma p_large : 2 ^ 253 <= p.
Proof. by apply Z.leb_le. Qed.

Lemma window (K K' c : Z) :
  0 <= c < p ->
  fsub (fadd K c) (fadd K' 1) < c -> fsub K' K < c.
Proof.
  intros Hc Hv. pose proof (fsub_range (fadd K c) (fadd K' 1)) as Hr.
  set (v := fsub (fadd K c) (fadd K' 1)) in *.
  assert (E : fsub K' K = (c - 1 - v) mod p).
  { unfold v, fsub, fadd.
    rewrite Zminus_mod_idemp_r.
    replace (c - 1 - ((K + c) mod p - (K' + 1) mod p))
      with ((K' + 1) mod p + (c - 1) - (K + c) mod p) by lia.
    rewrite Zminus_mod_idemp_r, <- Z.add_sub_assoc, Zplus_mod_idemp_l. f_equal. lia. }
  rewrite E, Z.mod_small by lia. lia.
Qed.

(** X1. A witness the position-update circuit accepts has [valid = 1], an
    amount in and old reserves below 2^64, a direction that is 0 or 1, new
    reserves that are not zero in the field, and a product of the new
    reserves that exceeds the old product by less than 2^128 in the field.
    Nothing is required of [market_id], [user_secret] and
    [position_commitment]: the same update is accepted with any other values
    for them, and for any hash function in place of Poseidon. *)
Theorem position_update_accepted_only_if (Poseidon : list Z -> Z)
  (inputs : PositionUpdateInputs) (valid : Z) :
  PositionUpdateCircuit Poseidon inputs = Some valid ->
  valid = 1
  /\ Fr (amount_in inputs) < 2 ^ 64
  /\ Fr (pool_token_a inputs) < 2 ^ 64
  /\ Fr (pool_token_b inputs) < 2 ^ 64
  /\ (Fr (is_buy_a inputs) = 0 \/ Fr (is_buy_a inputs) = 1)
  /\ Fr (new_pool_token_a inputs) <> 0
  /\ Fr (new_pool_token_b inputs) <> 0
  /\ fsub (fmul (Fr (new_pool_token_a inputs)) (Fr (new_pool_token_b inputs)))
          (fmul (Fr (pool_token_a inputs)) (Fr (pool_token_b inputs))) < 2 ^ 128
  /\ forall (Poseidon' : list Z -> Z) (market secret commitment : Z),
       PositionUpdateCircuit Poseidon'
         {| market_id := market;
            pool_token_a := pool_token_a inputs;
            pool_token_b := pool_token_b inputs;
            new_pool_token_a := new_pool_token_a inputs;
            new_pool_token_b := new_pool_token_b inputs;
            amount_in := amount_in inputs;
            is_buy_a := is_buy_a inputs;
            min_amount_out := min_amount_out inputs;
            user_secret := secret;
            position_commitment := commitment |} = Some valid.
Proof.
  intros H. pose proof H as Hsame.
  apply PositionUpdateCircuit_accepts in H. cbv zeta in H.
  destruct H as (-> & Hd & Ha & Hb & Hs & Hk & _ & _ & Hza & Hzb).
  pose proof (Fr_range (is_buy_a inputs)).
  repeat (split; [done || lia|]).
  split; [apply window; [|done]; pose proof p_large; lia|].
  intros Poseidon' market secret commitment. exact Hsame.
Qed.

Lemma position_update_accepted_only_if_witness :
  1 = 1
  /\ Fr (amount_in Samples.exact_buy_a) < 2 ^ 64
  /\ Fr (pool_token_a Samples.exact_buy_a) < 2 ^ 64
  /\ Fr (pool_token_b Samples.exact_buy_a) < 2 ^ 64
  /\ (Fr (is_buy_a Samples.exact_buy_a) = 0 \/ Fr (is_buy_a Samples.exact_buy_a) = 1)
  /\ Fr (new_pool_token_a Samples.exact_buy_a) <> 0
  /\ Fr (new_pool_token_b Samples.exact_buy_a) <> 0
  /\ fsub (fmul (Fr (new_pool_token_a Samples.exact_buy_a))
                (Fr (new_pool_token_b Samples.exact_buy_a)))
          (fmul (Fr (pool_token_a Samples.exact_buy_a))
                (Fr (pool_token_b Samples.exact_buy_a))) < 2 ^ 128
  /\ forall (Poseidon' : list Z -> Z) (market secret commitment : Z),
       PositionUpdateCircuit Poseidon'
         {| market_id := market;
            pool_token_a := pool_token_a Samples.exact_buy_a;
            pool_token_b := pool_token_b Samples.exact_buy_a;
            new_pool_token_a := new_pool_token_a Samples.exact_buy_a;
            new_pool_token_b := new_pool_token_b Samples.exact_buy_a;
            amount_in := amount_in Samples.exact_buy_a;
            is_buy_a := is_buy_a Samples.exact_buy_a;
            min_amount_out := min_amount_out Samples.exact_buy_a;
            user_secret := secret;
            position_commitment := commitment |} = Some 1.
Proof.
  apply (position_update_accepted_only_if PairingHash.hash Samples.exact_buy_a 1).
  vm_compute. reflexivity.
Defined.

End PositionUpdateProperties.

(** ** The Merkle tree over sequences of calls *)

Module TreeFacts.

Import JsFacts StatefulFacts CryptoUtils CryptoFacts MerkleTree Accumulator KeyFacts.
Import MerkleFacts Session.

Lemma leaf_stored (lv : gmap Z string) (z : string) (i : Z) :
  match lv !! i with
  | Some EmptyString | None => z
  | Some leaf => leaf
  end = default z (stored lv i).
Proof. unfold stored. destruct (lv !! i) as [[|]|]; reflexivity. Qed.

Lemma stored_insert (lv : gmap Z string) (i j : Z) (c : string) :
  i <> j -> stored (<[i := c]> lv) j = stored lv j.
Proof. intros H. unfold stored. by rewrite lookup_insert_ne. Qed.

Lemma pow2_split (D level : nat) :
  (level <= D)%nat -> 2 ^ Z.of_nat D = 2 ^ Z.of_nat (D - level) * 2 ^ Z.of_nat level.
Proof.
  intros H. rewrite <- Z.pow_add_r by lia. f_equal. lia.
Qed.

(** The positions of level [level] of a tree of depth [D]. *)
Lemma index_at_level (D level : nat) (i : Z) :
  (level <= D)%nat -> 0 <= i < 2 ^ Z.of_nat D ->
  0 <= i / 2 ^ Z.of_nat level < 2 ^ Z.of_nat (D - level).
Proof.
  intros Hl Hi. rewrite (pow2_split D level Hl) in Hi.
  assert (0 < 2 ^ Z.of_nat level) by (apply Z.pow_pos_nonneg; lia).
  split; [apply Z.div_pos; lia|]. apply Z.div_lt_upper_bound; lia.
Qed.

Lemma div_pow2_succ (i : Z) (level : nat) :
  i / 2 ^ Z.of_nat (S level) = i / 2 ^ Z.of_nat level / 2.
Proof.
  rewrite Nat2Z.inj_succ, Z.pow_succ_r, Z.mul_comm by lia.
  rewrite Z.div_div; [done| |lia]. apply Z.pow_nonzero; lia.
Qed.

Section Poseidon.

Variable poseidon : list Z -> list Byte.byte.

Local Abbreviation zero := (zero_value poseidon).
Local Abbreviation node_hash := (node_hash poseidon).
Local Abbreviation node_str := (node_str poseidon).

Lemma node_hash_ext (lv lv' : gmap Z string) (z : string) (level : nat) (idx : Z) :
  (forall j, stored lv j = stored lv' j) ->
  node_hash lv z level idx = node_hash lv' z level idx.
Proof.
  intros H. revert idx. induction level as [|level IH]; intros idx.
  - simpl. by rewrite !leaf_stored, H.
  - simpl. by rewrite !IH.
Qed.

(** A node whose leaves have indices up to 2^53 depends only on what is
    stored under it. *)
Lemma node_hash_local (lv lv' : gmap Z string) (z : string) (level : nat) (idx : Z) :
  0 <= idx -> (idx + 1) * 2 ^ Z.of_nat level <= 2 ^ 53 ->
  (forall j, j / 2 ^ Z.of_nat level = idx -> stored lv j = stored lv' j) ->
  node_hash lv z level idx = node_hash lv' z level idx.
Proof.
  revert idx. induction level as [|level IH]; intros idx H0 Hb H.
  - simpl. rewrite !leaf_stored, (H idx); [done|]. apply Z.div_1_r.
  - assert (Hpos : 0 < 2 ^ Z.of_nat level) by (apply Z.pow_pos_nonneg; lia).
    rewrite Nat2Z.inj_succ, Z.pow_succ_r in Hb by lia.
    simpl. rewrite left_child_exact, right_child_exact by nia.
    rewrite (IH (idx * 2)), (IH (idx * 2 + 1)); [done|lia|nia| |lia|nia|].
    + intros j Hj. apply H. rewrite div_pow2_succ, Hj.
      rewrite Z.add_comm, Z.div_add by lia. reflexivity.
    + intros j Hj. apply H. rewrite div_pow2_succ, Hj. by rewrite Z.div_mul.
Qed.

Lemma sibling_neq (q : Z) : (if Z.rem q 2 =? 0 then q + 1 else q - 1) <> q.
Proof. destruct (Z.rem q 2 =? 0); lia. Qed.

(** In a tree of at most 53 levels the siblings on the way up from leaf [i]
    do not depend on leaf [i]. *)
Lemma path_elems_insert (lv : gmap Z string) (z : string) (i : Z) (c : string)
  (D n level : nat) :
  (D <= 53)%nat -> 0 <= i < 2 ^ Z.of_nat D -> (level + n <= D)%nat ->
  path_elems poseidon (<[i := c]> lv) z n level (i / 2 ^ Z.of_nat level)
  = path_elems poseidon lv z n level (i / 2 ^ Z.of_nat level).
Proof.
  intros HD Hi. revert level. induction n as [|n IH]; intros level Hl; [reflexivity|].
  assert (HD53 : 2 ^ Z.of_nat D <= 2 ^ 53) by (apply Z.pow_le_mono_r; lia).
  assert (Hpos : 0 < 2 ^ Z.of_nat level) by (apply Z.pow_pos_nonneg; lia).
  pose proof (index_at_level D level i ltac:(lia) Hi) as Hq.
  pose proof (pow2_split D level ltac:(lia)) as Hsplit.
  set (q := i / 2 ^ Z.of_nat level) in *.
  assert (Hm : 2 ^ Z.of_nat (D - level) = 2 * 2 ^ Z.of_nat (D - level - 1)).
  { rewrite <- Z.pow_succ_r by lia. f_equal. lia. }
  assert (Hpos' : 0 < 2 ^ Z.of_nat (D - level - 1)) by (apply Z.pow_pos_nonneg; lia).
  assert (Hq53 : 0 <= q < 2 ^ 53) by nia.
  simpl. f_equal.
  - unfold Accumulator.node_str. rewrite sibling_index_exact by done.
    rewrite (node_hash_local (<[i := c]> lv) lv); [done| | |].
    + destruct (Z.eqb_spec (Z.rem q 2) 0) as [E|E]; [lia|].
      rewrite Z.rem_mod_nonneg in E by lia. Z.div_mod_to_equations. lia.
    + destruct (Z.eqb_spec (Z.rem q 2) 0) as [E|E].
      * rewrite Z.rem_mod_nonneg in E by lia.
        assert (q + 2 <= 2 ^ Z.of_nat (D - level)) by (Z.div_mod_to_equations; lia).
        nia.
      * nia.
    + intros j Hj. apply stored_insert. intros Hij. subst j. fold q in Hj.
      by apply (sibling_neq q).
  - fold q. replace (q / 2) with (i / 2 ^ Z.of_nat (S level)); [apply IH; lia|].
    apply div_pow2_succ.
Qed.

End Poseidon.

End TreeFacts.

Module SessionFacts.

Import JsFacts StatefulFacts CryptoUtils CryptoFacts MerkleTree Accumulator KeyFacts.
Import MerkleFacts Session TreeFacts.

Section Poseidon.

Variable poseidon : list Z -> list Byte.byte.

Local Abbreviation zero := (zero_value poseidon).

Lemma well_formed_cons (c : TreeCall) (calls : list TreeCall) :
  well_formed (c :: calls) -> well_formed calls.
Proof. intros H i x Hin. apply (H i). by right. Qed.

Lemma call_spec (c : TreeCall) (t : MerkleTree) :
  tree_inv poseidon t ->
  (forall i x, c = CallInsert i x -> convertible x) ->
  exists t', call poseidon c t = (Return tt, t')
             /\ tree_inv poseidon t' /\ levels t' = levels t
             /\ leaves t' = written [c] (leaves t).
Proof.
  intros Hinv Hc. destruct c as [i x| |i]; simpl.
  - destruct (insert_spec poseidon i x t Hinv (Hc i x eq_refl)) as (t' & R & ? & ? & ?).
    by exists t'.
  - destruct (getRoot_spec poseidon t Hinv) as (t' & R & ? & ? & ?).
    exists t'. by rewrite (st_bind_return _ _ _ _ _ R).
  - destruct (generatePath_spec poseidon i t Hinv) as (t' & R & ? & ? & ?).
    exists t'. by rewrite (st_bind_return _ _ _ _ _ R).
Qed.

Lemma written_cons (c : TreeCall) (calls : list TreeCall) (lv : gmap Z string) :
  written (c :: calls) lv = written calls (written [c] lv).
Proof. by destruct c. Qed.

(** A well-formed sequence of calls returns, and leaves the tree with the
    leaves it has written and a consistent cache. *)
Lemma run_spec (calls : list TreeCall) (t : MerkleTree) :
  tree_inv poseidon t -> well_formed calls ->
  exists t', run poseidon calls t = (Return tt, t')
             /\ tree_inv poseidon t' /\ levels t' = levels t
             /\ leaves t' = written calls (leaves t).
Proof.
  revert t. induction calls as [|c calls IH]; intros t Hinv Hwf.
  - by exists t.
  - destruct (call_spec c t Hinv) as (t1 & R1 & Hinv1 & Hn1 & Hl1).
    { intros i x ->. apply (Hwf i). by left. }
    destruct (IH t1 Hinv1 (well_formed_cons _ _ Hwf)) as (t2 & R2 & Hinv2 & Hn2 & Hl2).
    exists t2. cbn [run]. rewrite (st_bind_return _ _ _ _ _ R1).
    split; [done|]. split; [done|]. split; [congruence|].
    rewrite Hl2, Hl1. symmetry. apply written_cons.
Qed.

Lemma run_new (depth : nat) (calls : list TreeCall) :
  well_formed calls ->
  exists t, run poseidon calls (MerkleTree.new depth) = (Return tt, t)
            /\ tree_inv poseidon t /\ levels t = depth
            /\ leaves t = written calls ∅.
Proof. intros Hwf. by apply (run_spec calls (MerkleTree.new depth) (tree_inv_new poseidon depth)). Qed.

Lemma node_str_ext (lv lv' : gmap Z string) (level : nat) (idx : Z) :
  (forall j, stored lv j = stored lv' j) ->
  node_str poseidon lv zero level idx = node_str poseidon lv' zero level idx.
Proof. intros H. unfold node_str. by rewrite (node_hash_ext poseidon lv lv'). Qed.

Lemma index_at_root (i : Z) (n : nat) : 0 <= i < 2 ^ Z.of_nat n -> i / 2 ^ Z.of_nat n = 0.
Proof. intros H. by apply Z.div_small. Qed.

(** In a tree of at most 53 levels the path of leaf [i], generated before
    leaf [i] is set, climbs from the new leaf to the new root. *)
Lemma climb_after_insert (lv : gmap Z string) (n : nat) (i : Z) (c : string) :
  (n <= 53)%nat -> leaves_wf (<[i := c]> lv) -> 0 <= i < 2 ^ Z.of_nat n ->
  verifyPath_loop poseidon (path_elems poseidon lv zero n 0 i) 0 (path_dirs n i)
    (node_str poseidon (<[i := c]> lv) zero 0 i)
  = Return (node_str poseidon (<[i := c]> lv) zero n 0).
Proof.
  intros Hn Hwf Hi.
  assert (Hpow : 2 ^ Z.of_nat n <= 2 ^ 53) by (apply Z.pow_le_mono_r; lia).
  pose proof (climb_path poseidon _ n 0 i [] Hwf ltac:(lia)) as Hclimb.
  simpl length in Hclimb. simpl app in Hclimb. simpl Nat.add in Hclimb.
  rewrite index_at_root in Hclimb by done. rewrite <- Hclimb. f_equal.
  pose proof (path_elems_insert poseidon lv zero i c n n 0 Hn Hi ltac:(lia)) as E.
  simpl Z.of_nat in E. rewrite Z.pow_0_r, Z.div_1_r in E. by rewrite E.
Qed.

Lemma leaves_wf_insert (lv : gmap Z string) (i : Z) (c : string) :
  leaves_wf lv -> convertible c -> leaves_wf (<[i := c]> lv).
Proof.
  intros Hwf Hc j x. destruct (decide (i = j)) as [->|Hne].
  - rewrite lookup_insert_eq. by intros [= <-].
  - rewrite lookup_insert_ne by done. apply Hwf.
Qed.

End Poseidon.

Lemma path_dirs_length (n : nat) (index : Z) : length (path_dirs n index) = n.
Proof. revert index. induction n as [|n IH]; intros index; simpl; by rewrite ?IH. Qed.

Lemma path_elems_length (poseidon : list Z -> list Byte.byte) (lv : gmap Z string) (z : string)
  (n level : nat) (index : Z) :
  length (path_elems poseidon lv z n level index) = n.
Proof. revert level index. induction n as [|n IH]; intros level index; simpl; by rewrite ?IH. Qed.

Lemma path_dirs_lookup (n k : nat) (index : Z) :
  0 <= index -> (k < n)%nat ->
  path_dirs n index !! k = Some ((index / 2 ^ Z.of_nat k) mod 2).
Proof.
  revert k index. induction n as [|n IH]; intros k index Hi Hk; [lia|].
  destruct k as [|k]; simpl path_dirs.
  - simpl. rewrite Z.div_1_r, Z.rem_mod_nonneg by lia. reflexivity.
  - change ((Z.rem index 2 :: path_dirs n (index / 2)) !! S k)
      with (path_dirs n (index / 2) !! k).
    rewrite IH by (try lia; apply Z.div_pos; lia). f_equal. f_equal.
    rewrite Nat2Z.inj_succ, Z.pow_succ_r by lia.
    rewrite Z.div_div; [done|lia|]. apply Z.pow_pos_nonneg; lia.
Qed.

(** The directions of a path, packed as the circuits pack them, from bit
    [k] on. *)
Lemma packed_dirs (n k : nat) (index : Z) :
  0 <= index ->
  fold_right (fun '(i, b) acc => Circuits.fadd (Circuits.fmul b (2 ^ Z.of_nat i)) acc) 0
    (combine (seq k n) (path_dirs n index))
  = (2 ^ Z.of_nat k * (index mod 2 ^ Z.of_nat n)) mod Circuits.p.
Proof.
  revert k index. induction n as [|n IH]; intros k index Hi.
  - simpl. by rewrite Z.mod_1_r, Z.mul_0_r.
  - cbn [seq path_dirs combine fold_right].
    rewrite IH by (apply Z.div_pos; lia).
    unfold Circuits.fadd, Circuits.fmul. rewrite <- Zplus_mod. f_equal.
    rewrite (Nat2Z.inj_succ n), (Z.pow_succ_r 2 (Z.of_nat n)) by lia.
    rewrite (Z.rem_mul_r index 2 (2 ^ Z.of_nat n)) by (try lia; apply Z.pow_pos_nonneg; lia).
    rewrite Z.rem_mod_nonneg by lia.
    rewrite (Nat2Z.inj_succ k), (Z.pow_succ_r 2 (Z.of_nat k)) by lia. ring.
Qed.

Lemma indexVal_path_dirs (n : nat) (index : Z) :
  0 <= index < 2 ^ Z.of_nat n -> 2 ^ Z.of_nat n <= Circuits.p ->
  Circuits.indexVal (path_dirs n index) = index.
Proof.
  intros Hi Hp. unfold Circuits.indexVal. rewrite path_dirs_length, packed_dirs by lia.
  simpl Z.of_nat at 1. rewrite Z.pow_0_r, Z.mul_1_l.
  rewrite (Z.mod_small index) by lia. apply Z.mod_small. lia.
Qed.

End SessionFacts.

Module SessionProperties.

Import JsFacts StatefulFacts CryptoUtils CryptoFacts MerkleTree Accumulator KeyFacts.
Import MerkleFacts Session TreeFacts SessionFacts ByteHashFacts.

(** X4. The root depends only on the non-empty leaves that are stored: two
    sequences of [insert], [getRoot] and [generatePath] calls on new trees of
    the same depth, after which every leaf position holds the same non-empty
    string or none, yield the same root. So reads and the node cache never
    change a later root, the order of insertions at different positions does
    not matter, the last insertion at a position wins, and inserting the
    empty string is the same as never inserting. *)
Theorem root_determined_by_stored_leaves (poseidon : list Z -> list Byte.byte) (depth : nat)
  (calls1 calls2 : list TreeCall) :
  well_formed calls1 -> well_formed calls2 ->
  (forall i, stored (written calls1 ∅) i = stored (written calls2 ∅) i) ->
  exists root,
    fst ((run poseidon calls1 ;;; getRoot poseidon) (MerkleTree.new depth)) = Return root
    /\ fst ((run poseidon calls2 ;;; getRoot poseidon) (MerkleTree.new depth)) = Return root.
Proof.
  intros Hwf1 Hwf2 Hsame.
  destruct (run_new poseidon depth calls1 Hwf1) as (t1 & R1 & Hinv1 & Hn1 & Hl1).
  destruct (run_new poseidon depth calls2 Hwf2) as (t2 & R2 & Hinv2 & Hn2 & Hl2).
  destruct (getRoot_spec poseidon t1 Hinv1) as (t1' & G1 & _).
  destruct (getRoot_spec poseidon t2 Hinv2) as (t2' & G2 & _).
  exists (node_str poseidon (leaves t1) (zero_value poseidon) (levels t1) 0).
  rewrite (st_bind_return _ _ _ _ _ R1), G1, (st_bind_return _ _ _ _ _ R2), G2.
  split; [reflexivity|]. simpl. f_equal. rewrite Hn1, Hn2, Hl1, Hl2.
  symmetry. by apply node_str_ext.
Qed.

Lemma root_determined_by_stored_leaves_witness :
  exists root,
    fst ((run ByteHash.hash
            [CallInsert 0 "0x5"; CallGetRoot; CallInsert 1 "0x7"; CallGeneratePath 1;
             CallInsert 0 ""; CallInsert 2 "0x8"; CallInsert 2 "0x9"] ;;;
          getRoot ByteHash.hash) (MerkleTree.new 3)) = Return root
    /\ fst ((run ByteHash.hash [CallInsert 2 "0x9"; CallInsert 1 "0x7"] ;;;
             getRoot ByteHash.hash) (MerkleTree.new 3)) = Return root.
Proof.
  apply (root_determined_by_stored_leaves ByteHash.hash 3
           [CallInsert 0 "0x5"; CallGetRoot; CallInsert 1 "0x7"; CallGeneratePath 1;
            CallInsert 0 ""; CallInsert 2 "0x8"; CallInsert 2 "0x9"]
           [CallInsert 2 "0x9"; CallInsert 1 "0x7"]).
  - intros i c Hin. repeat (apply elem_of_cons in Hin as [Hin|Hin];
      [try discriminate; injection Hin as -> ->; eexists; vm_compute; reflexivity|]).
    by apply elem_of_nil in Hin.
  - intros i c Hin. repeat (apply elem_of_cons in Hin as [Hin|Hin];
      [try discriminate; injection Hin as -> ->; eexists; vm_compute; reflexivity|]).
    by apply elem_of_nil in Hin.
  - intros i. unfold stored. simpl.
    destruct (decide (i = 2)) as [->|]; [reflexivity|].
    destruct (decide (i = 1)) as [->|]; [reflexivity|].
    destruct (decide (i = 0)) as [->|]; [reflexivity|].
    by rewrite !lookup_insert_ne, lookup_empty by done.
Defined.

(** X5. The order of [ProofSightSDK.deposit], in a tree of at most 53
    levels (where every node index is an exact double): a path generated for
    a leaf position before the commitment is inserted there has [levels]
    siblings and verifies the commitment against the root read after the
    insertion. *)
Theorem deposit_path_verifies (poseidon : list Z -> list Byte.byte) (depth : nat)
  (calls : list TreeCall) (i : Z) (c : string) :
  (depth <= 53)%nat ->
  well_formed calls -> 0 <= i < 2 ^ Z.of_nat depth -> c <> "" -> convertible c ->
  exists path root t,
    (run poseidon calls ;;; deposit_steps poseidon i c) (MerkleTree.new depth)
    = (Return (path, root), t)
    /\ length (pathElements path) = depth
    /\ fst (verifyPath poseidon c (pathElements path) (pathIndices path) root t)
       = Return true.
Proof.
  intros Hdepth Hwf Hi Hne Hc.
  destruct (run_new poseidon depth calls Hwf) as (t0 & R0 & Hinv0 & Hn0 & Hl0).
  destruct (generatePath_spec poseidon i t0 Hinv0) as (t1 & R1 & Hinv1 & Hl1 & Hn1).
  destruct (insert_spec poseidon i c t1 Hinv1 Hc) as (t2 & R2 & Hinv2 & Hl2 & Hn2).
  destruct (getRoot_spec poseidon t2 Hinv2) as (t3 & R3 & Hinv3 & Hl3 & Hn3).
  eexists _, _, t3. split.
  { rewrite (st_bind_return _ _ _ _ _ R0). unfold deposit_steps.
    rewrite (st_bind_return _ _ _ _ _ R1). cbv beta.
    rewrite (st_bind_return _ _ _ _ _ R2). cbv beta.
    rewrite (st_bind_return _ _ _ _ _ R3). reflexivity. }
  cbn [pathElements pathIndices]. split.
  { rewrite Hn0. clear. generalize 0%nat. generalize i.
    induction depth as [|n IH]; intros j level; [reflexivity|]. simpl. by rewrite IH. }
  rewrite verifyPath_result.
  assert (Hwf' : leaves_wf (<[i := c]> (leaves t0))).
  { apply leaves_wf_insert; [apply Hinv0|done]. }
  pose proof (climb_after_insert poseidon (leaves t0) depth i c Hdepth Hwf' Hi) as Hclimb.
  rewrite (node_str_leaf poseidon _ i c) in Hclimb by (by rewrite ?lookup_insert_eq).
  rewrite Hn0, Hclimb, Hl2, Hl1, Hn2, Hn1, Hn0. cbn [Js.bind].
  by rewrite String.eqb_refl.
Qed.

Lemma deposit_path_verifies_witness :
  exists path root t,
    (run ByteHash.hash [CallInsert 0 "0x5"; CallGetRoot] ;;;
     deposit_steps ByteHash.hash 1 "0x7") (MerkleTree.new 3)
    = (Return (path, root), t)
    /\ length (pathElements path) = 3%nat
    /\ fst (verifyPath ByteHash.hash "0x7" (pathElements path) (pathIndices path) root t)
       = Return true.
Proof.
  apply (deposit_path_verifies ByteHash.hash 3 [CallInsert 0 "0x5"; CallGetRoot] 1 "0x7").
  - lia.
  - intros i c Hin. repeat (apply elem_of_cons in Hin as [Hin|Hin];
      [try discriminate; injection Hin as -> ->; eexists; vm_compute; reflexivity|]).
    by apply elem_of_nil in Hin.
  - simpl. lia.
  - discriminate.
  - eexists. vm_compute. reflexivity.
Defined.

(** X7. For a non-negative index [generatePath] returns [levels] siblings
    and [levels] directions; direction [k] is bit [k] of the index, and for
    an index below [2^levels] the circuits' packing [indexVal] of the
    directions is the index. *)
Theorem generatePath_shape (poseidon : list Z -> list Byte.byte) (depth : nat)
  (calls : list TreeCall) (index : Z) :
  well_formed calls -> 0 <= index ->
  exists path t,
    (run poseidon calls ;;; generatePath poseidon index) (MerkleTree.new depth)
    = (Return path, t)
    /\ length (pathElements path) = depth
    /\ length (pathIndices path) = depth
    /\ (forall k, (k < depth)%nat ->
          pathIndices path !! k = Some ((index / 2 ^ Z.of_nat k) mod 2))
    /\ (index < 2 ^ Z.of_nat depth -> 2 ^ Z.of_nat depth <= Circuits.p ->
        Circuits.indexVal (pathIndices path) = index).
Proof.
  intros Hwf Hi.
  destruct (run_new poseidon depth calls Hwf) as (t0 & R0 & Hinv0 & Hn0 & Hl0).
  destruct (generatePath_spec poseidon index t0 Hinv0) as (t1 & R1 & Hinv1 & Hl1 & Hn1).
  eexists _, t1. split.
  { rewrite (st_bind_return _ _ _ _ _ R0). exact R1. }
  cbn [pathElements pathIndices]. rewrite Hn0.
  split; [apply path_elems_length|]. split; [apply path_dirs_length|].
  split; [intros k Hk; by apply path_dirs_lookup|].
  intros Hlt Hp. apply indexVal_path_dirs; lia.
Qed.

Lemma generatePath_shape_witness :
  exists path t,
    (run ByteHash.hash [CallInsert 5 "0x7"] ;;; generatePath ByteHash.hash 5)
      (MerkleTree.new 3)
    = (Return path, t)
    /\ length (pathElements path) = 3%nat
    /\ length (pathIndices path) = 3%nat
    /\ (forall k, (k < 3)%nat -> pathIndices path !! k = Some ((5 / 2 ^ Z.of_nat k) mod 2))
    /\ (5 < 2 ^ Z.of_nat 3 -> 2 ^ Z.of_nat 3 <= Circuits.p ->
        Circuits.indexVal (pathIndices path) = 5).
Proof.
  apply (generatePath_shape ByteHash.hash 3 [CallInsert 5 "0x7"] 5).
  - intros i c Hin. repeat (apply elem_of_cons in Hin as [Hin|Hin];
      [try discriminate; injection Hin as -> ->; eexists; vm_compute; reflexivity|]).
    by apply elem_of_nil in Hin.
  - lia.
Defined.

(** X8. [verifyPath] reads a direction only through [=== 1]: two direction
    arrays that hold 1 at the same positions below the number of siblings
    give the same result and state. A missing direction, 0, 2 or -1 all mean
    left, and directions beyond the siblings are ignored. *)
Theorem verifyPath_direction_reading (poseidon : list Z -> list Byte.byte) (leaf : string)
  (elems : list string) (dirs dirs' : list Z) (root : string) (t : MerkleTree) :
  (forall k, (k < length elems)%nat -> dirs !! k = Some 1 <-> dirs' !! k = Some 1) ->
  verifyPath poseidon leaf elems dirs root t = verifyPath poseidon leaf elems dirs' root t.
Proof.
  intros Hdirs. unfold verifyPath.
  assert (Hloop : forall rest i cur,
             (forall k, (i <= k < i + length rest)%nat ->
                        dirs !! k = Some 1 <-> dirs' !! k = Some 1) ->
             verifyPath_loop poseidon rest i dirs cur
             = verifyPath_loop poseidon rest i dirs' cur).
  { induction rest as [|sib rest IH]; intros i cur H; [reflexivity|].
    cbn [verifyPath_loop].
    assert (E : match dirs !! i with Some 1 => true | _ => false end
                = match dirs' !! i with Some 1 => true | _ => false end).
    { specialize (H i). simpl in H. 
      destruct (dirs !! i) as [[|[| |]|]|] eqn:E1; destruct (dirs' !! i) as [[|[| |]|]|] eqn:E2;
        try reflexivity; exfalso; (assert (Hi : (i <= i < i + S (length rest))%nat) by lia);
        destruct (H Hi) as [H1 H2]; (by specialize (H1 eq_refl)) || (by specialize (H2 eq_refl)). }
    rewrite E.
    destruct (if match dirs' !! i with Some 1 => true | _ => false end
              then hashNodes poseidon sib cur else hashNodes poseidon cur sib); [|reflexivity].
    cbn [Js.bind]. apply IH. intros k Hk. apply H. simpl. lia. }
  rewrite (Hloop elems 0%nat leaf); [reflexivity|].
  intros k Hk. apply Hdirs. lia.
Qed.

Lemma verifyPath_direction_reading_witness :
  verifyPath ByteHash.hash "0x1" ["0x2"; "0x3"; "0x4"] [1; 2; 0; 1]
    "0xabc" (MerkleTree.new 3)
  = verifyPath ByteHash.hash "0x1" ["0x2"; "0x3"; "0x4"] [1] "0xabc" (MerkleTree.new 3).
Proof.
  apply (verifyPath_direction_reading ByteHash.hash "0x1" ["0x2"; "0x3"; "0x4"]
           [1; 2; 0; 1] [1] "0xabc" (MerkleTree.new 3)).
  intros [|[|[|k]]] Hk; simpl in *; try lia; split; intros H; done.
Defined.

End SessionProperties.

(** ** Conversions of [CryptoUtils] *)

Module EncodingFacts.

Import JsFacts CryptoUtils CryptoFacts Bytes.

Lemma hex_of_bytes_cons (b : Byte.byte) (bs : list Byte.byte) :
  hex_of_bytes (b :: bs) = hex_of_byte b +:+ hex_of_bytes bs.
Proof. reflexivity. Qed.

Lemma length_hex_of_byte (b : Byte.byte) (rest : string) :
  String.length (hex_of_byte b +:+ rest) = S (S (String.length rest)).
Proof. by rewrite length_append. Qed.

Lemma length_hex_of_bytes (bs : list Byte.byte) :
  String.length (hex_of_bytes bs) = (2 * length bs)%nat.
Proof.
  induction bs as [|b bs IH]; [reflexivity|].
  rewrite hex_of_bytes_cons, length_hex_of_byte, IH. simpl. lia.
Qed.

Lemma toLowerCase_hex_of_byte (b : Byte.byte) (rest : string) :
  toLowerCase (hex_of_byte b +:+ rest) = hex_of_byte b +:+ toLowerCase rest.
Proof. destruct b; reflexivity. Qed.

Lemma toLowerCase_hex_of_bytes (bs : list Byte.byte) :
  toLowerCase (hex_of_bytes bs) = hex_of_bytes bs.
Proof.
  induction bs as [|b bs IH]; [reflexivity|].
  by rewrite hex_of_bytes_cons, toLowerCase_hex_of_byte, IH.
Qed.

Lemma hex_digit_hex_char (n : N) : (n < 16)%N -> hex_digit (hex_char n) = Some n.
Proof.
  intros H. destruct n as [|q]; [reflexivity|].
  do 4 (try destruct q as [q|q|]); try reflexivity; lia.
Qed.

Lemma digits_value_hex_of_byte (b : Byte.byte) (rest : string) (acc : N) :
  digits_value 16 hex_digit (hex_of_byte b +:+ rest) acc
  = digits_value 16 hex_digit rest (Byte.to_N b + 256 * acc)%N.
Proof.
  unfold hex_of_byte. set (n := Byte.to_N b).
  assert (Hn : (n < 256)%N) by (unfold n; destruct b; reflexivity).
  rewrite !append_cons, append_empty_l. cbn [digits_value].
  rewrite !hex_digit_hex_char.
  - f_equal. pose proof (N.div_mod n 16 ltac:(done)). lia.
  - apply N.mod_lt. done.
  - apply N.Div0.div_lt_upper_bound. lia.
Qed.

Lemma digits_value_hex_of_bytes (bs : list Byte.byte) (acc : N) :
  digits_value 16 hex_digit (hex_of_bytes bs) acc = Some (bytes_value bs acc).
Proof.
  revert acc. induction bs as [|b bs IH]; intros acc; [reflexivity|].
  by rewrite hex_of_bytes_cons, digits_value_hex_of_byte, IH.
Qed.

End EncodingFacts.

Module ConversionFacts.

Import JsFacts CryptoUtils CryptoFacts Bytes EncodingFacts.

Lemma startsWith_0x_inv (s : string) :
  startsWith s "0x" = true -> exists r, s = String "0" (String "x" r).
Proof.
  unfold startsWith. destruct s as [|c [|c' r]]; cbn [String.prefix].
  - discriminate.
  - destruct (ascii_dec "0" c); discriminate.
  - destruct (ascii_dec "0" c) as [<-|]; [|discriminate].
    destruct (ascii_dec "x" c') as [<-|]; [|discriminate]. by eexists.
Qed.

Lemma startsWith_all_hex (s : string) : all_hex s = true -> startsWith s "0x" = false.
Proof.
  intros Hhex. destruct (startsWith s "0x") eqn:E; [|reflexivity].
  apply startsWith_0x_inv in E as [r ->]. discriminate.
Qed.

Lemma toBigInt_unprefixed_hex (s : string) :
  s <> "" -> all_hex s = true ->
  toBigInt (InString s) = Return (Z.of_N (HexString.Raw.to_N s 0)).
Proof.
  intros Hne Hhex. unfold toBigInt. rewrite startsWith_all_hex by done.
  change ("0x" +:+ s) with (String "0" (String "x" s)).
  by rewrite BigInt_of_prefixed_hex.
Qed.

Lemma trimEnd_head (c : ascii) (r : string) :
  trimEnd (String c r) = "" \/ exists r', trimEnd (String c r) = String c r'.
Proof.
  simpl. destruct (trimEnd r).
  - destruct (is_whitespace c); [by left|right; by eexists].
  - right. by eexists.
Qed.

Lemma StringToBigInt_malformed (rest : string) :
  (forall c r, rest = String c r -> hex_digit c = None) ->
  StringToBigInt (String "0" (String "x" rest)) = None.
Proof.
  intros Hrest. unfold StringToBigInt, trim.
  change (trimStart (String "0" (String "x" rest))) with (String "0" (String "x" rest)).
  rewrite !trimEnd_cons by reflexivity.
  destruct rest as [|c r]; [reflexivity|].
  destruct (trimEnd_head c r) as [-> | [r' ->]]; [reflexivity|].
  simpl. by rewrite (Hrest c r eq_refl).
Qed.

Lemma parseInt16_malformed (rest : string) :
  (forall c r, rest = String c r -> hex_digit c = None) ->
  parseInt16 (String "0" (String "x" rest)) = NumNaN.
Proof.
  intros Hrest. unfold parseInt16.
  change (trimStart (String "0" (String "x" rest))) with (String "0" (String "x" rest)).
  cbv beta iota zeta.
  destruct rest as [|c r]; [reflexivity|].
  simpl. by rewrite (Hrest c r eq_refl).
Qed.

Lemma toBigInt_malformed (rest : string) :
  (forall c r, rest = String c r -> hex_digit c = None) ->
  toBigInt (InString (String "0" (String "x" rest))) = Return 0.
Proof.
  intros Hrest. unfold toBigInt. rewrite startsWith_0x.
  unfold BigInt_of_string. rewrite StringToBigInt_malformed by done.
  by rewrite parseInt16_malformed.
Qed.

End ConversionFacts.

Module CryptoProperties.

Import JsFacts CryptoUtils CryptoFacts Accumulator Bytes EncodingFacts ConversionFacts.

(** X11. [generateSecret] returns two lower-case hexadecimal digits per
    random byte (64 characters for 32 bytes), and [poseidonHash] reads that
    string as the integer the bytes denote, most significant byte first. *)
Theorem generateSecret_encoding (randomBytes : list Byte.byte) :
  String.length (generateSecret randomBytes) = (2 * length randomBytes)%nat
  /\ all_hex (generateSecret randomBytes) = true
  /\ toLowerCase (generateSecret randomBytes) = generateSecret randomBytes
  /\ toBigInt (InString (generateSecret randomBytes))
     = Return (Z.of_N (bytes_value randomBytes 0)).
Proof.
  unfold generateSecret.
  split; [apply length_hex_of_bytes|].
  split; [apply SDKProperties.all_hex_hex_of_bytes|].
  split; [apply toLowerCase_hex_of_bytes|].
  destruct randomBytes as [|b bs]; [reflexivity|].
  rewrite toBigInt_unprefixed_hex.
  - f_equal. f_equal.
    pose proof (digits_value_hex_of_bytes (b :: bs) 0) as H.
    rewrite digits_value_to_N in H by apply SDKProperties.all_hex_hex_of_bytes.
    by injection H.
  - apply SDKProperties.hex_of_bytes_nonempty.
  - apply SDKProperties.all_hex_hex_of_bytes.
Qed.

(** X12. For a Poseidon instance that returns 32 bytes, as circomlibjs
    does, every string [poseidonHash] returns is [0x] followed by the decimal
    values of the 32 bytes joined by commas (behind one [0] when all bytes
    are below 10): [toString(16)] on a [Uint8Array] ignores the radix. The
    text is not a string of hexadecimal digits, [BigInt] refuses it, and
    [poseidonHash] reads it back through [parseInt] as the decimal digits of
    the first byte taken in base 16, a number up to 0x255 = 597. *)
Theorem poseidonHash_output_format (poseidon : list Z -> list Byte.byte)
  (inputs : list HashInput) (s : string) :
  (forall l, length (poseidon l) = 32%nat) ->
  poseidonHash poseidon inputs = Return s ->
  exists t text,
    mapM toBigInt inputs = Return t
    /\ text = padStart 64 "0" (Uint8Array_toString (poseidon t))
    /\ s = "0x" +:+ text
    /\ all_hex text = false
    /\ BigInt_of_string s = Throw (SyntaxError ("Cannot convert " +:+ s +:+ " to a BigInt"))
    /\ toBigInt (InString s) = Return (leading_operand (poseidon t))
    /\ 0 <= leading_operand (poseidon t) <= 597.
Proof.
  intros Hlen H. apply poseidonHash_inv in H as (t & Ht & ->).
  exists t, (padStart 64 "0" (Uint8Array_toString (poseidon t))).
  split; [done|]. split; [done|]. split; [done|].
  pose proof (Hlen t) as Hl. split.
  { destruct (poseidon t) as [|b [|b' rest]]; [done|simpl in Hl; lia|].
    unfold padStart. rewrite Uint8Array_toString_cons.
    rewrite !all_hex_append, all_hex_repeat_zero, byte_text_hex. reflexivity. }
  split; [apply BigInt_of_string_hashToHex; lia|].
  split; [apply toBigInt_hashToHex|apply leading_operand_bound].
Qed.

Lemma poseidonHash_output_format_witness :
  exists t text,
    mapM toBigInt [InNumber (NumInt 123)] = Return t
    /\ text = padStart 64 "0" (Uint8Array_toString (ByteHash.hash t))
    /\ hashToHex (ByteHash.hash [123]) = "0x" +:+ text
    /\ all_hex text = false
    /\ BigInt_of_string (hashToHex (ByteHash.hash [123]))
       = Throw (SyntaxError ("Cannot convert " +:+ hashToHex (ByteHash.hash [123])
                             +:+ " to a BigInt"))
    /\ toBigInt (InString (hashToHex (ByteHash.hash [123])))
       = Return (leading_operand (ByteHash.hash t))
    /\ 0 <= leading_operand (ByteHash.hash t) <= 597.
Proof.
  apply (poseidonHash_output_format ByteHash.hash [InNumber (NumInt 123)]
           (hashToHex (ByteHash.hash [123]))).
  - apply ByteHashFacts.hash_length.
  - reflexivity.
Defined.

(** X13. A string input without [0x] that consists of hexadecimal digits
    is read in base 16, also when all its characters are decimal digits: it
    hashes like the number with that hexadecimal value and like the same
    string behind [0x]. So the string of the digits 1 and 0 hashes as 16, not
    as the number 10. *)
Theorem unprefixed_digits_hashed_as_hex (poseidon : list Z -> list Byte.byte) (s : string) :
  s <> "" -> all_hex s = true ->
  toBigInt (InString s) = Return (Z.of_N (HexString.Raw.to_N s 0))
  /\ poseidonHash poseidon [InString s]
     = poseidonHash poseidon [InNumber (NumInt (Z.of_N (HexString.Raw.to_N s 0)))]
  /\ poseidonHash poseidon [InString s] = poseidonHash poseidon [InString ("0x" +:+ s)].
Proof.
  intros Hne Hhex. pose proof (toBigInt_unprefixed_hex s Hne Hhex) as H.
  split; [exact H|]. split.
  - unfold poseidonHash. cbn [mapM]. by rewrite H.
  - unfold poseidonHash. cbn [mapM]. rewrite H.
    change ("0x" +:+ s) with (String "0" (String "x" s)).
    unfold toBigInt. rewrite startsWith_0x. by rewrite BigInt_of_prefixed_hex.
Qed.

Lemma unprefixed_digits_hashed_as_hex_witness :
  toBigInt (InString "10") = Return (Z.of_N (HexString.Raw.to_N "10" 0))
  /\ poseidonHash ByteHash.hash [InString "10"]
     = poseidonHash ByteHash.hash [InNumber (NumInt (Z.of_N (HexString.Raw.to_N "10" 0)))]
  /\ poseidonHash ByteHash.hash [InString "10"]
     = poseidonHash ByteHash.hash [InString ("0x" +:+ "10")].
Proof.
  apply (unprefixed_digits_hashed_as_hex ByteHash.hash "10"); [discriminate|reflexivity].
Defined.

(** X14. A string input [0x...] whose first character after the prefix is
    not a hexadecimal digit, or that is just [0x], does not make
    [poseidonHash] throw: [parseInt(input, 16) || 0] turns it into 0, so it
    hashes like the number 0. *)
Theorem malformed_hex_hashed_as_zero (poseidon : list Z -> list Byte.byte) (rest : string) :
  (forall c r, rest = String c r -> hex_digit c = None) ->
  toBigInt (InString ("0x" +:+ rest)) = Return 0
  /\ poseidonHash poseidon [InString ("0x" +:+ rest)]
     = poseidonHash poseidon [InNumber (NumInt 0)].
Proof.
  intros Hrest. change ("0x" +:+ rest) with (String "0" (String "x" rest)).
  pose proof (toBigInt_malformed rest Hrest) as H. split; [exact H|].
  unfold poseidonHash. cbn [mapM]. by rewrite H.
Qed.

Lemma malformed_hex_hashed_as_zero_witness :
  toBigInt (InString ("0x" +:+ "not hex")) = Return 0
  /\ poseidonHash ByteHash.hash [InString ("0x" +:+ "not hex")]
     = poseidonHash ByteHash.hash [InNumber (NumInt 0)].
Proof.
  apply (malformed_hex_hashed_as_zero ByteHash.hash "not hex").
  intros c r [= <- _]. reflexivity.
Defined.

End CryptoProperties.

(** ** The life cycle of the SDK *)

Module LifecycleFacts.

Import JsFacts StatefulFacts CryptoUtils CryptoFacts MerkleTree Accumulator MerkleFacts.
Import ProofSightSDK Client Bytes EncodingFacts ConversionFacts SDKProperties.

Lemma secret_value (randomBytes : list Byte.byte) :
  toBigInt (InString (generateSecret randomBytes))
  = Return (Z.of_N (bytes_value randomBytes 0)).
Proof.
  unfold generateSecret. destruct randomBytes as [|b bs]; [reflexivity|].
  rewrite toBigInt_unprefixed_hex.
  - f_equal. f_equal.
    pose proof (digits_value_hex_of_bytes (b :: bs) 0) as H.
    rewrite digits_value_to_N in H by apply all_hex_hex_of_bytes.
    by injection H.
  - apply hex_of_bytes_nonempty.
  - apply all_hex_hex_of_bytes.
Qed.

Lemma checkInit_on (sdk : ProofSightSDK) :
  initialized sdk = true -> checkInit sdk = (Return tt, sdk).
Proof. intros H. unfold checkInit. by rewrite H. Qed.

Lemma byte_to_N_bound (b : Byte.byte) : (Byte.to_N b < 256)%N.
Proof. destruct b; reflexivity. Qed.

Lemma bytes_value_inj (bs bs' : list Byte.byte) (acc acc' : N) :
  length bs = length bs' -> bytes_value bs acc = bytes_value bs' acc' ->
  bs = bs' /\ acc = acc'.
Proof.
  revert bs' acc acc'. induction bs as [|b bs IH]; intros [|b' bs'] acc acc' Hlen H;
    try discriminate; [done|].
  injection Hlen as Hlen. simpl in H. apply IH in H as [-> H]; [|done].
  pose proof (byte_to_N_bound b). pose proof (byte_to_N_bound b').
  assert (Byte.to_N b = Byte.to_N b' /\ acc = acc') as [Hb ->] by lia.
  by rewrite (byte_to_N_inj b b' Hb).
Qed.

Section Poseidon.

Variable poseidon : list Z -> list Byte.byte.

(** The states a series of deposits leaves an initialized SDK in. *)
Lemma deposits_spec (earlier : list (Z * list Byte.byte * Z)) (sdk : ProofSightSDK) :
  initialized sdk = true -> tree_inv poseidon (merkleTree sdk) ->
  exists sdk', deposits poseidon earlier sdk = (Return tt, sdk')
               /\ initialized sdk' = true /\ tree_inv poseidon (merkleTree sdk').
Proof.
  revert sdk. induction earlier as [|[[a bytes] now] rest IH]; intros sdk Hinit Hinv.
  - by exists sdk.
  - destruct (deposit_spec poseidon (NumInt a) a bytes now sdk Hinit Hinv eq_refl)
      as (s & sdk1 & _ & R1 & Hinit1 & Hinv1 & _).
    destruct (IH sdk1 Hinit1 Hinv1) as (sdk2 & R2 & Hinit2 & Hinv2).
    exists sdk2. cbn [deposits]. by rewrite (st_bind_return _ _ _ _ _ R1).
Qed.

Lemma deposits_fresh (network : string) (earlier : list (Z * list Byte.byte * Z)) :
  exists sdk, (initialize ;;; deposits poseidon earlier) (ProofSightSDK.new network)
              = (Return tt, sdk)
              /\ initialized sdk = true /\ tree_inv poseidon (merkleTree sdk).
Proof.
  destruct (deposits_spec earlier (snd (initialize (ProofSightSDK.new network))))
    as (sdk & R & Hinit & Hinv); [reflexivity|apply (tree_inv_new poseidon)|].
  exists sdk. split; [|done]. exact R.
Qed.

End Poseidon.

End LifecycleFacts.

Module LifecycleProperties.

Import JsFacts StatefulFacts CryptoUtils CryptoFacts MerkleTree Accumulator MerkleFacts.
Import ProofSightSDK Client Bytes EncodingFacts ConversionFacts SDKProperties.
Import LifecycleFacts ByteHashFacts.

(** X15. After [disconnect], and so before [initialize], every method of
    the SDK that calls [checkInit] throws the error [ProofSight SDK not
    initialized] and leaves the SDK unchanged. After [initialize],
    [getMarkets] and [getPositions] return the empty list, and the Merkle
    tree has come through [disconnect] and [initialize] unchanged. *)
Theorem methods_require_initialize (poseidon : list Z -> list Byte.byte) (sdk : ProofSightSDK)
  (amount : JsNumber) (randomBytes : list Byte.byte) (now : Z)
  (marketOptions : CreateMarketOptions) (positionOptions : CreatePositionOptions)
  (withdrawOptions : WithdrawOptions) (marketsQuery : GetMarketsOptions)
  (positionsQuery : GetPositionsOptions) :
  let off := snd (disconnect sdk) in
  let on := snd (initialize off) in
  let not_initialized := Error "ProofSight SDK not initialized" in
  deposit poseidon amount randomBytes now off = (Throw not_initialized, off)
  /\ createMarket marketOptions now off = (Throw not_initialized, off)
  /\ createPosition poseidon positionOptions randomBytes now off = (Throw not_initialized, off)
  /\ withdraw poseidon withdrawOptions randomBytes off = (Throw not_initialized, off)
  /\ getMarkets marketsQuery off = (Throw not_initialized, off)
  /\ getPositions positionsQuery off = (Throw not_initialized, off)
  /\ getMarkets marketsQuery on = (Return [], on)
  /\ getPositions positionsQuery on = (Return [], on)
  /\ merkleTree on = merkleTree sdk.
Proof. cbv zeta. repeat split. Qed.

(** X16. On an initialized SDK, after any series of deposits, [deposit]
    checks nothing but integrality: for every integral amount, negative or
    above 2^64 included, it returns the amount, the text [hashToHex] makes of
    the Poseidon output for [amount, secret, 0], with the secret the random
    bytes denote, and the signature [mock_tx_signature_] followed by the
    clock; for a fractional amount, [NaN] or an infinity it throws the
    [RangeError] of [BigInt], which names the number, and leaves the SDK
    unchanged. *)
Theorem deposit_accepts_exactly_integers (poseidon : list Z -> list Byte.byte)
  (network : string) (earlier : list (Z * list Byte.byte * Z)) (amount : JsNumber)
  (randomBytes : list Byte.byte) (now : Z) :
  let sdk := snd ((initialize ;;; deposits poseidon earlier) (ProofSightSDK.new network)) in
  match amount with
  | NumInt a =>
      exists sdk',
        deposit poseidon amount randomBytes now sdk
        = (Return {| deposit_amount := amount;
                     deposit_commitment :=
                       "0x" +:+ padStart 64 "0"
                         (Uint8Array_toString
                            (poseidon [a; Z.of_N (bytes_value randomBytes 0); 0]));
                     deposit_signature := "mock_tx_signature_" +:+ Number_toString now |},
           sdk')
  | _ =>
      deposit poseidon amount randomBytes now sdk
      = (Throw (RangeError ("The number " +:+ Number_text amount
                            +:+ " cannot be converted to a BigInt because it is not an integer")),
         sdk)
  end.
Proof.
  intros sdk.
  destruct (deposits_fresh poseidon network earlier) as (sdk0 & R & Hinit & Hinv).
  assert (Esdk : sdk = sdk0) by (unfold sdk; by rewrite R). rewrite Esdk. clear sdk Esdk.
  destruct amount as [a|text| |neg].
  - destruct (deposit_spec poseidon (NumInt a) a randomBytes now sdk0 Hinit Hinv eq_refl)
      as (s & sdk' & Hs & Rd & _).
    rewrite secret_value in Hs. injection Hs as <-. by exists sdk'.
  - unfold deposit. rewrite (st_bind_return _ _ _ _ _ (checkInit_on sdk0 Hinit)). reflexivity.
  - unfold deposit. rewrite (st_bind_return _ _ _ _ _ (checkInit_on sdk0 Hinit)). reflexivity.
  - unfold deposit. rewrite (st_bind_return _ _ _ _ _ (checkInit_on sdk0 Hinit)). reflexivity.
Qed.

(** X17. [withdraw] on an initialized SDK never reads or changes the Merkle
    tree: whatever has been deposited, for an integral amount it returns the
    amount, the signature [mock_withdraw_sig] and as nullifier the text of
    the Poseidon output for a fresh secret [s] and the number [poseidonHash]
    reads back from the commitment text of [amount, s, 0], which is the
    first byte of that hash with its decimal digits taken in base 16; for
    another amount it throws the [RangeError] of [BigInt]; the SDK is
    unchanged. *)
Theorem withdraw_needs_no_deposit (poseidon : list Z -> list Byte.byte)
  (sdk : ProofSightSDK) (options : WithdrawOptions) (randomBytes : list Byte.byte) :
  initialized sdk = true ->
  withdraw poseidon options randomBytes sdk
  = (match withdraw_amount options with
     | NumInt a =>
         let s := Z.of_N (bytes_value randomBytes 0) in
         Return {| result_amount := withdraw_amount options;
                   result_signature := "mock_withdraw_sig";
                   nullifier :=
                     hashToHex (poseidon [s; leading_operand (poseidon [a; s; 0])]) |}
     | _ => Throw (RangeError ("The number " +:+ Number_text (withdraw_amount options)
                               +:+ " cannot be converted to a BigInt because it is not an integer"))
     end, sdk).
Proof.
  intros Hinit. unfold withdraw.
  rewrite (st_bind_return _ _ _ _ _ (checkInit_on sdk Hinit)). cbv zeta.
  destruct (withdraw_amount options) as [a|text| |neg] eqn:Ea; try reflexivity.
  set (s := Z.of_N (bytes_value randomBytes 0)).
  assert (Hc : computeCommitment poseidon (NumInt a) (generateSecret randomBytes) (NumInt 0)
               = Return (hashToHex (poseidon [a; s; 0]))).
  { apply poseidonHash_returns. apply mapM_triple; [done|apply secret_value|done]. }
  rewrite (st_bind_lift _ _ _ _ Hc). cbv beta.
  assert (Hn : computeNullifier poseidon (generateSecret randomBytes)
                 (hashToHex (poseidon [a; s; 0]))
               = Return (hashToHex (poseidon [s; leading_operand (poseidon [a; s; 0])]))).
  { apply poseidonHash_returns. apply mapM_pair; [apply secret_value|].
    apply toBigInt_hashToHex. }
  rewrite (st_bind_lift _ _ _ _ Hn). reflexivity.
Qed.

Lemma withdraw_needs_no_deposit_witness :
  withdraw ByteHash.hash Scenario.withdraw_to_alice Scenario.some_bytes
    (snd (initialize (ProofSightSDK.new "devnet")))
  = (match withdraw_amount Scenario.withdraw_to_alice with
     | NumInt a =>
         let s := Z.of_N (bytes_value Scenario.some_bytes 0) in
         Return {| result_amount := withdraw_amount Scenario.withdraw_to_alice;
                   result_signature := "mock_withdraw_sig";
                   nullifier :=
                     hashToHex (ByteHash.hash
                                  [s; leading_operand (ByteHash.hash [a; s; 0])]) |}
     | _ => Throw (RangeError ("The number "
                               +:+ Number_text (withdraw_amount Scenario.withdraw_to_alice)
                               +:+ " cannot be converted to a BigInt because it is not an integer"))
     end, snd (initialize (ProofSightSDK.new "devnet"))).
Proof.
  exact (withdraw_needs_no_deposit ByteHash.hash
           (snd (initialize (ProofSightSDK.new "devnet")))
           Scenario.withdraw_to_alice Scenario.some_bytes eq_refl).
Defined.

(** X18. Two deposits of the same amount on a fresh SDK whose random bytes
    differ, and have the same length, use different secrets, and for a
    Poseidon instance that returns 32 bytes their commitments are the same
    text exactly when Poseidon gives the two triples [amount, secret, 0]
    the same bytes. *)
Theorem deposits_with_distinct_randomness (poseidon : list Z -> list Byte.byte)
  (network : string) (a : Z) (bytes1 bytes2 : list Byte.byte) (now1 now2 : Z) :
  (forall l, length (poseidon l) = 32%nat) ->
  length bytes1 = length bytes2 -> bytes1 <> bytes2 ->
  let s1 := Z.of_N (bytes_value bytes1 0) in
  let s2 := Z.of_N (bytes_value bytes2 0) in
  exists r1 r2 sdk1 sdk2,
    (initialize ;;; deposit poseidon (NumInt a) bytes1 now1) (ProofSightSDK.new network)
    = (Return r1, sdk1)
    /\ deposit poseidon (NumInt a) bytes2 now2 sdk1 = (Return r2, sdk2)
    /\ s1 <> s2
    /\ (deposit_commitment r1 = deposit_commitment r2
        <-> poseidon [a; s1; 0] = poseidon [a; s2; 0]).
Proof.
  intros Hlen32 Hlen Hdiff s1 s2.
  set (sdk0 := snd (initialize (ProofSightSDK.new network))).
  destruct (deposit_spec poseidon (NumInt a) a bytes1 now1 sdk0)
    as (s1' & sdk1 & Hs1 & R1 & Hinit1 & Hinv1 & _);
    [reflexivity|apply (tree_inv_new poseidon)|reflexivity|].
  destruct (deposit_spec poseidon (NumInt a) a bytes2 now2 sdk1 Hinit1 Hinv1 eq_refl)
    as (s2' & sdk2 & Hs2 & R2 & _).
  rewrite secret_value in Hs1, Hs2. injection Hs1 as <-. injection Hs2 as <-.
  eexists _, _, sdk1, sdk2. split; [exact R1|]. split; [exact R2|].
  cbn [deposit_commitment]. fold s1 s2. split.
  - unfold s1, s2. intros Heq.
    apply N2Z.inj in Heq. apply bytes_value_inj in Heq as [? _]; done.
  - split; [|by intros ->].
    apply hashToHex_inj; apply (poseidon_nonempty poseidon Hlen32).
Qed.

Lemma deposits_with_distinct_randomness_witness :
  exists r1 r2 sdk1 sdk2,
    (initialize ;;; deposit ByteHash.hash (NumInt 1000) Scenario.some_bytes 1700000000000)
      (ProofSightSDK.new "devnet")
    = (Return r1, sdk1)
    /\ deposit ByteHash.hash (NumInt 1000) Scenario.other_bytes 1700000000001 sdk1
       = (Return r2, sdk2)
    /\ Z.of_N (bytes_value Scenario.some_bytes 0) <> Z.of_N (bytes_value Scenario.other_bytes 0)
    /\ (deposit_commitment r1 = deposit_commitment r2
        <-> ByteHash.hash [1000; Z.of_N (bytes_value Scenario.some_bytes 0); 0]
            = ByteHash.hash [1000; Z.of_N (bytes_value Scenario.other_bytes 0); 0]).
Proof.
  apply (deposits_with_distinct_randomness ByteHash.hash "devnet" 1000
           Scenario.some_bytes Scenario.other_bytes 1700000000000 1700000000001).
  - apply ByteHashFacts.hash_length.
  - reflexivity.
  - discriminate.
Defined.

End LifecycleProperties.

(** ** What the withdrawal and deposit circuits constrain *)

Module CircuitConstraintProperties.

Import Circuits FieldFacts PositionUpdateFacts PositionUpdateProperties.

Lemma MerklePathVerifier_loop_length (Poseidon : list Z -> Z) (cur : Z)
  (elems dirs : list Z) (r : Z) :
  MerklePathVerifier_loop Poseidon cur elems dirs = Some r ->
  length dirs = length elems
  /\ Forall (fun s => fmul s (fsub 1 s) = 0) dirs.
Proof.
  revert cur dirs. induction elems as [|e elems IH]; intros cur [|s dirs] H; try discriminate.
  - done.
  - cbn [MerklePathVerifier_loop] in H.
    apply bind_Some in H as ([out0 out1] & Hmux & H).
    apply IH in H as [Hlen Hall]. split; [simpl; by rewrite Hlen|].
    constructor; [|done]. unfold DualMux in Hmux.
    apply bind_Some in Hmux as ([] & Hc & _). by apply constrain_Some in Hc.
Qed.

Lemma MerklePathVerifier_inv (Poseidon : list Z -> Z) (levels : nat) (leaf root : Z)
  (elems dirs : list Z) :
  MerklePathVerifier Poseidon levels leaf root elems dirs = Some tt ->
  length elems = levels
  /\ MerklePathVerifier_loop Poseidon leaf elems dirs = Some root.
Proof.
  unfold MerklePathVerifier. intros H.
  apply bind_Some in H as (Hlen & _ & H).
  apply bind_Some in H as (last & Hloop & H).
  apply constrain_Some in H as ->. done.
Qed.

(** X19. A witness the withdrawal circuit accepts has as many siblings and
    directions as the tree has levels, directions [s] with
    [s * (1 - s) = 0], a public nullifier equal to
    [Poseidon(secret, commitment)] for the commitment
    [Poseidon(amount, secret, indexVal)], a root equal to the hash the path
    climbs to from that commitment, a recipient that is not zero and an
    amount below 2^64. *)
Theorem withdrawal_accepted_only_if (Poseidon : list Z -> Z) (depth : nat)
  (inputs : WithdrawalInputs) (sigs : WithdrawalSignals) :
  WithdrawalCircuit Poseidon depth inputs = Some sigs ->
  let commitment :=
    Poseidon [Fr (w_amount inputs); Fr (w_secret inputs);
              indexVal (map Fr (w_pathIndices inputs))] in
  sig_commitment sigs = commitment
  /\ Fr (w_nullifierHash inputs) = Poseidon [Fr (w_secret inputs); commitment]
  /\ length (w_pathElements inputs) = depth
  /\ length (w_pathIndices inputs) = depth
  /\ Forall (fun s => fmul (Fr s) (fsub 1 (Fr s)) = 0) (w_pathIndices inputs)
  /\ MerklePathVerifier_loop Poseidon commitment (map Fr (w_pathElements inputs))
       (map Fr (w_pathIndices inputs)) = Some (Fr (w_root inputs))
  /\ Fr (w_recipient inputs) <> 0
  /\ Fr (w_amount inputs) < 2 ^ 64.
Proof.
  intros H commitment. unfold WithdrawalCircuit in H. cbv zeta in H. fold commitment in H.
  apply bind_Some in H as ([] & Hnull & H). apply constrain_Some in Hnull.
  apply bind_Some in H as ([] & Hmerkle & H).
  apply MerklePathVerifier_inv in Hmerkle as [Hlen Hloop].
  apply bind_Some in H as ([] & Hrec & H). apply constrain_Some in Hrec.
  apply bind_Some in H as (bits & Hbits & H). injection H as <-.
  apply Num2Bits_sound in Hbits as [Hamount _];
    [|apply pow2_le_p; lia|apply Fr_range].
  pose proof (MerklePathVerifier_loop_length _ _ _ _ _ Hloop) as [Hlen' Hbool].
  rewrite length_map in Hlen. rewrite !length_map in Hlen'.
  split; [reflexivity|]. split; [done|]. split; [done|]. split; [congruence|].
  split; [by apply Forall_fmap in Hbool|]. split; [done|].
  split; [|done]. unfold IsZero in Hrec.
  by destruct (Z.eqb_spec (Fr (w_recipient inputs)) 0).
Qed.

Lemma withdrawal_accepted_only_if_witness :
  let commitment :=
    PairingHash.hash [Fr (w_amount Scenario.sample_withdrawal);
                      Fr (w_secret Scenario.sample_withdrawal);
                      indexVal (map Fr (w_pathIndices Scenario.sample_withdrawal))] in
  sig_commitment Scenario.sample_withdrawal_signals = commitment
  /\ Fr (w_nullifierHash Scenario.sample_withdrawal)
     = PairingHash.hash [Fr (w_secret Scenario.sample_withdrawal); commitment]
  /\ length (w_pathElements Scenario.sample_withdrawal) = 2%nat
  /\ length (w_pathIndices Scenario.sample_withdrawal) = 2%nat
  /\ Forall (fun s => fmul (Fr s) (fsub 1 (Fr s)) = 0)
       (w_pathIndices Scenario.sample_withdrawal)
  /\ MerklePathVerifier_loop PairingHash.hash commitment
       (map Fr (w_pathElements Scenario.sample_withdrawal))
       (map Fr (w_pathIndices Scenario.sample_withdrawal))
     = Some (Fr (w_root Scenario.sample_withdrawal))
  /\ Fr (w_recipient Scenario.sample_withdrawal) <> 0
  /\ Fr (w_amount Scenario.sample_withdrawal) < 2 ^ 64.
Proof.
  apply (withdrawal_accepted_only_if PairingHash.hash 2 Scenario.sample_withdrawal
           Scenario.sample_withdrawal_signals).
  vm_compute. reflexivity.
Defined.

(** X20. A witness the deposit circuit accepts has an amount and a
    timestamp below 2^64 and as many siblings and directions as levels; the
    output is [Poseidon(amount, secret, indexVal)] and [new_root] is the hash
    the path climbs to from it. The inputs [old_root] and [nullifier_key] are
    not constrained: the circuit accepts the same witness with any other
    values for them. *)
Theorem deposit_accepted_only_if (Poseidon : list Z -> Z) (depth : nat)
  (inputs : Deposit.DepositInputs) (commitment_out : Z) :
  Deposit.DepositCircuit Poseidon depth inputs = Some commitment_out ->
  commitment_out
  = Poseidon [Fr (Deposit.d_deposit_amount inputs); Fr (Deposit.d_secret inputs);
              indexVal (map Fr (Deposit.d_pathIndices inputs))]
  /\ Fr (Deposit.d_deposit_amount inputs) < 2 ^ 64
  /\ Fr (Deposit.d_timestamp inputs) < 2 ^ 64
  /\ length (Deposit.d_pathElements inputs) = depth
  /\ length (Deposit.d_pathIndices inputs) = depth
  /\ MerklePathVerifier_loop Poseidon commitment_out (map Fr (Deposit.d_pathElements inputs))
       (map Fr (Deposit.d_pathIndices inputs)) = Some (Fr (Deposit.d_new_root inputs))
  /\ forall nullifier_key old_root,
       Deposit.DepositCircuit Poseidon depth
         {| Deposit.d_deposit_amount := Deposit.d_deposit_amount inputs;
            Deposit.d_new_root := Deposit.d_new_root inputs;
            Deposit.d_timestamp := Deposit.d_timestamp inputs;
            Deposit.d_secret := Deposit.d_secret inputs;
            Deposit.d_nullifier_key := nullifier_key;
            Deposit.d_old_root := old_root;
            Deposit.d_pathElements := Deposit.d_pathElements inputs;
            Deposit.d_pathIndices := Deposit.d_pathIndices inputs |}
       = Some commitment_out.
Proof.
  intros H. pose proof H as Hsame.
  unfold Deposit.DepositCircuit in H. cbv zeta in H.
  apply bind_Some in H as (bits & Hbits & H).
  apply Num2Bits_sound in Hbits as [Hamount _]; [|apply pow2_le_p; lia|apply Fr_range].
  apply bind_Some in H as ([] & Hmerkle & H).
  change (Deposit.MerkleTreeChecker Poseidon) with (MerklePathVerifier Poseidon) in Hmerkle.
  apply MerklePathVerifier_inv in Hmerkle as [Hlen Hloop].
  apply bind_Some in H as (bits' & Hbits' & H). injection H as <-.
  apply Num2Bits_sound in Hbits' as [Htime _]; [|apply pow2_le_p; lia|apply Fr_range].
  pose proof (MerklePathVerifier_loop_length _ _ _ _ _ Hloop) as [Hlen' _].
  rewrite length_map in Hlen. rewrite !length_map in Hlen'.
  split; [reflexivity|]. split; [done|]. split; [done|]. split; [done|].
  split; [congruence|]. split; [done|].
  intros nullifier_key old_root. exact Hsame.
Qed.

Lemma deposit_accepted_only_if_witness :
  PairingHash.hash [1000; 5; 1]
  = PairingHash.hash [Fr (Deposit.d_deposit_amount Samples.sample_deposit);
                      Fr (Deposit.d_secret Samples.sample_deposit);
                      indexVal (map Fr (Deposit.d_pathIndices Samples.sample_deposit))]
  /\ Fr (Deposit.d_deposit_amount Samples.sample_deposit) < 2 ^ 64
  /\ Fr (Deposit.d_timestamp Samples.sample_deposit) < 2 ^ 64
  /\ length (Deposit.d_pathElements Samples.sample_deposit) = 2%nat
  /\ length (Deposit.d_pathIndices Samples.sample_deposit) = 2%nat
  /\ MerklePathVerifier_loop PairingHash.hash (PairingHash.hash [1000; 5; 1])
       (map Fr (Deposit.d_pathElements Samples.sample_deposit))
       (map Fr (Deposit.d_pathIndices Samples.sample_deposit))
     = Some (Fr (Deposit.d_new_root Samples.sample_deposit))
  /\ forall nullifier_key old_root,
       Deposit.DepositCircuit PairingHash.hash 2
         {| Deposit.d_deposit_amount := Deposit.d_deposit_amount Samples.sample_deposit;
            Deposit.d_new_root := Deposit.d_new_root Samples.sample_deposit;
            Deposit.d_timestamp := Deposit.d_timestamp Samples.sample_deposit;
            Deposit.d_secret := Deposit.d_secret Samples.sample_deposit;
            Deposit.d_nullifier_key := nullifier_key;
            Deposit.d_old_root := old_root;
            Deposit.d_pathElements := Deposit.d_pathElements Samples.sample_deposit;
            Deposit.d_pathIndices := Deposit.d_pathIndices Samples.sample_deposit |}
       = Some (PairingHash.hash [1000; 5; 1]).
Proof.
  apply (deposit_accepted_only_if PairingHash.hash 2 Samples.sample_deposit
           (PairingHash.hash [1000; 5; 1])).
  vm_compute. reflexivity.
Defined.

End CircuitConstraintProperties.

Module MembershipProperties.

Import JsFacts StatefulFacts CryptoUtils CryptoFacts MerkleTree Accumulator KeyFacts.
Import MerkleFacts Session TreeFacts SessionFacts ByteHashFacts.

(** X22. [insert] does not check its index: in a tree of at most 53
    levels (where every node index is an exact double) an insertion at a
    negative index, or at [2^levels] or above, returns, and the root is the
    same as without it. *)
Theorem insert_outside_capacity_ignored (poseidon : list Z -> list Byte.byte) (depth : nat)
  (calls : list TreeCall) (i : Z) (c : string) :
  (depth <= 53)%nat ->
  well_formed calls -> convertible c ->
  i < 0 \/ 2 ^ Z.of_nat depth <= i ->
  exists root,
    fst ((run poseidon calls ;;; getRoot poseidon) (MerkleTree.new depth)) = Return root
    /\ fst ((run poseidon calls ;;; insert poseidon i c ;;; getRoot poseidon)
              (MerkleTree.new depth)) = Return root.
Proof.
  intros Hdepth Hwf Hc Hi.
  destruct (run_new poseidon depth calls Hwf) as (t0 & R0 & Hinv0 & Hn0 & Hl0).
  destruct (getRoot_spec poseidon t0 Hinv0) as (t1 & R1 & _).
  destruct (insert_spec poseidon i c t0 Hinv0 Hc) as (t2 & R2 & Hinv2 & Hl2 & Hn2).
  destruct (getRoot_spec poseidon t2 Hinv2) as (t3 & R3 & _).
  eexists. rewrite !(st_bind_return _ _ _ _ _ R0), R1.
  rewrite (st_bind_return _ _ _ _ _ R2), R3. split; [reflexivity|].
  simpl. f_equal. rewrite Hn2, Hl2. unfold node_str.
  rewrite (node_hash_local poseidon (<[i := c]> (leaves t0)) (leaves t0)); [done|lia| |].
  { rewrite Hn0, Z.add_0_l, Z.mul_1_l. apply Z.pow_le_mono_r; lia. }
  intros j Hj. apply stored_insert. intros ->.
  assert (Hpos : 0 < 2 ^ Z.of_nat (levels t0)) by (apply Z.pow_pos_nonneg; lia).
  apply Z.div_small_iff in Hj as [Hj|Hj]; [|lia|lia]. rewrite Hn0 in Hj. lia.
Qed.

Lemma insert_outside_capacity_ignored_witness :
  exists root,
    fst ((run ByteHash.hash [CallInsert 0 "0x5"] ;;; getRoot ByteHash.hash)
           (MerkleTree.new 3)) = Return root
    /\ fst ((run ByteHash.hash [CallInsert 0 "0x5"] ;;;
             insert ByteHash.hash 8 "0x7" ;;; getRoot ByteHash.hash)
              (MerkleTree.new 3)) = Return root.
Proof.
  apply (insert_outside_capacity_ignored ByteHash.hash 3 [CallInsert 0 "0x5"] 8 "0x7").
  - lia.
  - intros i c Hin. apply elem_of_cons in Hin as [Hin|Hin];
      [injection Hin as -> ->; eexists; vm_compute; reflexivity|].
    by apply elem_of_nil in Hin.
  - eexists. vm_compute. reflexivity.
  - right. simpl. lia.
Defined.

(** X25. [verifyPath] reads the leaf and the siblings of a path that is
    not empty only through the integers [hashNodes] converts them to: another
    leaf and other siblings that convert alike give the same result and
    state. Since the text of a hash converts to a number that depends on its
    first byte only, two commitments whose hashes start with the same byte
    cannot be told apart by [verifyPath]. *)
Theorem verifyPath_reads_converted_values (poseidon : list Z -> list Byte.byte)
  (leaf leaf' : string) (elems elems' : list string) (dirs : list Z) (root : string)
  (t : MerkleTree) :
  elems <> [] ->
  operand_value leaf = operand_value leaf' ->
  Forall2 (fun s s' => operand_value s = operand_value s') elems elems' ->
  verifyPath poseidon leaf elems dirs root t = verifyPath poseidon leaf' elems' dirs root t.
Proof.
  intros Hne Hleaf Helems. unfold verifyPath.
  assert (E : verifyPath_loop poseidon elems 0 dirs leaf
              = verifyPath_loop poseidon elems' 0 dirs leaf'); [|by rewrite E].
  destruct Helems as [|sib sib' rest rest' Hsib Hrest]; [done|].
  cbn [verifyPath_loop].
  rewrite (hashNodes_same_values poseidon sib leaf sib' leaf' Hsib Hleaf).
  rewrite (hashNodes_same_values poseidon leaf sib leaf' sib' Hleaf Hsib).
  destruct (if match dirs !! 0%nat with Some 1 => true | _ => false end
            then hashNodes poseidon sib' leaf' else hashNodes poseidon leaf' sib')
    as [next|e]; [|reflexivity].
  cbn [Js.bind]. by apply verifyPath_loop_same_values.
Qed.

Lemma verifyPath_reads_converted_values_witness :
  hashToHex (ByteHash.le_bytes 32 198) <> hashToHex (ByteHash.le_bytes 32 454)
  /\ verifyPath ByteHash.hash (hashToHex (ByteHash.le_bytes 32 198)) ["0x2"] [0]
       Scenario.pair_root (MerkleTree.new 32)
     = verifyPath ByteHash.hash (hashToHex (ByteHash.le_bytes 32 454)) ["2"] [0]
         Scenario.pair_root (MerkleTree.new 32).
Proof.
  split; [by vm_compute|].
  apply (verifyPath_reads_converted_values ByteHash.hash
           (hashToHex (ByteHash.le_bytes 32 198)) (hashToHex (ByteHash.le_bytes 32 454))
           ["0x2"] ["2"] [0] Scenario.pair_root (MerkleTree.new 32)).
  - discriminate.
  - vm_compute. reflexivity.
  - repeat constructor.
Defined.

End MembershipProperties.

(** ** Decimal texts and [formatInputs] *)

Module DecimalFacts.

Import JsFacts CryptoUtils CryptoFacts Bytes EncodingFacts ConversionFacts.

Lemma dec_digit_cases (c : ascii) (d : N) :
  dec_digit c = Some d ->
  (d < 10)%N /\ hex_digit c = Some d /\ is_whitespace c = false
  /\ c <> "-"%char /\ c <> "+"%char.
Proof.
  destruct c as [[] [] [] [] [] [] [] []]; try discriminate;
    intros [= <-]; repeat split; done.
Qed.

Lemma bin_digit_cases (c : ascii) (d : N) :
  bin_digit c = Some d -> (d < 2)%N /\ hex_digit c = Some d.
Proof.
  destruct c as [[] [] [] [] [] [] [] []]; try discriminate;
    intros [= <-]; repeat split; done.
Qed.

Lemma digits_no_whitespace (s : string) (acc v : N) :
  digits_value 10 dec_digit s acc = Some v -> no_whitespace s = true.
Proof.
  revert acc. induction s as [|c s IH]; intros acc; [done|].
  simpl. destruct (dec_digit c) as [d|] eqn:E; [|discriminate].
  apply dec_digit_cases in E as (_ & _ & -> & _). simpl. apply IH.
Qed.

(** A non-empty string of decimal digits is a BigInt literal of its decimal
    value. *)
Lemma StringToBigInt_decimal (s : string) (v : N) :
  s <> "" -> digits_value 10 dec_digit s 0 = Some v ->
  StringToBigInt s = Some (Z.of_N v).
Proof.
  intros Hne Hv. unfold StringToBigInt.
  rewrite trim_no_whitespace by (by apply (digits_no_whitespace s 0 v)).
  destruct s as [|c s]; [done|].
  assert (Hdefault : nonempty_digits 10 dec_digit (String c s) = Some (Z.of_N v)).
  { cbn [nonempty_digits]. by rewrite Hv. }
  cbn [digits_value] in Hv.
  destruct (dec_digit c) as [d|] eqn:Ec; [|discriminate].
  destruct c as [[] [] [] [] [] [] [] []]; try discriminate; try exact Hdefault.
  destruct s as [|c' s]; [exact Hdefault|].
  cbn [digits_value] in Hv.
  destruct (dec_digit c') as [d'|] eqn:Ec'; [|discriminate].
  destruct c' as [[] [] [] [] [] [] [] []]; try discriminate; exact Hdefault.
Qed.

Lemma digits_value_uint_acc (d : Decimal.uint) (acc : positive) :
  digits_value 10 dec_digit (NilEmpty.string_of_uint d) (N.pos acc)
  = Some (N.pos (Pos.of_uint_acc d acc)).
Proof.
  revert acc. induction d; intros acc; [reflexivity|..]; simpl; apply IHd.
Qed.

Lemma digits_value_uint (d : Decimal.uint) :
  digits_value 10 dec_digit (NilEmpty.string_of_uint d) 0 = Some (Pos.of_uint d).
Proof.
  induction d; [reflexivity|exact IHd|..]; simpl; apply digits_value_uint_acc.
Qed.

Lemma string_of_to_uint_nonempty (q : positive) :
  NilEmpty.string_of_uint (Pos.to_uint q) <> "".
Proof.
  intros H. pose proof (DecimalPos.Unsigned.of_to q) as E.
  destruct (Pos.to_uint q); try discriminate.
Qed.

Lemma StringToBigInt_to_uint (q : positive) :
  StringToBigInt (NilEmpty.string_of_uint (Pos.to_uint q)) = Some (Z.pos q).
Proof.
  rewrite (StringToBigInt_decimal _ (N.pos q)); [done|apply string_of_to_uint_nonempty|].
  by rewrite digits_value_uint, DecimalPos.Unsigned.of_to.
Qed.

Lemma NilZero_to_uint (q : positive) :
  NilZero.string_of_uint (Pos.to_uint q) = NilEmpty.string_of_uint (Pos.to_uint q).
Proof.
  pose proof (string_of_to_uint_nonempty q) as H.
  unfold NilZero.string_of_uint. by destruct (Pos.to_uint q).
Qed.

(** [BigInt(String(z))] is [z]. *)
Lemma BigInt_of_Number_toString (z : Z) : BigInt_of_string (Number_toString z) = Return z.
Proof.
  unfold BigInt_of_string, Number_toString. destruct z as [|q|q]; [reflexivity| |].
  - cbn [Z.to_int NilZero.string_of_int]. by rewrite NilZero_to_uint, StringToBigInt_to_uint.
  - cbn [Z.to_int NilZero.string_of_int]. rewrite NilZero_to_uint.
    set (s := NilEmpty.string_of_uint (Pos.to_uint q)).
    assert (Hs : StringToBigInt s = Some (Z.pos q)) by apply StringToBigInt_to_uint.
    assert (Hd : digits_value 10 dec_digit s 0 = Some (N.pos q)).
    { unfold s. by rewrite digits_value_uint, DecimalPos.Unsigned.of_to. }
    unfold StringToBigInt.
    rewrite trim_no_whitespace by (simpl; by apply (digits_no_whitespace s 0 (N.pos q))).
    rewrite nonempty_digits_cons by apply string_of_to_uint_nonempty.
    fold s. by rewrite Hd.
Qed.

(** The value of a digit string in a radix below 16 against its value read
    in base 16. *)
Lemma digits_value_le (r : N) (digit : ascii -> option N) (s : string)
  (acc acc' v : N) :
  (r <= 16)%N ->
  (forall c d, digit c = Some d -> hex_digit c = Some d) ->
  digits_value r digit s acc = Some v -> (acc <= acc')%N ->
  exists w, digits_value 16 hex_digit s acc' = Some w
            /\ (v <= w)%N /\ ((acc < acc')%N -> (v < w)%N).
Proof.
  intros Hr Hdigit. revert acc acc' v.
  induction s as [|c s IH]; intros acc acc' v Hv Hacc.
  - injection Hv as <-. by exists acc'.
  - cbn [digits_value] in *. destruct (digit c) as [d|] eqn:Ec; [|discriminate].
    rewrite (Hdigit c d Ec).
    destruct (IH _ (d + 16 * acc')%N v Hv) as (w & Hw & Hle & Hlt); [nia|].
    exists w. split; [done|]. split; [done|]. intros H. apply Hlt. nia.
Qed.

Lemma digits_value_eq (r : N) (digit : ascii -> option N) (s : string) (acc v : N) :
  (r < 16)%N ->
  (forall c d, digit c = Some d -> hex_digit c = Some d /\ (d < r)%N) ->
  s <> "" ->
  digits_value r digit s acc = Some v ->
  digits_value 16 hex_digit s acc = Some v ->
  acc = 0%N /\ (v < r)%N.
Proof.
  intros Hr Hdigit. revert acc.
  induction s as [|c s IH]; intros acc Hne Hv Hw; [done|].
  cbn [digits_value] in *. destruct (digit c) as [d|] eqn:Ec; [|discriminate].
  destruct (Hdigit c d Ec) as [Hhex Hd]. rewrite Hhex in Hw.
  destruct (N.eq_dec acc 0%N) as [->|Hpos].
  - split; [done|]. destruct s as [|c' s].
    + injection Hv as <-. lia.
    + rewrite N.mul_0_r, N.add_0_r in Hv, Hw.
      destruct (IH d ltac:(done) Hv Hw) as [-> ?]. done.
  - exfalso.
    destruct (digits_value_le r digit s (d + r * acc) (d + 16 * acc) v) as (w & Hw' & _ & Hlt);
      [lia|intros c' d' H'; by apply Hdigit|done|nia|].
    rewrite Hw in Hw'. injection Hw' as <-.
    assert (v < v)%N by (apply Hlt; nia). lia.
Qed.

(** What [BigInt] makes of a string that starts with two lower-case
    hexadecimal digits and holds no white space. *)
Lemma StringToBigInt_hex_chars (n1 n2 : N) (rest : string) :
  (n1 < 16)%N -> (n2 < 16)%N -> no_whitespace rest = true ->
  StringToBigInt (String (hex_char n1) (String (hex_char n2) rest))
  = if ((n1 =? 0) && (n2 =? 11))%N then nonempty_digits 2 bin_digit rest
    else nonempty_digits 10 dec_digit (String (hex_char n1) (String (hex_char n2) rest)).
Proof.
  intros H1 H2 Hrest. unfold StringToBigInt.
  assert (Hnw : no_whitespace (String (hex_char n1) (String (hex_char n2) rest)) = true).
  { simpl. rewrite Hrest.
    destruct n1 as [|q1]; [|do 4 (try destruct q1 as [q1|q1|]); try lia];
      (destruct n2 as [|q2]; [|do 4 (try destruct q2 as [q2|q2|]); try lia]); reflexivity. }
  rewrite trim_no_whitespace by done. clear Hnw.
  destruct n1 as [|q1]; [|do 4 (try destruct q1 as [q1|q1|]); try lia];
    (destruct n2 as [|q2]; [|do 4 (try destruct q2 as [q2|q2|]); try lia]); reflexivity.
Qed.

End DecimalFacts.

Module InputProperties.

Import JsFacts CryptoUtils CryptoFacts Bytes EncodingFacts ConversionFacts DecimalFacts.
Import ProofGenerator LifecycleFacts.

(** X23. A BN input is hashed as its exact integer:
    [BigInt(input.toString())] is the integer itself, of any sign and size,
    so [poseidonHash([new BN(z)])] equals [poseidonHash([z])]. *)
Theorem BN_input_hashed_exactly (poseidon : list Z -> list Byte.byte) (z : Z) :
  toBigInt (InBN z) = Return z
  /\ poseidonHash poseidon [InBN z] = poseidonHash poseidon [InNumber (NumInt z)].
Proof.
  assert (H : toBigInt (InBN z) = Return z) by apply BigInt_of_Number_toString.
  split; [exact H|]. unfold poseidonHash. cbn [mapM]. by rewrite H.
Qed.

Lemma hex_of_bytes_chars (b : Byte.byte) (bs : list Byte.byte) :
  hex_of_bytes (b :: bs)
  = String (hex_char (Byte.to_N b / 16))
      (String (hex_char (Byte.to_N b mod 16)) (hex_of_bytes bs)).
Proof.
  rewrite hex_of_bytes_cons. unfold hex_of_byte. by rewrite !append_cons, append_empty_l.
Qed.

Lemma bin_digit_hex (c : ascii) (d : N) : bin_digit c = Some d -> hex_digit c = Some d.
Proof. intros H. by apply bin_digit_cases in H as [_ ?]. Qed.

Lemma dec_digit_hex (c : ascii) (d : N) :
  dec_digit c = Some d -> hex_digit c = Some d /\ (d < 10)%N.
Proof. intros H. by apply dec_digit_cases in H as (? & ? & _). Qed.

Lemma nonempty_digits_inv (radix : N) (digit : ascii -> option N) (s : string) (d : Z) :
  nonempty_digits radix digit s = Some d ->
  s <> "" /\ exists v, digits_value radix digit s 0 = Some v /\ d = Z.of_N v.
Proof.
  destruct s as [|c s]; [discriminate|]. cbn [nonempty_digits]. intros H.
  split; [done|]. destruct (digits_value radix digit (String c s) 0) as [v|]; [|discriminate].
  injection H as <-. by exists v.
Qed.

(** X24. [formatInputs] applies [BigInt] to a string as it is, while
    [poseidonHash] reads a string without prefix in base 16. When
    [formatInputs] accepts a secret of [generateSecret] without a [0x] in
    front, the integer it yields is at most the one [poseidonHash] hashes,
    and equal to it only when that integer is below 10. *)
Theorem bare_secret_misread_by_formatInputs (randomBytes : list Byte.byte) (d : Z) :
  formatValue (VString (generateSecret randomBytes)) = Return (FScalar d) ->
  toBigInt (InString (generateSecret randomBytes))
  = Return (Z.of_N (bytes_value randomBytes 0))
  /\ d <= Z.of_N (bytes_value randomBytes 0)
  /\ (d = Z.of_N (bytes_value randomBytes 0) -> d < 10).
Proof.
  intros H. split; [apply secret_value|].
  unfold generateSecret in H. cbn [formatValue] in H. unfold BigInt_of_string in H.
  destruct (StringToBigInt (hex_of_bytes randomBytes)) as [z|] eqn:E; [|discriminate].
  injection H as ->.
  destruct randomBytes as [|b bs].
  { injection E as <-. simpl. lia. }
  set (value := bytes_value (b :: bs) 0).
  assert (Hhex : digits_value 16 hex_digit (hex_of_bytes (b :: bs)) 0 = Some value)
    by apply digits_value_hex_of_bytes.
  clearbody value.
  rewrite hex_of_bytes_chars in E, Hhex.
  set (n := Byte.to_N b) in *.
  assert (Hn : (n < 256)%N) by apply byte_to_N_bound.
  assert (H1 : (n / 16 < 16)%N) by (apply N.Div0.div_lt_upper_bound; lia).
  assert (H2 : (n mod 16 < 16)%N) by (apply N.mod_lt; lia).
  rewrite StringToBigInt_hex_chars in E
    by (try done; apply all_hex_no_whitespace, SDKProperties.all_hex_hex_of_bytes).
  destruct ((n / 16 =? 0) && (n mod 16 =? 11))%N eqn:Ecase.
  - apply andb_true_iff in Ecase as [E1 E2].
    apply N.eqb_eq in E1, E2.
    apply nonempty_digits_inv in E as (Hne & v & Hv & ->).
    cbn [digits_value] in Hhex.
    rewrite !hex_digit_hex_char in Hhex by done.
    destruct (digits_value_le 2 bin_digit (hex_of_bytes bs) 0 (n mod 16 + 16 * (n / 16 + 16 * 0)) v)
      as (w & Hw & _ & Hlt); [lia|apply bin_digit_hex|done|lia|].
    rewrite Hhex in Hw. injection Hw as <-.
    assert (v < value)%N by (apply Hlt; lia). lia.
  - apply nonempty_digits_inv in E as (Hne & v & Hv & ->).
    destruct (digits_value_le 10 dec_digit _ 0 0 v ltac:(lia)
                (fun c x Hc => proj1 (dec_digit_hex c x Hc)) Hv ltac:(lia))
      as (w & Hw & Hle & _).
    rewrite Hhex in Hw. injection Hw as <-.
    split; [lia|]. intros Heq. apply N2Z.inj in Heq. subst v.
    destruct (digits_value_eq 10 dec_digit _ 0 _ ltac:(lia) dec_digit_hex Hne Hv Hhex)
      as [_ Hsmall]. lia.
Qed.

Lemma bare_secret_misread_by_formatInputs_witness :
  toBigInt (InString (generateSecret [Byte.x00; Byte.x12]))
  = Return (Z.of_N (bytes_value [Byte.x00; Byte.x12] 0))
  /\ 12 <= Z.of_N (bytes_value [Byte.x00; Byte.x12] 0)
  /\ (12 = Z.of_N (bytes_value [Byte.x00; Byte.x12] 0) -> 12 < 10).
Proof.
  apply (bare_secret_misread_by_formatInputs [Byte.x00; Byte.x12] 12). reflexivity.
Defined.

End InputProperties.
